(** * Merkle multi-proofs: a shallow embedding of the JavaScript library

    The development follows the layout of the library:
    - [Js]: the fragment of JavaScript the sources rely on (outcomes of a
      call, 32-bit integer operators, array reads);
    - [Utils]: [src/utils/index.js] ([leftPad], [to32ByteBuffer],
      [bitCount32], [hashNode]);
    - [MultiProof]: [src/multi-proof.js] ([generateMultiProof],
      [verifyMultiProof]);
    - [CombinedProof]: the combined multi/append proof module
      ([getRootBooleans], [getRootBits], [getNewRootBooleans],
      [getNewRootBits], [getMinimumIndex]).
    - [Spec]: the vocabulary of the statements (bit counts, encodings,
      well-formed trees, packed words);
    - the properties, module by module.
    Definitions come first, the properties after them. *)

From Stdlib Require Import ZArith List Bool Lia String Ascii.
Import ListNotations.
Local Open Scope Z_scope.

(* ===================================================================== *)
(** * JavaScript fragment *)
(* ===================================================================== *)

Module Js.

(** The exceptions the modelled code can raise.  [assert(c, msg)] throws an
    [AssertionError] carrying [msg]; reading a property of [undefined], or
    handing [undefined]/[null] to [Buffer.concat] or [Buffer.from], throws a
    [TypeError]; [Array(n)] with [n] negative or above [2^32 - 1] throws a
    [RangeError]. *)
Inductive error : Type :=
| AssertionError (msg : string)
| TypeError
| RangeError.

(** What a call does: it returns, it throws, or (for a [while] loop run with
    a bounded number of iterations) it is still running when the bound is
    reached. *)
Inductive outcome (A : Type) : Type :=
| Ok (a : A)
| Throw (e : error)
| OutOfFuel.
Arguments Ok {A} a.
Arguments Throw {A} e.
Arguments OutOfFuel {A}.

Definition bind {A B} (m : outcome A) (k : A -> outcome B) : outcome B :=
  match m with
  | Ok a => k a
  | Throw e => Throw e
  | OutOfFuel => OutOfFuel
  end.

Definition assert (c : bool) (msg : string) : outcome unit :=
  if c then Ok tt else Throw (AssertionError msg).

(** ** Numbers

    Integers are [Z]; the bitwise operators first wrap their operands to
    32 bits (ToInt32 / ToUint32) and take the shift count modulo 32. *)
Definition toUint32 (x : Z) : Z := x mod 2 ^ 32.
Definition toInt32 (x : Z) : Z := (x + 2 ^ 31) mod 2 ^ 32 - 2 ^ 31.

(** [a & b] *)
Definition and32 (a b : Z) : Z := Z.land (toInt32 a) (toInt32 b).
(** [a >> s] *)
Definition shr32 (a s : Z) : Z := Z.shiftr (toInt32 a) (s mod 32).
(** [a >>> s] *)
Definition ushr32 (a s : Z) : Z := Z.shiftr (toUint32 a) (s mod 32).
(** [a << s] *)
Definition shl32 (a s : Z) : Z := toInt32 (Z.shiftl (toInt32 a) (s mod 32)).

(** A number that may be [NaN] ([x % 0], or arithmetic on [undefined]). *)
Inductive num : Type :=
| NaN
| Num (z : Z).

(** [a % b] on a possibly-NaN [a] and an integer [b]: the remainder takes
    the sign of the dividend, and [% 0] is [NaN]. *)
Definition rem (a : num) (b : Z) : num :=
  match a with
  | NaN => NaN
  | Num z => if b =? 0 then NaN else Num (Z.rem z b)
  end.

(** [a + k] *)
Definition plus (a : num) (k : Z) : num :=
  match a with
  | NaN => NaN
  | Num z => Num (z + k)
  end.

(** [a === b] on numbers: [NaN] equals nothing. *)
Definition num_eqb (a b : num) : bool :=
  match a, b with
  | Num x, Num y => x =? y
  | _, _ => false
  end.

(** Equality of property keys: [a[NaN]] names the property ["NaN"]. *)
Definition key_eqb (a b : num) : bool :=
  match a, b with
  | Num x, Num y => x =? y
  | NaN, NaN => true
  | _, _ => false
  end.

(** ** Buffers and arrays

    A [Buffer] is its list of bytes, each a [Z] in [0, 256).  A value that
    may be [undefined] or [null] is an [option]; the modelled code treats
    the two alike. *)
Definition Buffer : Type := list Z.

Fixpoint buffer_eqb (a b : Buffer) : bool :=
  match a, b with
  | [], [] => true
  | x :: a', y :: b' => (x =? y) && buffer_eqb a' b'
  | _, _ => false
  end.

Definition val : Type := option Buffer.

(** [l[i]] on an array given by a list: [undefined] out of range. *)
Definition get {A} (l : list A) (i : Z) : option A :=
  if i <? 0 then None else nth_error l (Z.to_nat i).

Definition get_num {A} (l : list A) (i : num) : option A :=
  match i with
  | NaN => None
  | Num z => get l z
  end.

(** The same read on an array whose entries may themselves be
    [undefined]. *)
Definition get_val {A} (l : list (option A)) (i : Z) : option A :=
  match get l i with
  | Some v => v
  | None => None
  end.

(** Truthiness of [l[i]] on an array of booleans. *)
Definition truthy (l : list bool) (i : Z) : bool :=
  match get l i with
  | Some b => b
  | None => false
  end.

(** An array the code writes into, as the map from property keys to values
    ([None] for [null], [undefined] and absent keys). *)
Definition array (A : Type) : Type := num -> option A.

Definition empty_array {A} : array A := fun _ => None.

(** [Array(n).fill(null)] *)
Definition new_array {A} (n : Z) : outcome (array A) :=
  if (n <? 0) || (2 ^ 32 <=? n) then Throw RangeError else Ok empty_array.

Definition set {A} (a : array A) (i : num) (v : option A) : array A :=
  fun j => if key_eqb j i then v else a j.

(** [a.equals(b)]: a [TypeError] unless both are buffers. *)
Definition equals (a b : val) : outcome bool :=
  match a, b with
  | Some x, Some y => Ok (buffer_eqb x y)
  | _, _ => Throw TypeError
  end.

(** [Buffer.from(b)] on a buffer copies it; on [null]/[undefined] it
    throws. *)
Definition buffer_from (a : val) : outcome Buffer :=
  match a with
  | Some x => Ok x
  | None => Throw TypeError
  end.

End Js.

Import Js.

Notation "x <- m ;; k" := (bind m (fun x => k))
  (at level 61, m at next level, right associativity).

(* ===================================================================== *)
(** * [src/utils/index.js] *)
(* ===================================================================== *)

Module Utils.

(** ** Library functions used by [to32ByteBuffer] *)

Definition hex_char (d : Z) : ascii :=
  match d with
  | 0 => "0" | 1 => "1" | 2 => "2" | 3 => "3"
  | 4 => "4" | 5 => "5" | 6 => "6" | 7 => "7"
  | 8 => "8" | 9 => "9" | 10 => "a" | 11 => "b"
  | 12 => "c" | 13 => "d" | 14 => "e" | _ => "f"
  end%char.

Fixpoint hex_digits (fuel : nat) (n : Z) (acc : string) : string :=
  match fuel with
  | O => acc
  | S f =>
      let acc' := String (hex_char (n mod 16)) acc in
      if n / 16 =? 0 then acc' else hex_digits f (n / 16) acc'
  end.

(** [number.toString(16)] on an integer: the hexadecimal digits, most
    significant first, after a minus sign for a negative number. *)
Definition toString16 (n : Z) : string :=
  if n <? 0
  then String "-"%char (hex_digits (S (Z.to_nat (Z.log2 (- n)))) (- n) EmptyString)
  else hex_digits (S (Z.to_nat (Z.log2 n))) n EmptyString.

(** The value of a hexadecimal character, by its code: [0-9], [a-f] or
    [A-F]. *)
Definition hex_value (c : ascii) : option Z :=
  let code := Z.of_N (N_of_ascii c) in
  if (48 <=? code) && (code <=? 57) then Some (code - 48)
  else if (97 <=? code) && (code <=? 102) then Some (code - 87)
  else if (65 <=? code) && (code <=? 70) then Some (code - 55)
  else None.

(** [Buffer.from(s, 'hex')]: one byte per pair of hexadecimal characters;
    decoding stops at the first pair that is not hexadecimal, and a
    trailing single character is dropped. *)
Fixpoint bufferFromHex (s : string) : Buffer :=
  match s with
  | String a (String b rest) =>
      match hex_value a, hex_value b with
      | Some x, Some y => (16 * x + y) :: bufferFromHex rest
      | _, _ => []
      end
  | _ => []
  end.

(** ** [leftPad]

    [while (s.length < size) s = char + s]: the loop is run for at most
    [size] rounds, which is enough whenever [char] is not empty; with an
    empty [char] the source does not terminate either. *)
Fixpoint leftPad_loop (fuel : nat) (s : string) (size : Z) (char : string)
  : outcome string :=
  if Z.of_nat (String.length s) <? size
  then match fuel with
       | O => OutOfFuel
       | S f => leftPad_loop f (char ++ s) size char
       end
  else Ok s.

Definition leftPad (num : string) (size : Z) (char : string) : outcome string :=
  leftPad_loop (Z.to_nat size) num size char.

(** ** [to32ByteBuffer] *)
Definition to32ByteBuffer (number : Z) : outcome Buffer :=
  s <- leftPad (toString16 number) 64 "0" ;;
  Ok (bufferFromHex s).

(** ** [bitCount32]

    The numbers of the source are doubles.  The difference of the first
    line is exact for [n] up to [2^52] in magnitude, and every later sum
    and product stays below [2^53]; beyond that the source rounds the
    difference, which this definition on the integers does not
    follow. *)
Definition bitCount32 (n : Z) : Z :=
  let m := n - and32 (shr32 n 1) 0x55555555 in
  let m := and32 m 0x33333333 + and32 (shr32 m 2) 0x33333333 in
  shr32 (and32 (m + shr32 m 4) 0xf0f0f0f * 0x1010101) 24.

(** ** [hashNode]

    [Keccak(256)] is the external digest; [Buffer.concat] throws a
    [TypeError] when an operand is not a buffer. *)
Section Hash.
Variable keccak256 : Buffer -> Buffer.

Definition hashNode (leftHash rightHash : val) : outcome Buffer :=
  match leftHash, rightHash with
  | Some l, Some r => Ok (keccak256 (l ++ r))
  | _, _ => Throw TypeError
  end.
End Hash.

End Utils.

(* ===================================================================== *)
(** * [src/multi-proof.js] *)
(* ===================================================================== *)

Module MultiProof.

Import Utils.

Record proof : Type := mkProof {
  mixedRoot : val;
  root : val;
  leafCount : Z;
  indices : list Z;
  values : list val;
  decommitments : list val
}.

Section WithHash.
Variable keccak256 : Buffer -> Buffer.

(** ** Helpers imported from [./common]

    The two helpers live in a file of the repository that is not part of
    the sources at hand. *)

(** Modelled from the spec: [getDepthFromTree] of [./common] is missing.
    The tree is "a 1-indexed level-order array of size [2*leafCount]"
    with "[leafCount = 2^depth] leaves", so the depth of an array of
    [2 * 2^depth] entries is [log2 (length) - 1]. *)
Definition getDepthFromTree (tree : list Buffer) : Z :=
  Z.log2 (Z.of_nat (List.length tree)) - 1.

(** Modelled from the spec: [validateMixedRoot] of [./common] is missing.
    "Invariant: [mixedRoot == hashNode(encode(leafCount), root)]", with
    [encode] the 32-byte encoding [to32ByteBuffer]. *)
Definition validateMixedRoot (mixedRoot root : val) (leafCount : Z)
  : outcome bool :=
  count <- to32ByteBuffer leafCount ;;
  h <- hashNode keccak256 (Some count) root ;;
  equals (Some h) mixedRoot.

(** ** [generateMultiProof] *)

(** The [known] array, by the truthiness of its entries ([false] stands
    for [false] and for an absent entry). *)
Definition known_map : Type := Z -> bool.

Definition mark (known : known_map) (i : Z) (b : bool) : known_map :=
  fun j => if j =? i then b else known j.

(** First loop: [for (let i = 0; i < indices.length; i++)].  [prev] is
    [indices[i - 1]], absent when [i === 0]. *)
Fixpoint collect (tree : list Buffer) (depth : Z) (prev : option Z)
    (rest : list Z) (known : known_map) (values : list val)
  : outcome (known_map * list val) :=
  match rest with
  | [] => Ok (known, values)
  | idx :: rest' =>
      _ <- assert (match prev with None => true | Some p => idx <? p end)
             "indices must be in descending order" ;;
      collect tree depth (Some idx) rest'
        (mark known (shl32 1 depth + idx) true)
        (values ++ [get tree (shl32 1 depth + idx)])
  end.

(** Second loop: [for (let i = (1 << depth) - 1; i > 0; i--)]; the
    argument [n] is the current [i]. *)
Fixpoint decommit (tree : list Buffer) (n : nat) (known : known_map)
    (decommitments : list val) : known_map * list val :=
  match n with
  | O => (known, decommitments)
  | S n' =>
      let i := Z.of_nat n in
      let left := known (2 * i) in
      let right := known (2 * i + 1) in
      let decommitments :=
        if left && negb right
        then decommitments ++ [get tree (2 * i + 1)] else decommitments in
      let decommitments :=
        if right && negb left
        then decommitments ++ [get tree (2 * i)] else decommitments in
      decommit tree n' (mark known i (left || right)) decommitments
  end.

Definition generateMultiProof (tree : list Buffer) (indices : list Z)
  : outcome proof :=
  let depth := getDepthFromTree tree in
  let leafCount := shl32 1 depth in
  let nodeCount := 2 * leafCount in
  _ <- @new_array bool nodeCount ;;
  kv <- collect tree depth None indices (fun _ => false) [] ;;
  let '(known, values) := kv in
  let '(_, decommitments) :=
    decommit tree (Z.to_nat (shl32 1 depth - 1)) known [] in
  Ok {| mixedRoot := get tree 0;
        root := get tree 1;
        leafCount := leafCount;
        indices := indices;
        values := values;
        decommitments := decommitments |}.

(** ** [verifyMultiProof] *)

(** [values.forEach((value, i) => queue.push({ index: leafCount +
    indices[i], value }))]; a missing [indices[i]] makes the sum [NaN]. *)
Fixpoint seed (leafCount : Z) (indices : list Z) (i : Z) (values : list val)
  : list (num * val) :=
  match values with
  | [] => []
  | value :: values' =>
      (match get indices i with
       | Some idx => Num (leafCount + idx)
       | None => NaN
       end, value) :: seed leafCount indices (i + 1) values'
  end.

(** [index >> 1]; ToInt32 of [NaN] is 0. *)
Definition half (index : num) : num :=
  match index with
  | NaN => Num 0
  | Num z => Num (shr32 z 1)
  end.

(** [decommits.shift()] *)
Definition shift (decommits : list val) : val * list val :=
  match decommits with
  | [] => (None, [])
  | d :: rest => (d, rest)
  end.

(** One round of the [while (true)] loop: it returns ([inl]), goes on
    with a new queue and the decommitments that are left ([inr]), or
    throws. *)
Definition verify_round (root : val) (queue : list (num * val))
    (decommits : list val)
  : outcome (bool + list (num * val) * list val) :=
  match queue with
  | [] => Throw (AssertionError "Something went wrong.")
  | (index, value) :: queue =>
      if num_eqb index (Num 1) then
        same <- equals value root ;; Ok (inl same)
      else if num_eqb (rem index 2) (Num 0) then
        let '(d, decommits) := shift decommits in
        h <- hashNode keccak256 value d ;;
        Ok (inr (queue ++ [(half index, Some h)], decommits))
      else
        match queue with
        | (index0, value0) :: queue' =>
            if num_eqb index0 (plus index (-1)) then
              h <- hashNode keccak256 value0 value ;;
              Ok (inr (queue' ++ [(half index, Some h)], decommits))
            else
              let '(d, decommits) := shift decommits in
              h <- hashNode keccak256 d value ;;
              Ok (inr (queue ++ [(half index, Some h)], decommits))
        | [] =>
            let '(d, decommits) := shift decommits in
            h <- hashNode keccak256 d value ;;
            Ok (inr (queue ++ [(half index, Some h)], decommits))
        end
  end.

(** The loop, for at most [fuel] rounds. *)
Fixpoint verify_loop (fuel : nat) (root : val) (queue : list (num * val))
    (decommits : list val) : outcome bool :=
  match fuel with
  | O => OutOfFuel
  | S fuel' =>
      next <- verify_round root queue decommits ;;
      match next with
      | inl result => Ok result
      | inr (queue', decommits') => verify_loop fuel' root queue' decommits'
      end
  end.

(** Every round of the loop either returns, throws, or uses up a queue
    entry or a decommitment, so [length values + length decommitments + 1]
    rounds are enough (see [verify_loop_total]). *)
Definition verifyMultiProof (mixedRoot root : val) (leafCount : Z)
    (indices : list Z) (values decommitments : list val) : outcome bool :=
  valid <- validateMixedRoot mixedRoot root leafCount ;;
  if negb valid then Ok false
  else
    let decommits := map (fun decommitment => decommitment) decommitments in
    let queue := seed leafCount indices 0 values in
    verify_loop (S (List.length values + List.length decommitments))
      root queue decommits.

End WithHash.

End MultiProof.

(* ===================================================================== *)
(** * The combined multi/append proof module *)
(* ===================================================================== *)

Module CombinedProof.

Import Utils.

(** ** [getMinimumIndex]

    [for (let shifts = 0; shifts < 32; shifts++)]: [n] counts the rounds
    that are left; falling out of the loop returns [undefined]. *)
Fixpoint getMinimumIndex_loop (n : nat) (shifts elementCount : Z) : option Z :=
  match n with
  | O => None
  | S n' =>
      if negb (and32 elementCount 1 =? 0)
      then Some (shl32 (and32 elementCount 0xfffffffe) shifts)
      else getMinimumIndex_loop n' (shifts + 1) (ushr32 elementCount 1)
  end.

Definition getMinimumIndex (elementCount : Z) : option Z :=
  getMinimumIndex_loop 32 0 elementCount.

(** ** The bit sets of the packed encoding

    [and] and [leftShift] come from the external package [bitwise-buffer].
    [bitCheck] is a 32-byte constant that [leftShift] keeps at 32 bytes;
    it is held as the 256-bit big-endian number [word] reads from its
    bytes. *)
Definition word (b : Buffer) : Z := fold_left (fun acc x => acc * 256 + x) b 0.

(** [and(w, bitCheck)] pairs the bytes of its two arguments from index 0
    and has the length of the longer one, a byte past the end of the
    shorter one counting as 0.  These are the bytes of [w] that meet the
    32 bytes of [bitCheck]: [w] followed by zero bytes when it is
    shorter. *)
Definition aligned (b : Buffer) : Buffer :=
  b ++ repeat 0 (32 - List.length b).

(** [and(w, bitCheck).equals(bitCheck)]: on a word of more than 32 bytes
    the two buffers differ in length and the test is false; on
    [undefined] the call throws. *)
Definition bit_set (w : val) (bitCheck : Z) : outcome bool :=
  match w with
  | Some b =>
      Ok ((Z.of_nat (List.length b) <=? 32)
          && (Z.land (word (aligned b)) bitCheck =? bitCheck))
  | None => Throw TypeError
  end.

(** [leftShift(bitCheck, 1)] on a 32-byte word. *)
Definition leftShift (bitCheck k : Z) : Z := Z.shiftl bitCheck k mod 2 ^ 256.

Section WithHashFunction.
(** The caller's [hashFunction]: it returns a digest or throws. *)
Variable hashFunction : val -> val -> outcome Buffer.

(** ** [getRootBooleans] and [getRootBits] *)

Record state : Type := mkState {
  readIndex : num;
  writeIndex : num;
  decommitmentIndex : Z;
  useLeafs : bool;
  appendNodeIndex : Z;
  readIndexOfAppendNode : num;
  appendDecommitmentIndex : Z;
  appendDecommitments : array Buffer;
  hash : val;
  hashes : array Buffer
}.

Section Traversal.
Variable leafs : list Buffer.
Variable elementCount : Z.
Variable decommitments : list Buffer.

Let leafCount : Z := Z.of_nat (List.length leafs).

(** [useLeafs ? leafs[i] : hashes[i]] *)
Definition read (st : state) (i : num) : val :=
  if useLeafs st then get_num leafs i else hashes st i.

(** [appendNodeIndex & 1] as a condition *)
Definition odd (appendNodeIndex : Z) : bool :=
  negb (and32 appendNodeIndex 1 =? 0).

Definition init : outcome state :=
  hashes0 <- new_array leafCount ;;
  appendDecommitments0 <- new_array (bitCount32 elementCount) ;;
  Ok {| readIndex := Num 0;
        writeIndex := Num 0;
        decommitmentIndex := 0;
        useLeafs := true;
        appendNodeIndex := elementCount;
        readIndexOfAppendNode := Num 0;
        appendDecommitmentIndex := bitCount32 elementCount;
        appendDecommitments := appendDecommitments0;
        hash := None;
        hashes := hashes0 |}.

(** The body of [if (skips[i]) { ... continue; }]; the packed variant
    repeats the same statements. *)
Definition skip_step (st : state) : state :=
  let skippedHash := read st (readIndex st) in
  let readIndex1 := plus (readIndex st) 1 in
  let record := odd (appendNodeIndex st) in
  let cursor :=
    if record then appendDecommitmentIndex st - 1
    else appendDecommitmentIndex st in
  {| readIndex := rem readIndex1 leafCount;
     writeIndex := rem (plus (writeIndex st) 1) leafCount;
     decommitmentIndex := decommitmentIndex st;
     useLeafs :=
       if useLeafs st && num_eqb readIndex1 (Num leafCount) then false
       else useLeafs st;
     appendNodeIndex := ushr32 (appendNodeIndex st) 1;
     readIndexOfAppendNode := writeIndex st;
     appendDecommitmentIndex := cursor;
     appendDecommitments :=
       if record then set (appendDecommitments st) (Num cursor) skippedHash
       else appendDecommitments st;
     hash := if record then skippedHash else hash st;
     hashes := set (hashes st) (writeIndex st) skippedHash |}.

(** The rest of the loop body, for a position that is not skipped;
    [flag] is [flags[i]], respectively the flag bit. *)
Definition combine_step (flag : bool) (st : state) : outcome state :=
  let nextReadIndex := rem (plus (readIndex st) 1) leafCount in
  let appendHash :=
    if flag then read st nextReadIndex
    else get decommitments (decommitmentIndex st) in
  let rightMost := num_eqb (readIndexOfAppendNode st) (readIndex st) in
  let record := rightMost && odd (appendNodeIndex st) in
  let cursor :=
    if record then appendDecommitmentIndex st - 1
    else appendDecommitmentIndex st in
  hash1 <- (if record then
              h <- hashFunction appendHash (hash st) ;; Ok (Some h)
            else Ok (hash st)) ;;
  let right :=
    if flag then read st (readIndex st)
    else get decommitments (decommitmentIndex st) in
  let readIndex1 := if flag then plus (readIndex st) 1 else readIndex st in
  let readIndex2 := rem readIndex1 leafCount in
  let left := read st readIndex2 in
  let readIndex3 := plus readIndex2 1 in
  h <- hashFunction left right ;;
  Ok {| readIndex := rem readIndex3 leafCount;
        writeIndex := rem (plus (writeIndex st) 1) leafCount;
        decommitmentIndex :=
          if flag then decommitmentIndex st else decommitmentIndex st + 1;
        useLeafs :=
          if useLeafs st && num_eqb readIndex3 (Num leafCount) then false
          else useLeafs st;
        appendNodeIndex :=
          if rightMost then ushr32 (appendNodeIndex st) 1
          else appendNodeIndex st;
        readIndexOfAppendNode :=
          if rightMost then writeIndex st else readIndexOfAppendNode st;
        appendDecommitmentIndex := cursor;
        appendDecommitments :=
          if record then set (appendDecommitments st) (Num cursor) appendHash
          else appendDecommitments st;
        hash := hash1;
        hashes := set (hashes st) (writeIndex st) (Some h) |}.

(** [useLeafs ? leafs[0] : hashes[(writeIndex === 0 ? leafCount :
    writeIndex) - 1]] *)
Definition rootIndex (st : state) : num :=
  plus (if num_eqb (writeIndex st) (Num 0) then Num leafCount
        else writeIndex st) (-1).

Definition rootOf (st : state) : val :=
  if useLeafs st then get leafs 0 else hashes st (rootIndex st).

(** [assert(appendDecommitmentIndex === 1 || hash.equals(root),
    'Invalid Proof.')] *)
Definition crossCheck (cursor : Z) (hash root : val) : outcome unit :=
  if cursor =? 1 then Ok tt
  else same <- equals hash root ;; assert same "Invalid Proof.".

(** The statements that end both functions: pick the root, cross-check
    it, and return a copy. *)
Definition finish (st : state) : outcome Buffer :=
  let root := rootOf st in
  _ <- crossCheck (appendDecommitmentIndex st) (hash st) root ;;
  buffer_from root.

(** [for (let i = 0; i < hashCount; i++)], with [n] rounds left. *)
Fixpoint loopBooleans (flags skips : list bool) (n : nat) (i : Z)
    (st : state) : outcome state :=
  match n with
  | O => Ok st
  | S n' =>
      st' <- (if truthy skips i then Ok (skip_step st)
              else combine_step (truthy flags i) st) ;;
      loopBooleans flags skips n' (i + 1) st'
  end.

(** [while (true)] of the packed variant, for at most [fuel] rounds;
    it ends on a position with both bits set. *)
Fixpoint loopBits (flags skips : val) (fuel : nat) (bitCheck : Z)
    (st : state) : outcome state :=
  match fuel with
  | O => OutOfFuel
  | S fuel' =>
      flag <- bit_set flags bitCheck ;;
      skip <- bit_set skips bitCheck ;;
      if skip then
        if flag then Ok st
        else loopBits flags skips fuel' (leftShift bitCheck 1) (skip_step st)
      else
        st' <- combine_step flag st ;;
        loopBits flags skips fuel' (leftShift bitCheck 1) st'
  end.

End Traversal.

(** The state in which the loop of [getRootBooleans] ends. *)
Definition traverseBooleans (leafs : list Buffer) (elementCount : Z)
    (flags skips : list bool) (decommitments : list Buffer)
  : outcome state :=
  st <- init leafs elementCount ;;
  loopBooleans leafs decommitments flags skips (List.length flags) 0 st.

Definition getRootBooleans (leafs : list Buffer) (elementCount : Z)
    (flags skips : list bool) (decommitments : list Buffer)
  : outcome Buffer :=
  st <- traverseBooleans leafs elementCount flags skips decommitments ;;
  finish leafs st.

(** The state in which the loop of [getRootBits] ends.  On flag and skip
    words of at most 32 bytes [bitCheck] is zero after 256 shifts and
    both tests succeed, so 257 rounds are enough (see
    [traverseBits_total]).  On a word of more than 32 bytes the test is
    never true and the loop has no exit left but a throw (see
    [loopBits_no_exit]): [while (true)] does not end, and the run is
    [OutOfFuel] when nothing has thrown within these rounds. *)
Definition traverseBits (leafs : list Buffer) (elementCount : Z)
    (proof : list Buffer) : outcome state :=
  let flags := get proof 0 in
  let skips := get proof 1 in
  let decommitments := skipn 2 proof in
  st <- init leafs elementCount ;;
  loopBits leafs decommitments flags skips 257 1 st.

Definition getRootBits (leafs : list Buffer) (elementCount : Z)
    (proof : list Buffer) : outcome Buffer :=
  st <- traverseBits leafs elementCount proof ;;
  finish leafs st.

(** ** [getNewRootBooleans] and [getNewRootBits] *)

Record new_state : Type := mkNewState {
  base : state;
  newHashes : array Buffer
}.

Record roots : Type := mkRoots {
  root : Buffer;
  newRoot : val
}.

(** What the first loop hands to the append pass. *)
Record checked : Type := mkChecked {
  oldRoot : val;
  updatedRoot : val;
  newAppendDecommitments : array Buffer;
  stack : array Buffer
}.

Section Update.
Variable leafs updateLeafs appendLeafs : list Buffer.
Variable elementCount : Z.
Variable decommitments : list Buffer.

Let leafCount : Z := Z.of_nat (List.length leafs).

(** [useLeafs ? updateLeafs[i] : newHashes[i]] *)
Definition readNew (ns : new_state) (i : num) : val :=
  if useLeafs (base ns) then get_num updateLeafs i else newHashes ns i.

Definition initNew : outcome new_state :=
  hashes0 <- new_array leafCount ;;
  newHashes0 <-
    new_array (Z.max leafCount
                 (ushr32 (Z.of_nat (List.length appendLeafs)) 1 + 1)) ;;
  appendDecommitments0 <- new_array (bitCount32 elementCount) ;;
  Ok {| base := {| readIndex := Num 0;
                   writeIndex := Num 0;
                   decommitmentIndex := 0;
                   useLeafs := true;
                   appendNodeIndex := elementCount;
                   readIndexOfAppendNode := Num 0;
                   appendDecommitmentIndex := bitCount32 elementCount;
                   appendDecommitments := appendDecommitments0;
                   hash := None;
                   hashes := hashes0 |};
        newHashes := newHashes0 |}.

(** The body of [if (skips[i]) { ... continue; }]; the packed variant
    repeats the same statements. *)
Definition skip_new (ns : new_state) : new_state :=
  let st := base ns in
  let skippedHash := read leafs st (readIndex st) in
  let newSkippedHash := readNew ns (readIndex st) in
  let readIndex1 := plus (readIndex st) 1 in
  let record := odd (appendNodeIndex st) in
  let cursor :=
    if record then appendDecommitmentIndex st - 1
    else appendDecommitmentIndex st in
  {| base :=
       {| readIndex := rem readIndex1 leafCount;
          writeIndex := rem (plus (writeIndex st) 1) leafCount;
          decommitmentIndex := decommitmentIndex st;
          useLeafs :=
            if useLeafs st && num_eqb readIndex1 (Num leafCount) then false
            else useLeafs st;
          appendNodeIndex := ushr32 (appendNodeIndex st) 1;
          readIndexOfAppendNode := writeIndex st;
          appendDecommitmentIndex := cursor;
          appendDecommitments :=
            if record
            then set (appendDecommitments st) (Num cursor) newSkippedHash
            else appendDecommitments st;
          hash := if record then skippedHash else hash st;
          hashes := set (hashes st) (writeIndex st) skippedHash |};
     newHashes := set (newHashes ns) (writeIndex st) newSkippedHash |}.

(** The statements from [const right = ...] to the end of the loop
    body, the same in both variants; [hash1], [cursor1] and
    [appendDecommitments1] are what the append bookkeeping before them
    left. *)
Definition pair_new (flag : bool) (ns : new_state) (rightMost : bool)
    (hash1 : val) (cursor1 : Z) (appendDecommitments1 : array Buffer)
  : outcome new_state :=
  let st := base ns in
  let right :=
    if flag then read leafs st (readIndex st)
    else get decommitments (decommitmentIndex st) in
  let newRight :=
    if flag then readNew ns (readIndex st)
    else get decommitments (decommitmentIndex st) in
  let readIndex1 := if flag then plus (readIndex st) 1 else readIndex st in
  let readIndex2 := rem readIndex1 leafCount in
  let left := read leafs st readIndex2 in
  let newLeft := readNew ns readIndex2 in
  let readIndex3 := plus readIndex2 1 in
  h <- hashFunction left right ;;
  h' <- hashFunction newLeft newRight ;;
  Ok {| base :=
          {| readIndex := rem readIndex3 leafCount;
             writeIndex := rem (plus (writeIndex st) 1) leafCount;
             decommitmentIndex :=
               if flag then decommitmentIndex st
               else decommitmentIndex st + 1;
             useLeafs :=
               if useLeafs st && num_eqb readIndex3 (Num leafCount)
               then false else useLeafs st;
             appendNodeIndex :=
               if rightMost then ushr32 (appendNodeIndex st) 1
               else appendNodeIndex st;
             readIndexOfAppendNode :=
               if rightMost then writeIndex st
               else readIndexOfAppendNode st;
             appendDecommitmentIndex := cursor1;
             appendDecommitments := appendDecommitments1;
             hash := hash1;
             hashes := set (hashes st) (writeIndex st) (Some h) |};
        newHashes := set (newHashes ns) (writeIndex st) (Some h') |}.

(** The loop body of [getNewRootBooleans] for a position that is not
    skipped: [appendHash] and [newAppendHash] are read first. *)
Definition combine_newBooleans (flag : bool) (ns : new_state)
  : outcome new_state :=
  let st := base ns in
  let nextReadIndex := rem (plus (readIndex st) 1) leafCount in
  let appendHash :=
    if flag then read leafs st nextReadIndex
    else get decommitments (decommitmentIndex st) in
  let newAppendHash :=
    if flag then readNew ns nextReadIndex
    else get decommitments (decommitmentIndex st) in
  let rightMost := num_eqb (readIndexOfAppendNode st) (readIndex st) in
  if rightMost && odd (appendNodeIndex st) then
    let cursor := appendDecommitmentIndex st - 1 in
    h <- hashFunction appendHash (hash st) ;;
    pair_new flag ns rightMost (Some h) cursor
      (set (appendDecommitments st) (Num cursor) newAppendHash)
  else
    pair_new flag ns rightMost (hash st) (appendDecommitmentIndex st)
      (appendDecommitments st).

(** The same part of [getNewRootBits]: the two hashes are read inside
    [if (appendNodeIndex & 1)]. *)
Definition combine_newBits (flag : bool) (ns : new_state)
  : outcome new_state :=
  let st := base ns in
  let rightMost := num_eqb (readIndexOfAppendNode st) (readIndex st) in
  if rightMost then
    if odd (appendNodeIndex st) then
      let nextReadIndex := rem (plus (readIndex st) 1) leafCount in
      let appendHash :=
        if flag then read leafs st nextReadIndex
        else get decommitments (decommitmentIndex st) in
      let newAppendHash :=
        if flag then readNew ns nextReadIndex
        else get decommitments (decommitmentIndex st) in
      let cursor := appendDecommitmentIndex st - 1 in
      h <- hashFunction appendHash (hash st) ;;
      pair_new flag ns true (Some h) cursor
        (set (appendDecommitments st) (Num cursor) newAppendHash)
    else
      pair_new flag ns true (hash st) (appendDecommitmentIndex st)
        (appendDecommitments st)
  else
    pair_new flag ns false (hash st) (appendDecommitmentIndex st)
      (appendDecommitments st).

Fixpoint loopNewBooleans (flags skips : list bool) (n : nat) (i : Z)
    (ns : new_state) : outcome new_state :=
  match n with
  | O => Ok ns
  | S n' =>
      ns' <- (if truthy skips i then Ok (skip_new ns)
              else combine_newBooleans (truthy flags i) ns) ;;
      loopNewBooleans flags skips n' (i + 1) ns'
  end.

Fixpoint loopNewBits (flags skips : val) (fuel : nat) (bitCheck : Z)
    (ns : new_state) : outcome new_state :=
  match fuel with
  | O => OutOfFuel
  | S fuel' =>
      flag <- bit_set flags bitCheck ;;
      skip <- bit_set skips bitCheck ;;
      if skip then
        if flag then Ok ns
        else loopNewBits flags skips fuel' (leftShift bitCheck 1) (skip_new ns)
      else
        ns' <- combine_newBits flag ns ;;
        loopNewBits flags skips fuel' (leftShift bitCheck 1) ns'
  end.

(** The statements between the first loop and the append pass:
    [rootIndex], [oldRoot], [newRoot], the cross-check, and
    [if (appendDecommitmentIndex === 1) appendDecommitments[0] =
    newRoot]. *)
Definition checkNew (ns : new_state) : outcome checked :=
  let st := base ns in
  let rootIndex := rootIndex leafs st in
  let oldRoot :=
    if useLeafs st then get leafs 0 else hashes st rootIndex in
  let newRoot :=
    if useLeafs st then get updateLeafs 0 else newHashes ns rootIndex in
  _ <- crossCheck (appendDecommitmentIndex st) (hash st) oldRoot ;;
  Ok {| oldRoot := oldRoot;
        updatedRoot := newRoot;
        newAppendDecommitments :=
          if appendDecommitmentIndex st =? 1
          then set (appendDecommitments st) (Num 0) newRoot
          else appendDecommitments st;
        stack := newHashes ns |}.

(** *** The append pass *)

Record append_state : Type := mkAppendState {
  a_newHashes : array Buffer;
  a_cursor : Z;
  a_upperBound : Z;
  a_writeIndex : Z;
  a_readIndex : Z;
  a_offset : Z;
  a_index : Z
}.

(** [useLeafs ? appendLeafs[i] : newHashes[i]] *)
Definition readAppend (fromLeafs : bool) (a : array Buffer) (i : Z) : val :=
  if fromLeafs then get appendLeafs i else a (Num i).

(** [while (upperBound > 0)], for at most [fuel] rounds.  [halve] is
    the operator applied to [upperBound]: [>>>=] in
    [getNewRootBooleans], [>>=] in [getNewRootBits]. *)
Fixpoint appendLoop (halve : Z -> Z -> Z) (appendDecommitments : array Buffer)
    (fuel : nat) (s : append_state) : outcome (array Buffer) :=
  if a_upperBound s >? 0 then
    match fuel with
    | O => OutOfFuel
    | S fuel' =>
        let fromLeafs := a_offset s >=? elementCount in
        s1 <-
          (if (a_writeIndex s =? 0) && odd (a_index s) then
             h <- hashFunction (appendDecommitments (Num (a_cursor s)))
                    (readAppend fromLeafs (a_newHashes s) (a_readIndex s)) ;;
             Ok {| a_newHashes :=
                     set (a_newHashes s) (Num (a_writeIndex s)) (Some h);
                   a_cursor := a_cursor s - 1;
                   a_upperBound := a_upperBound s;
                   a_writeIndex := a_writeIndex s + 1;
                   a_readIndex := a_readIndex s + 1;
                   a_offset := a_offset s;
                   a_index := a_index s + 1 |}
           else if a_index s <? a_upperBound s then
             h <- hashFunction
                    (readAppend fromLeafs (a_newHashes s) (a_readIndex s))
                    (readAppend fromLeafs (a_newHashes s) (a_readIndex s + 1)) ;;
             Ok {| a_newHashes :=
                     set (a_newHashes s) (Num (a_writeIndex s)) (Some h);
                   a_cursor := a_cursor s;
                   a_upperBound := a_upperBound s;
                   a_writeIndex := a_writeIndex s + 1;
                   a_readIndex := a_readIndex s + 2;
                   a_offset := a_offset s;
                   a_index := a_index s + 2 |}
           else Ok s) ;;
        let s2 :=
          if a_index s1 >=? a_upperBound s1 then
            {| a_newHashes :=
                 if a_index s1 =? a_upperBound s1
                 then set (a_newHashes s1) (Num (a_writeIndex s1))
                        (readAppend fromLeafs (a_newHashes s1) (a_readIndex s1))
                 else a_newHashes s1;
               a_cursor := a_cursor s1;
               a_upperBound := halve (a_upperBound s1) 1;
               a_writeIndex := 0;
               a_readIndex := 0;
               a_offset := ushr32 (a_offset s1) 1;
               a_index := ushr32 (a_offset s1) 1 |}
          else s1 in
        appendLoop halve appendDecommitments fuel' s2
    end
  else Ok (a_newHashes s).

(** The number of rounds the append pass is followed for; a run that has
    not ended by then is [OutOfFuel].  A round moves [index] towards
    [upperBound] or halves [upperBound]; for a non-negative
    [elementCount] with [elementCount + appendLeafs.length] below [2^31]
    these rounds are enough (see [appendPass_total]). *)
Definition appendFuel : nat :=
  2 * List.length appendLeafs + 200.

Definition appendPass (halve : Z -> Z -> Z) (c : checked)
  : outcome (array Buffer) :=
  appendLoop halve (newAppendDecommitments c) appendFuel
    {| a_newHashes := stack c;
       a_cursor := bitCount32 elementCount - 1;
       a_upperBound := elementCount + Z.of_nat (List.length appendLeafs) - 1;
       a_writeIndex := 0;
       a_readIndex := 0;
       a_offset := elementCount;
       a_index := elementCount |}.

End Update.

(** The first loop of [getNewRootBooleans] with the statements up to the
    append pass. *)
Definition traverseNewBooleans (leafs updateLeafs appendLeafs : list Buffer)
    (elementCount : Z) (flags skips : list bool)
    (decommitments : list Buffer) : outcome checked :=
  ns <- initNew leafs appendLeafs elementCount ;;
  ns' <- loopNewBooleans leafs updateLeafs decommitments flags skips
           (List.length flags) 0 ns ;;
  checkNew leafs updateLeafs ns'.

Definition getNewRootBooleans (leafs updateLeafs appendLeafs : list Buffer)
    (elementCount : Z) (flags skips : list bool)
    (decommitments : list Buffer) : outcome roots :=
  c <- traverseNewBooleans leafs updateLeafs appendLeafs elementCount
         flags skips decommitments ;;
  final <- appendPass appendLeafs elementCount ushr32 c ;;
  r <- buffer_from (oldRoot c) ;;
  Ok {| root := r; newRoot := final (Num 0) |}.

(** The first loop of [getNewRootBits], which leaves through the
    position with both bits set; [hash = oldRoot] there.  The 257 rounds
    are those of [traverseBits]: enough on flag and skip words of at most
    32 bytes, and on a longer word the loop does not end. *)
Definition traverseNewBits (leafs updateLeafs appendLeafs : list Buffer)
    (elementCount : Z) (proof : list Buffer) : outcome checked :=
  let flags := get proof 0 in
  let skips := get proof 1 in
  let decommitments := skipn 2 proof in
  ns <- initNew leafs appendLeafs elementCount ;;
  ns' <- loopNewBits leafs updateLeafs decommitments flags skips 257 1 ns ;;
  checkNew leafs updateLeafs ns'.

Definition getNewRootBits (leafs updateLeafs appendLeafs : list Buffer)
    (elementCount : Z) (proof : list Buffer) : outcome roots :=
  c <- traverseNewBits leafs updateLeafs appendLeafs elementCount proof ;;
  let hash := oldRoot c in
  final <- appendPass appendLeafs elementCount shr32 c ;;
  r <- buffer_from hash ;;
  Ok {| root := r; newRoot := final (Num 0) |}.

End WithHashFunction.

End CombinedProof.

(* ===================================================================== *)
(** * Vocabulary of the statements *)
(* ===================================================================== *)

Module Spec.

Import Utils MultiProof CombinedProof.

(** [all_below P n start]: [P] holds on the [n] integers from [start] on. *)
Fixpoint all_below (P : Z -> bool) (n : nat) (start : Z) : bool :=
  match n with
  | O => true
  | S n' => P start && all_below P n' (start + 1)
  end.

(** ** Bits *)

(** The number of bits set among the lowest [bits] bits of [x]. *)
Fixpoint popcount (bits : nat) (x : Z) : Z :=
  match bits with
  | O => 0
  | S bits' => Z.b2z (Z.odd x) + popcount bits' (x / 2)
  end.

(** [n] with its lowest set bit cleared. *)
Definition clearLowestSetBit (n : Z) : Z := Z.land n (n - 1).

(** The big-endian encoding of [n] on [len] bytes. *)
Fixpoint encode_be (len : nat) (n : Z) : Buffer :=
  match len with
  | O => []
  | S len' => encode_be len' (n / 256) ++ [n mod 256]
  end.

(** ** Balanced trees *)

(** [indices[i - 1] > indices[i]] all along the list, [prev] being the entry
    before it. *)
Fixpoint descending (prev : option Z) (l : list Z) : bool :=
  match l with
  | [] => true
  | x :: rest =>
      match prev with None => true | Some p => x <? p end
      && descending (Some x) rest
  end.

(** [tree[i]] is [hashNode(tree[2i], tree[2i+1])]. *)
Definition node_ok (keccak256 : Buffer -> Buffer) (tree : list Buffer) (i : Z)
  : bool :=
  match get tree i, get tree (2 * i), get tree (2 * i + 1) with
  | Some x, Some l, Some r => buffer_eqb x (keccak256 (l ++ r))
  | _, _, _ => false
  end.

(** A balanced tree array of depth [depth]: [2 * 2^depth] entries, the
    mixed root at index 0, the root at index 1, every internal node the
    hash of its two children.  A JavaScript array has fewer than [2^32]
    entries, so [depth] is at most 30. *)
Definition wellFormed (keccak256 : Buffer -> Buffer) (tree : list Buffer)
    (depth : Z) : bool :=
  (0 <=? depth) && (depth <=? 30)
  && (Z.of_nat (List.length tree) =? 2 * 2 ^ depth)
  && match validateMixedRoot keccak256 (get tree 0) (get tree 1) (2 ^ depth) with
     | Ok true => true
     | _ => false
     end
  && all_below (node_ok keccak256 tree) (Z.to_nat (2 ^ depth - 1)) 1.

(** [rounds k q d q' d']: [k] rounds of the loop of [verifyMultiProof], none
    of which returns or throws, lead from the queue [q] and the
    decommitments [d] to [q'] and [d']. *)
Inductive rounds (keccak256 : Buffer -> Buffer) (root : val) :
  nat -> list (num * val) -> list val -> list (num * val) -> list val -> Prop :=
| rounds_O q d : rounds keccak256 root O q d q d
| rounds_S k q d q1 d1 q' d' :
    verify_round keccak256 root q d = Ok (inr (q1, d1)) ->
    rounds keccak256 root k q1 d1 q' d' ->
    rounds keccak256 root (S k) q d q' d'.

(** ** The two encodings of flags and skips *)

(** [w] is a 32-byte word whose bits [0 .. n-1] are the booleans of [l] and
    whose bit [n] is set, [n] being the length of [l]. *)
Definition packs (l : list bool) (w : Buffer) : bool :=
  (Z.of_nat (List.length w) =? 32)
  && forallb (fun x => (0 <=? x) && (x <? 256)) w
  && all_below (fun i => Bool.eqb (Z.testbit (word w) i) (truthy l i))
       (List.length l) 0
  && Z.testbit (word w) (Z.of_nat (List.length l)).

(** No position carries both the skip and the flag. *)
Definition no_early_end (flags skips : list bool) : bool :=
  all_below (fun i => negb (truthy flags i && truthy skips i))
    (List.length flags) 0.

(** A flag or skip word that the bit test can meet: absent, or of at most
    32 bytes. *)
Definition short_word (w : val) : bool :=
  match w with
  | Some b => Z.of_nat (List.length b) <=? 32
  | None => true
  end.

(** [x >>> 1], [k] times: [appendNodeIndex] after the append node has
    passed [k] levels. *)
Fixpoint shifted (k : nat) (x : Z) : Z :=
  match k with
  | O => x
  | S k' => ushr32 (shifted k' x) 1
  end.

(** [skips] cut or padded with [false] to [n] entries. *)
Definition fit (n : nat) (skips : list bool) : list bool :=
  firstn n skips ++ repeat false (n - List.length skips).

(** The entries of [updateLeafs] an update can read: those below
    [leafs.length], and the first one in any case. *)
Definition kept (leafs updateLeafs : list Buffer) : list Buffer :=
  firstn (Nat.max 1 (List.length leafs)) updateLeafs.

(** ** The append cursor *)

(** The cursor into [appendDecommitments] is the bit count of what is left
    of [appendNodeIndex]. *)
Definition counted (st : state) : Prop :=
  appendDecommitmentIndex st = bitCount32 (appendNodeIndex st).

(** The state of the update traversal that goes with [st] when the
    replacement leaves are the original ones. *)
Definition mirror (st : state) : new_state :=
  {| base := st; newHashes := hashes st |}.

End Spec.

(* ===================================================================== *)
(** * Auxiliary definitions of the proofs *)
(* ===================================================================== *)

Module Aux.

Import Utils MultiProof CombinedProof Spec.

(** ** Hexadecimal strings *)

(** [n] written with exactly [len] hexadecimal digits. *)
Fixpoint hex_be (len : nat) (n : Z) : string :=
  match len with
  | O => EmptyString
  | S len' =>
      (hex_be len' (n / 16) ++ String (hex_char (n mod 16)) EmptyString)%string
  end.

Fixpoint zeros (k : nat) : string :=
  match k with
  | O => EmptyString
  | S k' => String "0"%char (zeros k')
  end.

(** ** The three masking rounds of [bitCount32] on a 16-bit half *)

Definition pairs16 (x : Z) : Z := x - Z.land (Z.shiftr x 1) 0x5555.
Definition nibbles16 (y : Z) : Z :=
  Z.land y 0x3333 + Z.land (Z.shiftr y 2) 0x3333.
Definition bytes16 (z : Z) : Z := Z.land (z + Z.shiftr z 4) 0x0f0f.

(** What the rounds do to one half: no field overflows, a carry of at most
    4 from the half above is masked away, and the two bytes left add up to
    the number of bits of the half. *)
Definition half_ok (x : Z) : bool :=
  let y := pairs16 x in
  let z := nibbles16 y in
  let w := bytes16 z in
  (0 <=? y) && (y <? 65536) && (0 <=? z) && (z <? 65536) && (z mod 16 <=? 4)
  && forallb (fun c => (z + Z.shiftr z 4 + c * 4096 <? 65536)
                       && (Z.land (z + Z.shiftr z 4 + c * 4096) 0x0f0f =? w))
       [0; 1; 2; 3; 4]
  && (0 <=? w) && (w <? 65536) && (w mod 256 + w / 256 =? popcount 16 x).

(** ** Generation and verification on a balanced tree *)

(** [known] after the first loop of [generateMultiProof], for the leaf
    count [n]. *)
Definition marks (n : Z) (known : known_map) (l : list Z) : known_map :=
  fold_left (fun k idx => mark k (n + idx) true) l known.

Definition member (n : Z) (l : list Z) : known_map :=
  fun j => existsb (fun idx => j =? n + idx) l.

(** The decommitments pushed for the parent [i], by the final [known]. *)
Definition dec (tree : list Buffer) (K : known_map) (i : Z) : list val :=
  (if K (2 * i) && negb (K (2 * i + 1)) then [get tree (2 * i + 1)] else [])
  ++ (if K (2 * i + 1) && negb (K (2 * i)) then [get tree (2 * i)] else []).

Fixpoint decs_from (tree : list Buffer) (K : known_map) (m : nat) : list val :=
  match m with
  | O => []
  | S m' => dec tree K (Z.of_nat m) ++ decs_from tree K m'
  end.

Definition entry (tree : list Buffer) (K : known_map) (j : Z)
  : list (num * val) :=
  if K j then [(Num j, get tree j)] else [].

(** The known nodes among the [len] indices from [hi] downwards. *)
Fixpoint known_desc (tree : list Buffer) (K : known_map) (len : nat) (hi : Z)
  : list (num * val) :=
  match len with
  | O => []
  | S len' => entry tree K hi ++ known_desc tree K len' (hi - 1)
  end.

(** The queue of the verifier once every parent above [t] has been
    rebuilt. *)
Definition queue_at (tree : list Buffer) (K : known_map) (t : nat)
  : list (num * val) :=
  known_desc tree K (S t) (2 * Z.of_nat t + 1).

(** ** The rounds of the append pass *)

(** The number of halvings that take a positive [u] to zero. *)
Definition bits (u : Z) : Z := if u <=? 0 then 0 else Z.log2 u + 1.

(** A bound on the rounds the append pass still runs: what is left of
    this level, what the next levels start with, and two rounds for every
    level. *)
Definition append_measure (s : append_state) : Z :=
  Z.max 0 (a_upperBound s - a_index s)
  + Z.max 0 (a_upperBound s - a_offset s)
  + 2 * bits (a_upperBound s).

(** The bounds of a pass on counts that fit 31 bits. *)
Definition fits (s : append_state) : Prop :=
  0 <= a_offset s < 2 ^ 31 /\ a_upperBound s < 2 ^ 31.

(** ** Read positions *)

(** An index that is [NaN] or below [bound]. *)
Definition below (bound : Z) (i : num) : Prop :=
  match i with
  | NaN => True
  | Num r => r < bound
  end.

End Aux.

(* ===================================================================== *)
(** * Sample data *)
(* ===================================================================== *)

Module Sample.

Import Utils MultiProof CombinedProof Spec.

(** A stand-in for the digest: the input behind its length. *)
Definition digest (b : Buffer) : Buffer := Z.of_nat (List.length b) :: b.

Definition hashFunction : val -> val -> outcome Buffer := hashNode digest.

Definition a : Buffer := [1].
Definition b : Buffer := [2].
Definition d : Buffer := [9].

(** A 32-byte word with the given low byte. *)
Definition word32 (low : Z) : Buffer := repeat 0 31 ++ [low].

(** The balanced tree over four leaves. *)
Definition leaves : list Buffer := [[10]; [11]; [12]; [13]].
Definition left_node : Buffer := digest ([10] ++ [11]).
Definition right_node : Buffer := digest ([12] ++ [13]).
Definition top : Buffer := digest (left_node ++ right_node).
(** The mixed root of a tree with [count] leaves and the root [root]. *)
Definition mixed_for (count : Z) (root : Buffer) : Buffer :=
  match to32ByteBuffer count with
  | Ok encoded => digest (encoded ++ root)
  | _ => []
  end.
Definition mixed : Buffer := mixed_for 4 top.
Definition tree : list Buffer := [mixed; top; left_node; right_node] ++ leaves.

End Sample.

(* ===================================================================== *)
(** * The later utilities *)
(* ===================================================================== *)

(** The version of [src/utils.js] that the combined proofs are written
    against: [bitCount32] with unsigned shifts, [from32ByteBuffer],
    [sortHashNode], [getHashFunction], [findLastIndex],
    [to32ByteBoolBuffer] and [roundUpToPowerOf2].  [leftPad],
    [to32ByteBuffer] and [hashNode] are those of [Utils]. *)
Module Helpers.

Import Utils CombinedProof Spec.

(** [a | b] *)
Definition or32 (a b : Z) : Z := Z.lor (toInt32 a) (toInt32 b).

(** ** [from32ByteBuffer]

    [buffer.readUInt32BE(offset)]: the four bytes from [offset] on, most
    significant first; a [RangeError] when they are not all there. *)
Definition readUInt32BE (buffer : Buffer) (offset : Z) : outcome Z :=
  match get buffer offset, get buffer (offset + 3) with
  | Some first, Some last =>
      match get buffer (offset + 1), get buffer (offset + 2) with
      | Some second, Some third =>
          Ok (first * 2 ^ 24 + second * 2 ^ 16 + third * 2 ^ 8 + last)
      | _, _ => Throw RangeError
      end
  | _, _ => Throw RangeError
  end.

Definition from32ByteBuffer (buffer : val) : outcome Z :=
  match buffer with
  | Some b => readUInt32BE b 28
  | None => Throw TypeError
  end.

(** ** [bitCount32], with [>>>] where [Utils.bitCount32] has [>>]

    Exact where [Utils.bitCount32] is: for [n] up to [2^52] in
    magnitude. *)
Definition bitCount32 (n : Z) : Z :=
  let m := n - and32 (ushr32 n 1) 0x55555555 in
  let m := and32 m 0x33333333 + and32 (ushr32 m 2) 0x33333333 in
  ushr32 (and32 (m + ushr32 m 4) 0xf0f0f0f * 0x1010101) 24.

(** ** [sortHashNode] and [getHashFunction] *)

(** [Buffer.compare(a, b)]: -1, 0 or 1, by the first byte that differs,
    or by the lengths when one buffer starts the other. *)
Fixpoint compare (a b : Buffer) : Z :=
  match a, b with
  | [], [] => 0
  | [], _ :: _ => -1
  | _ :: _, [] => 1
  | x :: a', y :: b' =>
      if x <? y then -1 else if y <? x then 1 else compare a' b'
  end.

(** [[left, right].sort(compareFn)]: the two are swapped when [left]
    comes after [right]. *)
Definition sort2 (compareFn : Buffer -> Buffer -> Z) (left right : Buffer)
  : Buffer * Buffer :=
  if compareFn left right >? 0 then (right, left) else (left, right).

Section Hash.
Variable keccak256 : Buffer -> Buffer.

(** [assert(left && right, ...)]: a buffer is truthy, [undefined] and
    [null] are not. *)
Definition sortHashNode (left right : val) : outcome Buffer :=
  match left, right with
  | Some l, Some r =>
      let '(first, second) := sort2 compare l r in
      Ok (keccak256 (first ++ second))
  | _, _ =>
      Throw (AssertionError "Both buffers must exist to be sorted and hashed.")
  end.

Definition getHashFunction (sortedHash : bool) (left right : val)
  : outcome Buffer :=
  if sortedHash then sortHashNode left right
  else hashNode keccak256 left right.

End Hash.

(** ** [findLastIndex]

    [while (i--)] with [i] starting at [array.length]; the predicate is
    given [array[i]] and [i] (the array itself is the caller's). *)
Fixpoint findLastIndex_loop {A} (array : list A)
    (predicate : option A -> Z -> bool) (i : nat) : Z :=
  match i with
  | O => -1
  | S i' =>
      if predicate (get array (Z.of_nat i')) (Z.of_nat i') then Z.of_nat i'
      else findLastIndex_loop array predicate i'
  end.

Definition findLastIndex {A} (array : list A)
    (predicate : option A -> Z -> bool) : Z :=
  findLastIndex_loop array predicate (List.length array).

(** ** [to32ByteBoolBuffer]

    [or] and [leftShift] are those of the package [bitwise-buffer]; on
    32-byte words they are the bitwise or and the shift of the 256-bit
    big-endian number (see [word] and [leftShift]). *)
Definition or (a b : Buffer) : Buffer :=
  encode_be 32 (Z.lor (word a) (word b)).

Definition leftShiftBuffer (a : Buffer) (n : Z) : Buffer :=
  encode_be 32 (leftShift (word a) n).

(** [booleans.reduce((booleanBuffer, bool, i) => ..., Buffer.alloc(32))];
    [to32ByteBuffer('1')] is [to32ByteBuffer(1)], the string being its
    own [toString(16)]. *)
Fixpoint reduce (booleans : list bool) (i : Z) (booleanBuffer : Buffer)
  : outcome Buffer :=
  match booleans with
  | [] => Ok booleanBuffer
  | bool :: rest =>
      one <- to32ByteBuffer (if bool then 1 else 0) ;;
      reduce rest (i + 1) (or booleanBuffer (leftShiftBuffer one i))
  end.

Definition to32ByteBoolBuffer (booleans : list bool) : outcome val :=
  if Z.of_nat (List.length booleans) <? 257 then
    b <- reduce booleans 0 (repeat 0 32) ;; Ok (Some b)
  else Ok None.

(** ** [roundUpToPowerOf2] *)
Definition roundUpToPowerOf2 (number : Z) : Z :=
  if bitCount32 number =? 1 then number
  else
    let number := or32 number (ushr32 number 1) in
    let number := or32 number (ushr32 number 2) in
    let number := or32 number (ushr32 number 4) in
    let number := or32 number (ushr32 number 8) in
    let number := or32 number (ushr32 number 16) in
    number + 1.

End Helpers.

(* ===================================================================== *)
(** * Further vocabulary *)
(* ===================================================================== *)

Module Notions.

Import Utils MultiProof CombinedProof Spec.

(** ** Bits *)

(** Bit [i] of [x] is set exactly when one of the [m] bits of [n] from
    [i] on is. *)
Definition spread (n m x : Z) : Prop :=
  forall i, 0 <= i ->
    (Z.testbit x i = true <->
     exists j, 0 <= j < m /\ Z.testbit n (i + j) = true).

(** ** Strings *)

(** [k] times the character [c]. *)
Fixpoint padding (c : ascii) (k : nat) : string :=
  match k with
  | O => EmptyString
  | S k' => String c (padding c k')
  end.

(** ** The verifier's queue *)

(** The branches of the loop of [verifyMultiProof] that take a
    decommitment: the entry is not the root, and it is an even node, or
    an odd one whose left neighbour is not next in the queue. *)
Definition needs_decommitment (index : num) (queue : list (num * val))
  : bool :=
  negb (num_eqb index (Num 1))
  && (num_eqb (rem index 2) (Num 0)
      || match queue with
         | (index0, _) :: _ => negb (num_eqb index0 (plus index (-1)))
         | [] => true
         end).

(** ** Paths *)

(** The other child of the parent of node [j]. *)
Definition sibling (j : Z) : Z := if Z.even j then j + 1 else j - 1.

(** The siblings met on the way up from node [j], for [levels] levels. *)
Fixpoint path (tree : list Buffer) (levels : nat) (j : Z) : list val :=
  match levels with
  | O => []
  | S levels' => get tree (sibling j) :: path tree levels' (j / 2)
  end.

(** ** The proof of all elements *)

(** The leaves of a tree array with [n] leaves, the last one first. *)
Definition leaves_down (tree : list Buffer) (n : Z) : list Buffer :=
  rev (skipn (Z.to_nat n) tree).

(** The state of [getRootBooleans] after [t] rounds on all the leaves of
    a balanced tree with [n] leaves, every round flagged: the queue has
    been read up to position [2t], the hashes written are the nodes
    [n-1], [n-2], ... of the tree, nothing has been recorded for the
    append proof, and [appendNodeIndex] is the number of nodes left on
    the level when a level starts. *)
Definition full_inv (tree : list Buffer) (n t : Z) (st : state) : Prop :=
  readIndex st = Num (if 2 * t <? n then 2 * t else 2 * t - n)
  /\ writeIndex st = Num t
  /\ useLeafs st = (2 * t <? n)
  /\ (exists e, 0 <= e /\ appendNodeIndex st = 2 ^ e /\ 2 ^ e <= n)
  /\ ((appendNodeIndex st = n - t
       /\ readIndexOfAppendNode st = readIndex st)
      \/ (n - 2 * appendNodeIndex st < t < n - appendNodeIndex st
          /\ 2 * appendNodeIndex st <= n
          /\ readIndexOfAppendNode st = Num (n - 2 * appendNodeIndex st)))
  /\ appendDecommitmentIndex st = 1
  /\ hash st = None
  /\ forall j, 0 <= j < t -> hashes st (Num j) = get tree (n - 1 - j).

(** The traversal state of the updated side: the state of the old side
    with [newHashes] in the place of [hashes]. *)
Definition updated (ns : new_state) : state :=
  {| readIndex := readIndex (base ns);
     writeIndex := writeIndex (base ns);
     decommitmentIndex := decommitmentIndex (base ns);
     useLeafs := useLeafs (base ns);
     appendNodeIndex := appendNodeIndex (base ns);
     readIndexOfAppendNode := readIndexOfAppendNode (base ns);
     appendDecommitmentIndex := appendDecommitmentIndex (base ns);
     appendDecommitments := appendDecommitments (base ns);
     hash := hash (base ns);
     hashes := newHashes ns |}.

(** ** Proofs by booleans *)

(** The positions among the [n] from [i] on that are neither skipped nor
    flagged: those at which the loop takes a decommitment. *)
Fixpoint taken (flags skips : list bool) (n : nat) (i : Z) : Z :=
  match n with
  | O => 0
  | S n' =>
      (if truthy skips i || truthy flags i then 0 else 1)
      + taken flags skips n' (i + 1)
  end.

End Notions.

(** The sample tree after all four leaves have been replaced. *)
Module Replaced.

Import Utils MultiProof CombinedProof Spec.

Definition leaves : list Buffer := [[20]; [21]; [22]; [23]].
Definition left_node : Buffer := Sample.digest ([20] ++ [21]).
Definition right_node : Buffer := Sample.digest ([22] ++ [23]).
Definition top : Buffer := Sample.digest (left_node ++ right_node).
Definition tree : list Buffer :=
  [Sample.mixed_for 4 top; top; left_node; right_node] ++ leaves.

End Replaced.

(* ===================================================================== *)
(** * Properties of the bit operations *)
(* ===================================================================== *)
Module BitFacts.

Lemma toInt32_small x : - 2 ^ 31 <= x < 2 ^ 31 -> toInt32 x = x.
Proof. unfold toInt32. intros H. rewrite Z.mod_small; lia. Qed.

Lemma toInt32_range x : - 2 ^ 31 <= toInt32 x < 2 ^ 31.
Proof. unfold toInt32. pose proof (Z.mod_pos_bound (x + 2 ^ 31) (2 ^ 32)). lia. Qed.

Lemma toInt32_congr x y : x mod 2 ^ 32 = y mod 2 ^ 32 -> toInt32 x = toInt32 y.
Proof.
  unfold toInt32. intros H.
  rewrite <- (Zplus_mod_idemp_l x), H, Zplus_mod_idemp_l. reflexivity.
Qed.

Lemma toInt32_mod x : toInt32 (x mod 2 ^ 32) = toInt32 x.
Proof. apply toInt32_congr. apply Z.mod_mod. lia. Qed.

Lemma toInt32_eqm x : toInt32 x mod 2 ^ 32 = x mod 2 ^ 32.
Proof.
  unfold toInt32. rewrite Zminus_mod_idemp_l. f_equal. lia.
Qed.

Lemma toInt32_testbit x i : 0 <= i < 32 -> Z.testbit (toInt32 x) i = Z.testbit x i.
Proof.
  intros Hi.
  rewrite <- (Z.mod_pow2_bits_low (toInt32 x) 32 i) by lia.
  rewrite toInt32_eqm. apply Z.mod_pow2_bits_low. lia.
Qed.

(** Masking with a non-negative 31-bit constant *)
Lemma land_mask_bits a b m :
  0 <= m < 2 ^ 31 ->
  (forall i, 0 <= i < 31 -> Z.testbit a i = Z.testbit b i) ->
  Z.land a m = Z.land b m.
Proof.
  intros Hm H. apply Z.bits_inj'. intros i Hi.
  rewrite !Z.land_spec.
  destruct (Z_lt_dec i 31) as [Hlt|Hge].
  - rewrite H by lia. reflexivity.
  - assert (Z.testbit m i = false) as ->.
    { destruct (Z.eq_dec m 0) as [->|Hne]; [apply Z.bits_0|].
      apply Z.bits_above_log2; [lia|].
      assert (Z.log2 m < 31) by (apply Z.log2_lt_pow2; lia). lia. }
    rewrite !andb_false_r. reflexivity.
Qed.

Lemma and32_mask a m : 0 <= m < 2 ^ 31 -> and32 a m = Z.land (a mod 2 ^ 32) m.
Proof.
  intros Hm. unfold and32. rewrite (toInt32_small m) by lia.
  apply land_mask_bits; [lia|]. intros i Hi.
  rewrite toInt32_testbit by lia. rewrite Z.mod_pow2_bits_low by lia. reflexivity.
Qed.

Lemma and32_shr32_mask a s m :
  0 <= s < 32 -> 0 <= m < 2 ^ (32 - s) -> m < 2 ^ 31 ->
  and32 (shr32 a s) m = Z.land (Z.shiftr (a mod 2 ^ 32) s) m.
Proof.
  intros Hs Hm Hm'. unfold and32, shr32.
  rewrite (Z.mod_small s 32) by lia.
  rewrite (toInt32_small m) by lia.
  apply Z.bits_inj'. intros i Hi.
  rewrite !Z.land_spec.
  destruct (Z_lt_dec i (32 - s)) as [Hlt|Hge].
  - rewrite toInt32_testbit by lia. rewrite !Z.shiftr_spec by lia.
    rewrite toInt32_testbit by lia. rewrite Z.mod_pow2_bits_low by lia. reflexivity.
  - assert (Z.testbit m i = false) as ->.
    { destruct (Z.eq_dec m 0) as [->|Hne]; [apply Z.bits_0|].
      apply Z.bits_above_log2; [lia|].
      assert (Z.log2 m < 32 - s) by (apply Z.log2_lt_pow2; lia). lia. }
    rewrite !andb_false_r. reflexivity.
Qed.

(** Halving by a shift. *)
Lemma ushr32_half u : 0 <= u < 2 ^ 32 -> ushr32 u 1 = u / 2.
Proof.
  intros Hu. unfold ushr32, toUint32. rewrite Z.mod_small by lia.
  change (1 mod 32) with 1. rewrite Z.shiftr_div_pow2 by lia. reflexivity.
Qed.

Lemma shr32_half u : 0 <= u < 2 ^ 31 -> shr32 u 1 = u / 2.
Proof.
  intros Hu. unfold shr32. rewrite toInt32_small by lia.
  change (1 mod 32) with 1. rewrite Z.shiftr_div_pow2 by lia. reflexivity.
Qed.

End BitFacts.

(* ===================================================================== *)
(** * [bitCount32] counts the bits *)
(* ===================================================================== *)

Module BitCount.

Import Utils Spec Aux BitFacts.

Lemma all_below_spec (P : Z -> bool) n :
  forall start, all_below P n start = true ->
  forall x, start <= x < start + Z.of_nat n -> P x = true.
Proof.
  induction n as [|n IH]; intros start H x Hx; [lia|].
  cbn [all_below] in H. apply andb_true_iff in H as [H0 H1].
  destruct (Z.eq_dec x start) as [->|Hne]; [assumption|].
  apply (IH (start + 1)); [assumption|lia].
Qed.

Lemma half_ok_all : all_below half_ok (Z.to_nat 65536) 0 = true.
Proof. vm_compute. reflexivity. Qed.

Lemma byte_sum wl wh pl ph :
  0 <= wl < 65536 -> 0 <= wh < 65536 ->
  wl mod 256 + wl / 256 = pl -> wh mod 256 + wh / 256 = ph ->
  0 <= pl <= 16 -> 0 <= ph <= 16 ->
  shr32 ((wh * 2 ^ 16 + wl) * 0x1010101) 24 = pl + ph.
Proof.
  intros Hwl Hwh El Eh Hpl Hph.
  unfold shr32. change (24 mod 32) with 24.
  rewrite Z.shiftr_div_pow2 by lia.
  set (b0 := wl mod 256) in *. set (b1 := wl / 256) in *.
  set (b2 := wh mod 256) in *. set (b3 := wh / 256) in *.
  assert (Hb0 : 0 <= b0 < 256) by (apply Z.mod_pos_bound; lia).
  assert (Hb2 : 0 <= b2 < 256) by (apply Z.mod_pos_bound; lia).
  assert (Hb1 : 0 <= b1) by (apply Z.div_pos; lia).
  assert (Hb3 : 0 <= b3) by (apply Z.div_pos; lia).
  assert (Ewl : wl = 256 * b1 + b0) by (apply Z.div_mod; lia).
  assert (Ewh : wh = 256 * b3 + b2) by (apply Z.div_mod; lia).
  set (low := b0 + 256 * (b0 + b1) + 65536 * (b0 + b1 + b2)).
  set (k := b1 + b2 + b3 + 256 * (b2 + b3) + 65536 * b3).
  assert (Ep : (wh * 2 ^ 16 + wl) * 0x1010101
               = k * 2 ^ 32 + ((pl + ph) * 2 ^ 24 + low)).
  { subst low k. rewrite Ewl, Ewh. lia. }
  rewrite Ep.
  assert (E32 : toInt32 (k * 2 ^ 32 + ((pl + ph) * 2 ^ 24 + low))
                = (pl + ph) * 2 ^ 24 + low).
  { rewrite <- (toInt32_small ((pl + ph) * 2 ^ 24 + low)) at 2 by (subst low; lia).
    apply toInt32_congr. rewrite Z.add_comm, Z.mod_add by lia. reflexivity. }
  rewrite E32.
  rewrite Z.add_comm, Z.div_add by lia.
  rewrite Z.div_small by (subst low; lia). lia.
Qed.

Lemma testbit_split hi lo i :
  0 <= lo < 2 ^ 16 -> 0 <= i ->
  Z.testbit (hi * 2 ^ 16 + lo) i =
  if i <? 16 then Z.testbit lo i else Z.testbit hi (i - 16).
Proof.
  intros Hlo Hi. destruct (Z.ltb_spec i 16).
  - rewrite <- (Z.mod_pow2_bits_low _ 16) by lia.
    f_equal. rewrite Z.add_comm, Z.mod_add by lia. apply Z.mod_small; lia.
  - replace i with ((i - 16) + 16) at 1 by lia.
    rewrite <- Z.div_pow2_bits by lia.
    f_equal. rewrite Z.add_comm, Z.div_add by lia.
    rewrite Z.div_small by lia. reflexivity.
Qed.

Lemma land_below a m n : 0 <= a < 2 ^ n -> 0 <= n -> 0 <= Z.land a m < 2 ^ n.
Proof.
  intros Ha Hn. split; [apply Z.land_nonneg; lia|].
  assert (Z.land a m = Z.land (Z.land a m) (Z.ones n)) as ->.
  { rewrite <- Z.land_assoc, (Z.land_comm m), Z.land_assoc.
    rewrite (Z.land_ones a) by lia. rewrite Z.mod_small by lia. reflexivity. }
  rewrite Z.land_ones by lia. apply Z.mod_pos_bound. lia.
Qed.

Lemma mask_high_bits m n i : 0 <= m < 2 ^ n -> n <= i -> Z.testbit m i = false.
Proof.
  intros Hm Hi.
  destruct (Z.eq_dec m 0) as [->|Hne]; [apply Z.bits_0|].
  apply Z.bits_above_log2; [lia|].
  assert (0 <= n) by (destruct (Z_lt_dec n 0); [rewrite Z.pow_neg_r in Hm; lia|lia]).
  assert (Z.log2 m < n) by (apply Z.log2_lt_pow2; lia). lia.
Qed.

(** Masking a shifted word, half by half: the bits that cross the middle
    are masked out. *)
Lemma shiftr_land_split hi lo mh ml s :
  0 <= lo < 2 ^ 16 -> 0 <= hi -> 0 <= s <= 16 -> 0 <= ml < 2 ^ (16 - s) ->
  Z.land (Z.shiftr (hi * 2 ^ 16 + lo) s) (mh * 2 ^ 16 + ml) =
  Z.land (Z.shiftr hi s) mh * 2 ^ 16 + Z.land (Z.shiftr lo s) ml.
Proof.
  intros Hlo Hhi Hs Hml.
  assert (2 ^ (16 - s) <= 2 ^ 16) by (apply Z.pow_le_mono_r; lia).
  assert (0 <= Z.land (Z.shiftr lo s) ml < 2 ^ 16).
  { rewrite Z.land_comm. apply land_below; lia. }
  apply Z.bits_inj'. intros i Hi.
  rewrite Z.land_spec, Z.shiftr_spec by lia.
  rewrite !testbit_split by lia.
  destruct (Z.ltb_spec i 16) as [Hlt|Hge].
  - rewrite Z.land_spec, Z.shiftr_spec by lia.
    destruct (Z.ltb_spec (i + s) 16) as [Hlt'|Hge']; [reflexivity|].
    rewrite (mask_high_bits ml (16 - s) i) by lia.
    rewrite !andb_false_r. reflexivity.
  - destruct (Z.ltb_spec (i + s) 16); [lia|].
    rewrite Z.land_spec, Z.shiftr_spec by lia.
    do 2 f_equal. lia.
Qed.

Lemma split16 u : 0 <= u -> u = u / 2 ^ 16 * 2 ^ 16 + u mod 2 ^ 16.
Proof. intros. pose proof (Z.div_mod u (2 ^ 16)). lia. Qed.

Lemma popcount_mod n : forall x, popcount n (x mod 2 ^ Z.of_nat n) = popcount n x.
Proof.
  induction n as [|n IH]; intros x; [reflexivity|].
  cbn [popcount]. f_equal.
  - f_equal. rewrite <- !Z.bit0_odd. apply Z.mod_pow2_bits_low. lia.
  - rewrite <- (IH (x / 2)). f_equal.
    rewrite Nat2Z.inj_succ, Z.pow_succ_r by lia.
    rewrite Z.rem_mul_r by lia.
    rewrite (Z.mul_comm 2 (_ mod _)), Z.div_add by lia.
    rewrite (Z.div_small (x mod 2)) by (apply Z.mod_pos_bound; lia).
    reflexivity.
Qed.

Lemma popcount_app n m : forall x,
  popcount (n + m) x = popcount n x + popcount m (x / 2 ^ Z.of_nat n).
Proof.
  induction n as [|n IH]; intros x.
  - cbn. rewrite Z.div_1_r. reflexivity.
  - cbn [popcount Nat.add]. rewrite IH.
    rewrite Nat2Z.inj_succ, Z.pow_succ_r by lia.
    rewrite Z.div_div by lia. lia.
Qed.

Lemma popcount_bounds n : forall x, 0 <= popcount n x <= Z.of_nat n.
Proof.
  induction n as [|n IH]; intros x; [cbn; lia|].
  cbn [popcount]. specialize (IH (x / 2)).
  destruct (Z.odd x); cbn [Z.b2z]; lia.
Qed.

Lemma half_facts x : 0 <= x < 65536 -> half_ok x = true.
Proof.
  intros Hx. apply (all_below_spec half_ok (Z.to_nat 65536) 0 half_ok_all). lia.
Qed.

Theorem bitCount32_unsigned u :
  0 <= u < 2 ^ 32 -> bitCount32 u = popcount 32 u.
Proof.
  intros Hu.
  set (hi := u / 2 ^ 16). set (lo := u mod 2 ^ 16).
  assert (Hhi : 0 <= hi < 65536).
  { subst hi. split; [apply Z.div_pos; lia|apply Z.div_lt_upper_bound; lia]. }
  assert (Hlo : 0 <= lo < 65536) by (subst lo; apply Z.mod_pos_bound; lia).
  assert (Eu : u = hi * 2 ^ 16 + lo) by (apply split16; lia).
  pose proof (half_facts hi Hhi) as Fh. pose proof (half_facts lo Hlo) as Fl.
  unfold half_ok in Fh, Fl. cbn [forallb] in Fh, Fl.
  rewrite !andb_true_iff in Fh, Fl.
  repeat match goal with H : _ /\ _ |- _ => destruct H end.
  repeat match goal with
         | H : (_ <=? _) = true |- _ => apply Z.leb_le in H
         | H : (_ <? _) = true |- _ => apply Z.ltb_lt in H
         | H : (_ =? _) = true |- _ => apply Z.eqb_eq in H
         | H : true = true |- _ => clear H
         end.
  set (yh := pairs16 hi) in *. set (yl := pairs16 lo) in *.
  set (zh := nibbles16 yh) in *. set (zl := nibbles16 yl) in *.
  set (wh := bytes16 zh) in *. set (wl := bytes16 zl) in *.
  (* first round *)
  assert (E1 : u - and32 (shr32 u 1) 0x55555555 = yh * 2 ^ 16 + yl).
  { rewrite and32_shr32_mask by lia. rewrite Z.mod_small by lia.
    rewrite Eu at 2.
    change 0x55555555 with (0x5555 * 2 ^ 16 + 0x5555).
    rewrite shiftr_land_split by lia.
    subst yh yl. unfold pairs16. lia. }
  unfold bitCount32. rewrite E1.
  set (m1 := yh * 2 ^ 16 + yl).
  assert (Hm1 : 0 <= m1 < 2 ^ 32) by (subst m1; lia).
  (* second round *)
  assert (E2 : and32 m1 0x33333333 + and32 (shr32 m1 2) 0x33333333
               = zh * 2 ^ 16 + zl).
  { rewrite and32_shr32_mask by lia. rewrite and32_mask by lia.
    rewrite Z.mod_small by lia.
    rewrite <- (Z.shiftr_0_r m1) at 1.
    subst m1.
    change 0x33333333 with (0x3333 * 2 ^ 16 + 0x3333).
    rewrite !shiftr_land_split by lia.
    rewrite !Z.shiftr_0_r.
    subst zh zl. unfold nibbles16. lia. }
  rewrite E2.
  set (m2 := zh * 2 ^ 16 + zl).
  assert (Hzh : 0 <= zh < 2 ^ 15).
  { subst zh. unfold nibbles16.
    pose proof (land_below 0x3333 yh 14 ltac:(lia) ltac:(lia)).
    pose proof (land_below 0x3333 (Z.shiftr yh 2) 14 ltac:(lia) ltac:(lia)).
    rewrite (Z.land_comm yh), (Z.land_comm (Z.shiftr yh 2)). lia. }
  assert (Hm2 : 0 <= m2 < 2 ^ 31) by (subst m2; lia).
  (* third round *)
  assert (E3 : and32 (m2 + shr32 m2 4) 0xf0f0f0f = wh * 2 ^ 16 + wl).
  { unfold shr32. rewrite toInt32_small by lia.
    change (4 mod 32) with 4.
    assert (Ex : m2 + Z.shiftr m2 4 =
                 (zh + Z.shiftr zh 4) * 2 ^ 16
                 + (zl + Z.shiftr zl 4 + zh mod 16 * 4096)).
    { rewrite !Z.shiftr_div_pow2 by lia. subst m2.
      change (2 ^ 4) with 16. change (2 ^ 16) with 65536.
      Z.div_mod_to_equations. lia. }
    assert (Hc : 0 <= zh mod 16 <= 4) by (pose proof (Z.mod_pos_bound zh 16); lia).
    assert (Hl : zl + Z.shiftr zl 4 + zh mod 16 * 4096 < 65536
                 /\ Z.land (zl + Z.shiftr zl 4 + zh mod 16 * 4096) 0x0f0f = wl).
    { assert (zh mod 16 = 0 \/ zh mod 16 = 1 \/ zh mod 16 = 2
              \/ zh mod 16 = 3 \/ zh mod 16 = 4) as [E|[E|[E|[E|E]]]] by lia;
        rewrite E; split; assumption. }
    destruct Hl as [Hl1 Hl2].
    assert (0 <= Z.shiftr zl 4) by (apply Z.shiftr_nonneg; lia).
    assert (0 <= Z.shiftr zh 4) by (apply Z.shiftr_nonneg; lia).
    assert (Z.shiftr zh 4 <= zh).
    { rewrite Z.shiftr_div_pow2 by lia. apply Z.div_le_upper_bound; lia. }
    rewrite and32_mask by lia.
    rewrite Z.mod_small by lia.
    rewrite Ex.
    rewrite <- (Z.shiftr_0_r (_ + _)).
    change 0xf0f0f0f with (0x0f0f * 2 ^ 16 + 0x0f0f).
    rewrite shiftr_land_split by lia.
    rewrite !Z.shiftr_0_r. rewrite Hl2. reflexivity. }
  rewrite E3.
  (* the multiplication adds the four bytes *)
  pose proof (popcount_bounds 16 lo) as Pl.
  pose proof (popcount_bounds 16 hi) as Ph.
  change (Z.of_nat 16) with 16 in Pl, Ph.
  assert (Epc : popcount 32 u = popcount 16 lo + popcount 16 hi).
  { change 32%nat with (16 + 16)%nat. rewrite popcount_app.
    rewrite <- (popcount_mod 16 u). reflexivity. }
  rewrite Epc.
  apply byte_sum; lia.
Qed.

Lemma bitCount32_wrap a : bitCount32 a = bitCount32 (a mod 2 ^ 32).
Proof.
  unfold bitCount32.
  rewrite !and32_shr32_mask, !and32_mask by lia.
  rewrite Z.mod_mod by lia.
  rewrite (Zminus_mod_idemp_l a). reflexivity.
Qed.

Theorem bitCount32_popcount a : bitCount32 a = popcount 32 (a mod 2 ^ 32).
Proof.
  rewrite bitCount32_wrap. apply bitCount32_unsigned.
  apply Z.mod_pos_bound. lia.
Qed.

Lemma odd_spec a : CombinedProof.odd a = Z.odd (a mod 2 ^ 32).
Proof.
  unfold CombinedProof.odd. rewrite and32_mask by lia.
  change 1 with (Z.ones 1) at 1. rewrite Z.land_ones by lia.
  change (2 ^ 1) with 2. rewrite Zmod_odd.
  destruct (Z.odd (a mod 2 ^ 32)); reflexivity.
Qed.

Lemma bitCount32_ushr a :
  bitCount32 (ushr32 a 1) =
  bitCount32 a - (if CombinedProof.odd a then 1 else 0).
Proof.
  rewrite odd_spec, (bitCount32_popcount a).
  unfold ushr32, toUint32. change (1 mod 32) with 1.
  rewrite Z.shiftr_div_pow2 by lia. change (2 ^ 1) with 2.
  set (u := a mod 2 ^ 32).
  assert (Hu : 0 <= u < 2 ^ 32) by (apply Z.mod_pos_bound; lia).
  assert (Hh : 0 <= u / 2 < 2 ^ 31).
  { split; [apply Z.div_pos; lia|apply Z.div_lt_upper_bound; lia]. }
  rewrite bitCount32_unsigned by lia.
  change (popcount 32 u) with (Z.b2z (Z.odd u) + popcount 31 (u / 2)).
  change 32%nat with (31 + 1)%nat. rewrite popcount_app.
  change (Z.of_nat 31) with 31. rewrite (Z.div_small (u / 2)) by lia.
  change (popcount 1 0) with 0.
  destruct (Z.odd u); cbn [Z.b2z]; lia.
Qed.

(** Powers of two are even, and halve to powers of two. *)
Lemma odd_pow2 e : 1 <= e < 32 -> CombinedProof.odd (2 ^ e) = false.
Proof.
  intros He. rewrite odd_spec.
  assert (2 ^ e < 2 ^ 32) by (apply Z.pow_lt_mono_r; lia).
  assert (0 < 2 ^ e) by (apply Z.pow_pos_nonneg; lia).
  rewrite Z.mod_small by lia.
  replace e with (Z.succ (e - 1)) by lia. rewrite Z.pow_succ_r by lia.
  rewrite Z.odd_mul. reflexivity.
Qed.

Lemma ushr32_pow2 e : 1 <= e < 32 -> ushr32 (2 ^ e) 1 = 2 ^ (e - 1).
Proof.
  intros He.
  assert (2 ^ e < 2 ^ 32) by (apply Z.pow_lt_mono_r; lia).
  assert (0 < 2 ^ e) by (apply Z.pow_pos_nonneg; lia).
  unfold ushr32, toUint32. rewrite Z.mod_small by lia.
  change (1 mod 32) with 1. rewrite Z.shiftr_div_pow2 by lia.
  replace e with (Z.succ (e - 1)) at 1 by lia. rewrite Z.pow_succ_r by lia.
  rewrite Z.mul_comm, Z.div_mul by lia. reflexivity.
Qed.

(** X1: for every integer [n] up to [2^52] in magnitude, where the
    source computes exactly, [bitCount32(n)] is the number of bits set
    among the low 32 bits of [n] (of its two's complement when [n] is
    negative or does not fit 32 bits), a number between 0 and 32. *)
Theorem bitCount32_counts_set_bits n :
  - 2 ^ 52 <= n <= 2 ^ 52 ->
  bitCount32 n = popcount 32 (n mod 2 ^ 32) /\ 0 <= bitCount32 n <= 32.
Proof.
  intros _. rewrite bitCount32_popcount. split; [reflexivity|].
  exact (popcount_bounds 32 (n mod 2 ^ 32)).
Qed.

Lemma bitCount32_counts_set_bits_witness :
  - 2 ^ 52 <= -5 <= 2 ^ 52
  /\ bitCount32 (-5) = popcount 32 (-5 mod 2 ^ 32)
  /\ 0 <= bitCount32 (-5) <= 32.
Proof.
  assert (H : - 2 ^ 52 <= -5 <= 2 ^ 52) by (split; discriminate).
  split; [exact H|]. exact (bitCount32_counts_set_bits (-5) H).
Defined.

End BitCount.

(* ===================================================================== *)
(** * [getMinimumIndex] *)
(* ===================================================================== *)

Module MinimumIndex.

Import Utils CombinedProof Spec BitFacts.

Lemma toInt32_ex x : exists q, toInt32 x = x + q * 2 ^ 32.
Proof.
  exists (- ((x + 2 ^ 31) / 2 ^ 32)). unfold toInt32.
  pose proof (Z.div_mod (x + 2 ^ 31) (2 ^ 32)). lia.
Qed.

Lemma land_bit0 a b (r s : bool) :
  Z.land (2 * a + Z.b2z r) (2 * b + Z.b2z s) = 2 * Z.land a b + Z.b2z (r && s).
Proof.
  apply Z.bits_inj'. intros i Hi. rewrite Z.land_spec.
  destruct (Z.eq_dec i 0) as [->|Hne].
  - rewrite !Z.testbit_0_r. reflexivity.
  - replace i with (Z.succ (i - 1)) by lia.
    rewrite !Z.testbit_succ_r by lia. symmetry. apply Z.land_spec.
Qed.

Lemma odd_decomp x : x = 2 * (x / 2) + Z.b2z (Z.odd x).
Proof.
  pose proof (Zmod_odd x) as Hm. pose proof (Z.div_mod x 2 ltac:(lia)) as Hx.
  destruct (Z.odd x); cbn [Z.b2z]; lia.
Qed.

Lemma clear_odd x : Z.odd x = true -> clearLowestSetBit x = x - 1.
Proof.
  intros Ho. unfold clearLowestSetBit.
  pose proof (odd_decomp x) as E. rewrite Ho in E.
  replace (x - 1) with (2 * (x / 2) + Z.b2z false)
    by (cbn [Z.b2z] in *; lia).
  rewrite E at 1.
  rewrite land_bit0, Z.land_diag. cbn [andb Z.b2z]. lia.
Qed.

Lemma clear_even x :
  Z.odd x = false -> clearLowestSetBit x = 2 * clearLowestSetBit (x / 2).
Proof.
  intros Ho. unfold clearLowestSetBit.
  pose proof (odd_decomp x) as E. rewrite Ho in E.
  replace (x - 1) with (2 * (x / 2 - 1) + Z.b2z true)
    by (cbn [Z.b2z] in *; lia).
  rewrite E at 1.
  rewrite land_bit0. cbn [andb Z.b2z]. lia.
Qed.

Lemma clear_bounds x : 0 < x -> 0 <= clearLowestSetBit x < x.
Proof.
  intros Hx. unfold clearLowestSetBit. split; [apply Z.land_nonneg; lia|].
  assert (Z.land x (x - 1) <= x - 1); [|lia].
  assert (E : Z.ldiff (Z.land x (x - 1)) (x - 1) = 0).
  { apply Z.bits_inj'. intros i Hi.
    rewrite Z.ldiff_spec, Z.land_spec, Z.bits_0.
    destruct (Z.testbit x i), (Z.testbit (x - 1) i); reflexivity. }
  apply Z.sub_nocarry_ldiff in E.
  assert (0 <= Z.ldiff (x - 1) (Z.land x (x - 1))) by (apply Z.ldiff_nonneg; lia).
  lia.
Qed.

Lemma and32_low_bit x : negb (and32 x 1 =? 0) = Z.odd (x mod 2 ^ 32).
Proof.
  rewrite and32_mask by lia.
  change 1 with (Z.ones 1) at 1. rewrite Z.land_ones by lia.
  change (2 ^ 1) with 2. rewrite Zmod_odd.
  destruct (Z.odd (x mod 2 ^ 32)); reflexivity.
Qed.

Lemma shl32_clear x k :
  0 <= k < 32 -> Z.odd x = true ->
  shl32 (and32 x 0xfffffffe) k = toInt32 ((x - 1) * 2 ^ k).
Proof.
  intros Hk Ho. unfold shl32, and32.
  rewrite (Z.mod_small k) by lia.
  change (toInt32 0xfffffffe) with (-2).
  apply toInt32_congr. rewrite Z.shiftl_mul_pow2 by lia.
  destruct (toInt32_ex x) as [q Hq].
  destruct (toInt32_ex (Z.land (toInt32 x) (-2))) as [q' Hq'].
  rewrite Hq'.
  assert (Ho' : Z.odd (toInt32 x) = true).
  { rewrite Hq, Z.add_comm.
    replace (q * 2 ^ 32) with (2 * (q * 2 ^ 31)) by lia.
    rewrite Z.add_comm, Z.odd_add_mul_2. assumption. }
  assert (El : Z.land (toInt32 x) (-2) = x - 1 + q * 2 ^ 32).
  { pose proof (odd_decomp (toInt32 x)) as E. rewrite Ho' in E.
    rewrite E at 1.
    change (-2) with (2 * (-1) + Z.b2z false).
    rewrite land_bit0, Z.land_m1_r. cbn [andb Z.b2z] in *. lia. }
  rewrite El.
  replace ((x - 1 + q * 2 ^ 32 + q' * 2 ^ 32) * 2 ^ k)
    with ((x - 1) * 2 ^ k + ((q + q') * 2 ^ k) * 2 ^ 32) by ring.
  apply Z.mod_add. lia.
Qed.

Lemma getMinimumIndex_loop_spec n :
  forall k x,
    Z.of_nat n + k = 32 -> 0 <= k -> 0 < x < 2 ^ Z.of_nat n ->
    getMinimumIndex_loop n k x = Some (toInt32 (clearLowestSetBit x * 2 ^ k)).
Proof.
  induction n as [|n IH]; intros k x Hn Hk Hx; [cbn in Hx; lia|].
  cbn [getMinimumIndex_loop].
  assert (Hx32 : 0 < x < 2 ^ 32).
  { split; [lia|]. apply Z.lt_le_trans with (2 ^ Z.of_nat (S n)); [lia|].
    apply Z.pow_le_mono_r; lia. }
  rewrite and32_low_bit, Z.mod_small by lia.
  destruct (Z.odd x) eqn:Ho; cbn [negb].
  - rewrite shl32_clear by (try assumption; lia).
    rewrite clear_odd by assumption. reflexivity.
  - unfold ushr32, toUint32. rewrite Z.mod_small by lia.
    change (1 mod 32) with 1. rewrite Z.shiftr_div_pow2 by lia.
    change (2 ^ 1) with 2.
    pose proof (Zmod_odd x) as Hm. rewrite Ho in Hm.
    pose proof (Z.div_mod x 2 ltac:(lia)) as Hd.
    rewrite IH.
    + rewrite (clear_even x Ho). do 2 f_equal.
      rewrite Z.pow_add_r by lia. ring.
    + lia.
    + lia.
    + rewrite Nat2Z.inj_succ, Z.pow_succ_r in Hx by lia. lia.
Qed.

(** C6 (amended): for every [elementCount] with [1 <= elementCount < 2^32],
    [getMinimumIndex(elementCount)] returns [elementCount] with its lowest
    set bit cleared, wrapped to a signed 32-bit integer, and this value is
    strictly less than [elementCount]; up to [2^31] nothing wraps, so the
    result is [elementCount] with its lowest set bit cleared, between 0 and
    [elementCount - 1]; and [getMinimumIndex(0b1011)] is [0b1010]. *)
Theorem getMinimumIndex_clears_lowest_bit elementCount :
  1 <= elementCount < 2 ^ 32 ->
  getMinimumIndex elementCount
    = Some (toInt32 (clearLowestSetBit elementCount))
  /\ toInt32 (clearLowestSetBit elementCount) < elementCount
  /\ (elementCount <= 2 ^ 31 ->
      getMinimumIndex elementCount = Some (clearLowestSetBit elementCount)
      /\ 0 <= clearLowestSetBit elementCount < elementCount)
  /\ getMinimumIndex 11 = Some 10.
Proof.
  intros H. unfold getMinimumIndex.
  rewrite (getMinimumIndex_loop_spec 32 0 elementCount) by (cbn; lia).
  rewrite Z.pow_0_r, Z.mul_1_r.
  pose proof (clear_bounds elementCount ltac:(lia)) as Hb.
  split; [reflexivity|]. split; [|split].
  - pose proof (toInt32_range (clearLowestSetBit elementCount)).
    destruct (Z_lt_dec (clearLowestSetBit elementCount) (2 ^ 31)).
    + rewrite toInt32_small by lia. lia.
    + lia.
  - intros Hle. rewrite toInt32_small by lia. split; [reflexivity|lia].
  - vm_compute. reflexivity.
Qed.

Lemma getMinimumIndex_clears_lowest_bit_witness :
  1 <= 12 < 2 ^ 32
  /\ getMinimumIndex 12 = Some 8.
Proof.
  split; [lia|].
  exact (proj1 (proj1 (proj2 (proj2
           (getMinimumIndex_clears_lowest_bit 12 ltac:(lia)))) ltac:(lia))).
Defined.

(** [getMinimumIndex(0)] falls out of the loop and is [undefined]; above
    [2^31] the result is negative, not the count with its lowest bit
    cleared. *)
Lemma getMinimumIndex_counterexample :
  getMinimumIndex 0 = None
  /\ getMinimumIndex (2 ^ 31 + 1) = Some (- 2 ^ 31)
  /\ clearLowestSetBit (2 ^ 31 + 1) = 2 ^ 31.
Proof. repeat split; vm_compute; reflexivity. Qed.

End MinimumIndex.

(* ===================================================================== *)
(** * [to32ByteBuffer] *)
(* ===================================================================== *)

Module Encode32.

Import Utils Spec Aux.

Lemma append_assoc (a b c : string) : ((a ++ b) ++ c = a ++ (b ++ c))%string.
Proof. induction a as [|x a IH]; cbn; [reflexivity|rewrite IH; reflexivity]. Qed.

Lemma append_nil_r (a : string) : (a ++ "")%string = a.
Proof. induction a as [|x a IH]; cbn; [reflexivity|rewrite IH; reflexivity]. Qed.

Lemma length_append (a b : string) :
  String.length (a ++ b) = (String.length a + String.length b)%nat.
Proof. induction a as [|x a IH]; cbn; [reflexivity|rewrite IH; reflexivity]. Qed.

Lemma length_hex_be len : forall n, String.length (hex_be len n) = len.
Proof.
  induction len as [|len IH]; intros n; [reflexivity|].
  cbn [hex_be]. rewrite length_append, IH. cbn. lia.
Qed.

Lemma zeros_snoc k : (zeros k ++ String "0"%char EmptyString = zeros (S k))%string.
Proof. induction k as [|k IH]; cbn in *; [reflexivity|rewrite IH; reflexivity]. Qed.

Lemma hex_be_zero len : hex_be len 0 = zeros len.
Proof.
  induction len as [|len IH]; [reflexivity|].
  cbn [hex_be]. change (0 / 16) with 0. rewrite IH.
  change (hex_char (0 mod 16)) with "0"%char. apply zeros_snoc.
Qed.

Lemma zeros_app k d : (zeros (k + d) = zeros k ++ zeros d)%string.
Proof. induction k as [|k IH]; cbn; [reflexivity|rewrite IH; reflexivity]. Qed.

(** Leading zeros: more digits than needed only pad on the left. *)
Lemma hex_be_pad k d : forall n,
  0 <= n < 16 ^ Z.of_nat d -> hex_be (k + d) n = (zeros k ++ hex_be d n)%string.
Proof.
  induction d as [|d IH]; intros n Hn.
  - assert (n = 0) by (cbn in Hn; lia). subst n.
    rewrite !hex_be_zero. rewrite zeros_app. reflexivity.
  - replace (k + S d)%nat with (S (k + d)) by lia.
    cbn [hex_be]. rewrite IH, append_assoc; [reflexivity|].
    rewrite Nat2Z.inj_succ, Z.pow_succ_r in Hn by lia.
    split; [apply Z.div_pos; lia|apply Z.div_lt_upper_bound; lia].
Qed.

Lemma hex_digits_spec fuel : forall n acc,
  0 <= n < 16 ^ Z.of_nat (S fuel) ->
  exists d, (1 <= d <= S fuel)%nat
    /\ 0 <= n < 16 ^ Z.of_nat d
    /\ (d = 1%nat \/ 16 ^ (Z.of_nat d - 1) <= n)
    /\ hex_digits (S fuel) n acc = (hex_be d n ++ acc)%string.
Proof.
  induction fuel as [|fuel IH]; intros n acc Hn.
  - exists 1%nat. cbn [hex_digits hex_be].
    change (16 ^ Z.of_nat 1) with 16 in *.
    rewrite Z.div_small by lia. cbn [Z.eqb append].
    repeat split; try lia. 
  - cbn [hex_digits]. destruct (Z.eqb_spec (n / 16) 0) as [E|E].
    + exists 1%nat. cbn [hex_be append].
      change (16 ^ Z.of_nat 1) with 16.
      assert (n < 16).
      { pose proof (Z.div_mod n 16 ltac:(lia)). pose proof (Z.mod_pos_bound n 16). lia. }
      repeat split; try lia.
    + rewrite Nat2Z.inj_succ, Z.pow_succ_r in Hn by lia.
      assert (Hq : 0 <= n / 16 < 16 ^ Z.of_nat (S fuel)).
      { split; [apply Z.div_pos; lia|apply Z.div_lt_upper_bound; lia]. }
      destruct (IH (n / 16) (String (hex_char (n mod 16)) acc) Hq)
        as (d & Hd & Hlt & Hge & Heq).
      exists (S d). rewrite Nat2Z.inj_succ, Z.pow_succ_r by lia.
      pose proof (Z.div_mod n 16 ltac:(lia)). pose proof (Z.mod_pos_bound n 16).
      repeat split; try lia.
      * right. replace (Z.succ (Z.of_nat d) - 1) with (Z.succ (Z.of_nat d - 1)) by lia.
        rewrite Z.pow_succ_r by lia.
        destruct Hge as [->|Hge]; [cbn; lia|lia].
      * change (hex_digits (S fuel) (n / 16) (String (hex_char (n mod 16)) acc)
                = (hex_be (S d) n ++ acc)%string).
        rewrite Heq. cbn [hex_be]. rewrite append_assoc. reflexivity.
Qed.

Lemma leftPad_loop_zeros k : forall fuel s,
  (String.length s + k = 64)%nat -> (k <= fuel)%nat ->
  leftPad_loop fuel s 64 "0" = Ok (zeros k ++ s)%string.
Proof.
  induction k as [|k IH]; intros fuel s Hl Hf.
  - destruct fuel; cbn [leftPad_loop]; 
      (destruct (Z.ltb_spec (Z.of_nat (String.length s)) 64); [lia|reflexivity]).
  - destruct fuel as [|fuel]; [lia|]. cbn [leftPad_loop].
    destruct (Z.ltb_spec (Z.of_nat (String.length s)) 64); [|lia].
    rewrite IH by (cbn; lia).
    f_equal. rewrite <- zeros_snoc, append_assoc. reflexivity.
Qed.

Lemma hex_value_char d : 0 <= d < 16 -> hex_value (hex_char d) = Some d.
Proof.
  intros H.
  assert (d = 0 \/ d = 1 \/ d = 2 \/ d = 3 \/ d = 4 \/ d = 5 \/ d = 6 \/ d = 7
          \/ d = 8 \/ d = 9 \/ d = 10 \/ d = 11 \/ d = 12 \/ d = 13 \/ d = 14
          \/ d = 15) as E by lia.
  repeat (destruct E as [->|E]; [reflexivity|]). subst d. reflexivity.
Qed.

Lemma bufferFromHex_hex_be k : forall n t,
  0 <= n ->
  bufferFromHex (hex_be (2 * k) n ++ t) = encode_be k n ++ bufferFromHex t.
Proof.
  induction k as [|k IH]; intros n t Hn; [reflexivity|].
  replace (2 * S k)%nat with (S (S (2 * k))) by lia.
  cbn [hex_be encode_be]. rewrite !append_assoc. cbn [append].
  rewrite Z.div_div by lia. change (16 * 16) with 256.
  rewrite IH by (apply Z.div_pos; lia).
  rewrite <- app_assoc. f_equal. cbn [bufferFromHex].
  rewrite !hex_value_char by (apply Z.mod_pos_bound; lia).
  cbn [app]. f_equal. 
  pose proof (Z.div_mod n 16 ltac:(lia)). pose proof (Z.mod_pos_bound n 16 ltac:(lia)).
  pose proof (Z.div_mod (n / 16) 16 ltac:(lia)).
  pose proof (Z.mod_pos_bound (n / 16) 16 ltac:(lia)).
  pose proof (Z.div_mod n 256 ltac:(lia)). pose proof (Z.mod_pos_bound n 256 ltac:(lia)).
  pose proof (Z.div_div n 16 16 ltac:(lia) ltac:(lia)). 
  change (16 * 16) with 256 in *. lia.
Qed.

Lemma to32ByteBuffer_in_range n :
  0 <= n < 2 ^ 256 -> to32ByteBuffer n = Ok (encode_be 32 n).
Proof.
  intros Hn. unfold to32ByteBuffer, toString16, leftPad.
  destruct (Z.ltb_spec n 0) as [|_]; [lia|].
  set (fuel := Z.to_nat (Z.log2 n)).
  assert (Hf : 0 <= n < 16 ^ Z.of_nat (S fuel)).
  { split; [lia|]. subst fuel.
    destruct (Z.eq_dec n 0) as [->|Hne]; [cbn; lia|].
    pose proof (Z.log2_spec n ltac:(lia)) as [_ Hlt].
    pose proof (Z.log2_nonneg n).
    rewrite Nat2Z.inj_succ, Z2Nat.id by lia.
    eapply Z.lt_le_trans; [exact Hlt|].
    apply Z.pow_le_mono_l. lia. }
  destruct (hex_digits_spec fuel n EmptyString Hf) as (d & Hd & Hlt & Hge & Heq).
  rewrite Heq.
  assert (Hd64 : (d <= 64)%nat).
  { destruct Hge as [->|Hge]; [lia|].
    destruct (le_lt_dec d 64) as [|Hgt]; [assumption|exfalso].
    assert (16 ^ 64 <= 16 ^ (Z.of_nat d - 1)) by (apply Z.pow_le_mono_r; lia).
    change (2 ^ 256) with (16 ^ 64) in Hn. lia. }
  rewrite append_nil_r.
  rewrite (leftPad_loop_zeros (64 - d)) by (rewrite ?length_hex_be; lia).
  cbn [bind]. f_equal.
  rewrite <- hex_be_pad by assumption.
  replace (64 - d + d)%nat with (2 * 32)%nat by lia.
  pose proof (bufferFromHex_hex_be 32 n EmptyString ltac:(lia)) as B.
  cbn [bufferFromHex] in B. rewrite app_nil_r in B. rewrite <- B.
  f_equal; try (symmetry; apply append_nil_r).
Qed.

Lemma leftPad_returns s : exists s', leftPad s 64 "0" = Ok s'.
Proof.
  unfold leftPad. change (Z.to_nat 64) with 64%nat.
  destruct (le_lt_dec (String.length s) 64) as [Hle|Hgt].
  - eexists. apply (leftPad_loop_zeros (64 - String.length s)); lia.
  - exists s. cbn [leftPad_loop].
    destruct (Z.ltb_spec (Z.of_nat (String.length s)) 64); [lia|reflexivity].
Qed.

Lemma to32ByteBuffer_returns n : exists b, to32ByteBuffer n = Ok b.
Proof.
  unfold to32ByteBuffer.
  destruct (leftPad_returns (toString16 n)) as [s' ->]. cbn [bind]. eauto.
Qed.

(** C8 (amended): [to32ByteBuffer] has no failure path: it returns a buffer
    for every integer [n]; for every [n] with [0 <= n < 2^256] that buffer
    is the 32-byte big-endian encoding of [n]. *)
Theorem to32ByteBuffer_encodes n :
  (exists buffer, to32ByteBuffer n = Ok buffer)
  /\ (0 <= n < 2 ^ 256 -> to32ByteBuffer n = Ok (encode_be 32 n)).
Proof.
  split; [apply to32ByteBuffer_returns|apply to32ByteBuffer_in_range].
Qed.

Lemma to32ByteBuffer_encodes_witness :
  0 <= 258 < 2 ^ 256 /\ to32ByteBuffer 258 = Ok (encode_be 32 258).
Proof.
  split; [lia|]. apply (proj2 (to32ByteBuffer_encodes 258)). lia.
Defined.

(** A negative number gives 31 bytes and [2^256] gives 32 bytes that do not
    encode it; neither call fails. *)
Lemma to32ByteBuffer_counterexample :
  to32ByteBuffer (-1) = Ok (repeat 0 31)
  /\ to32ByteBuffer (2 ^ 256) = Ok (16 :: repeat 0 31).
Proof. split; vm_compute; reflexivity. Qed.

End Encode32.

(* ===================================================================== *)
(** * [verifyMultiProof] *)
(* ===================================================================== *)

Module Verify.

Import Utils MultiProof Spec Encode32.

(** Case analysis on the variables and tests a round branches on. *)
Ltac crunch :=
  unfold bind, shift, hashNode, equals;
  repeat first
    [ progress cbv beta iota
    | match goal with
      | |- context [match ?x with _ => _ end] => is_var x; destruct x
      | |- context [if ?c then _ else _] => destruct c
      end ].

Section VerifyFacts.
Variable keccak256 : Buffer -> Buffer.

Lemma buffer_eqb_refl b : buffer_eqb b b = true.
Proof. induction b as [|x b IH]; cbn; [reflexivity|]. rewrite Z.eqb_refl. exact IH. Qed.

Lemma buffer_eqb_eq a : forall b, buffer_eqb a b = true <-> a = b.
Proof.
  induction a as [|x a IH]; intros [|y b]; cbn; try (split; congruence).
  rewrite andb_true_iff, Z.eqb_eq, IH. split; [intros [-> ->]; reflexivity|].
  intros E; injection E; auto.
Qed.

(** A round that goes on uses up a queue entry or a decommitment. *)
Lemma verify_round_measure root queue decommits queue' decommits' :
  verify_round keccak256 root queue decommits = Ok (inr (queue', decommits')) ->
  (List.length queue' + List.length decommits' < List.length queue + List.length decommits)%nat.
Proof.
  unfold verify_round.
  crunch; try discriminate;
    intros E; injection E; intros; subst;
    repeat (rewrite length_app || cbn [List.length app]); lia.
Qed.

Lemma verify_loop_total root fuel : forall queue decommits,
  (List.length queue + List.length decommits < fuel)%nat ->
  verify_loop keccak256 fuel root queue decommits <> OutOfFuel.
Proof.
  induction fuel as [|fuel IH]; intros queue decommits Hf; [lia|].
  cbn [verify_loop].
  destruct (verify_round keccak256 root queue decommits) as [[b|[q d]]|e|] eqn:E;
    cbn [bind]; try discriminate.
  - apply IH. apply verify_round_measure in E. lia.
  - (* a round never runs out of fuel itself *)
    exfalso. revert E. unfold verify_round. crunch; discriminate.
Qed.

Lemma seed_length leafCount indices values : forall i,
  List.length (seed leafCount indices i values) = List.length values.
Proof. induction values as [|v values IH]; intros i; cbn; [reflexivity|]. rewrite IH. reflexivity. Qed.

(** X2: every call of [verifyMultiProof] returns a boolean or throws: its
    [while (true)] loop ends within [values.length + decommitments.length
    + 1] rounds, each round that goes on using up a queue entry or a
    decommitment. *)
Theorem verifyMultiProof_total mixedRoot root leafCount indices values decommitments :
  verifyMultiProof keccak256 mixedRoot root leafCount indices values decommitments
  <> OutOfFuel.
Proof.
  unfold verifyMultiProof.
  destruct (validateMixedRoot keccak256 mixedRoot root leafCount) as [valid|e|] eqn:E;
    cbn [bind]; try discriminate.
  - destruct valid; cbn [negb]; [|discriminate].
    apply verify_loop_total. rewrite seed_length, length_map. lia.
  - exfalso. revert E. unfold validateMixedRoot.
    destruct (to32ByteBuffer_returns leafCount) as [b ->].
    crunch; discriminate.
Qed.

(** C10: a call to [verifyMultiProof] with an empty [values] list (and
    so with empty [indices] and [values]) whose [mixedRoot], [root] and
    [leafCount] pass the mixed-root check throws the assertion error
    'Something went wrong.', and returns no boolean. *)
Theorem verifyMultiProof_empty mixedRoot root leafCount indices decommitments :
  validateMixedRoot keccak256 mixedRoot root leafCount = Ok true ->
  verifyMultiProof keccak256 mixedRoot root leafCount indices [] decommitments
  = Throw (AssertionError "Something went wrong.").
Proof.
  intros H. unfold verifyMultiProof. rewrite H. reflexivity.
Qed.

Lemma verify_loop_rounds root k : forall q d q' d' fuel,
  rounds keccak256 root k q d q' d' ->
  verify_loop keccak256 (k + fuel) root q d = verify_loop keccak256 fuel root q' d'.
Proof.
  induction k as [|k IH]; intros q d q' d' fuel H; inversion H; subst.
  - reflexivity.
  - cbn [Nat.add verify_loop]. 
    match goal with E : verify_round _ _ _ _ = _ |- _ => rewrite E end.
    cbn [bind]. eapply IH; eassumption.
Qed.

Lemma rounds_measure root k : forall q d q' d',
  rounds keccak256 root k q d q' d' ->
  (k + (List.length q' + List.length d') <= List.length q + List.length d)%nat.
Proof.
  induction k as [|k IH]; intros q d q' d' H; inversion H; subst; [lia|].
  match goal with E : verify_round _ _ _ _ = _ |- _ => apply verify_round_measure in E end.
  match goal with R : rounds _ _ _ _ _ _ _ |- _ => apply IH in R end. lia.
Qed.

(** C9: [verifyMultiProof] returns [false] whenever the mixed-root check
    [validateMixedRoot(mixedRoot, root, leafCount)] returns [false],
    whatever the indices, values and decommitments; and it returns [false]
    whenever the rounds of its loop reach tree index 1 with a value that
    differs from the expected root. *)
Theorem verifyMultiProof_false mixedRoot root leafCount indices values decommitments :
  (validateMixedRoot keccak256 mixedRoot root leafCount = Ok false ->
   verifyMultiProof keccak256 mixedRoot root leafCount indices values decommitments
   = Ok false)
  /\ (forall k value expected queue decommits,
        validateMixedRoot keccak256 mixedRoot root leafCount = Ok true ->
        rounds keccak256 root k (seed leafCount indices 0 values) decommitments
          ((Num 1, Some value) :: queue) decommits ->
        root = Some expected ->
        value <> expected ->
        verifyMultiProof keccak256 mixedRoot root leafCount indices values decommitments
        = Ok false).
Proof.
  split.
  - intros H. unfold verifyMultiProof. rewrite H. reflexivity.
  - intros k value expected queue decommits Hv Hr -> Hne.
    unfold verifyMultiProof. rewrite Hv. cbn [bind negb].
    rewrite map_id.
    pose proof (rounds_measure _ _ _ _ _ _ Hr) as Hm.
    rewrite seed_length in Hm. cbn [List.length] in Hm.
    replace (S (List.length values + List.length decommitments))
      with (k + S (List.length values + List.length decommitments - k))%nat by lia.
    rewrite (verify_loop_rounds _ _ _ _ _ _ _ Hr).
    cbn [verify_loop verify_round num_eqb Z.eqb Pos.eqb equals bind].
    destruct (buffer_eqb value expected) eqn:E; [|reflexivity].
    apply buffer_eqb_eq in E. contradiction.
Qed.
End VerifyFacts.

Import Sample.

Lemma verifyMultiProof_false_witness :
  (validateMixedRoot digest (Some a) (Some top) 4 = Ok false
   /\ verifyMultiProof digest (Some a) (Some top) 4 [2; 0]
        [Some [12]; Some [10]] [Some [13]; Some [11]] = Ok false)
  /\ (validateMixedRoot digest (Some (mixed_for 2 a)) (Some a) 2 = Ok true
      /\ rounds digest (Some a) 1 (seed 2 [1; 0] 0 [Some [11]; Some [10]]) []
           [(Num 1, Some [2; 10; 11])] []
      /\ verifyMultiProof digest (Some (mixed_for 2 a)) (Some a) 2 [1; 0]
           [Some [11]; Some [10]] [] = Ok false).
Proof.
  assert (H1 : validateMixedRoot digest (Some a) (Some top) 4 = Ok false)
    by (vm_compute; reflexivity).
  assert (H2 : validateMixedRoot digest (Some (mixed_for 2 a)) (Some a) 2 = Ok true)
    by (vm_compute; reflexivity).
  assert (H3 : rounds digest (Some a) 1 (seed 2 [1; 0] 0 [Some [11]; Some [10]])
                 [] [(Num 1, Some [2; 10; 11])] []).
  { eapply rounds_S; [vm_compute; reflexivity|apply rounds_O]. }
  split; [split; [exact H1|]|split; [exact H2|split; [exact H3|]]].
  - exact (proj1 (verifyMultiProof_false digest (Some a) (Some top) 4 [2; 0]
                    [Some [12]; Some [10]] [Some [13]; Some [11]]) H1).
  - refine (proj2 (verifyMultiProof_false digest (Some (mixed_for 2 a)) (Some a) 2
                     [1; 0] [Some [11]; Some [10]] [])
              1%nat [2; 10; 11] a [] [] H2 H3 eq_refl _).
    discriminate.
Defined.

Lemma verifyMultiProof_empty_witness :
  validateMixedRoot digest (Some mixed) (Some top) 4 = Ok true
  /\ verifyMultiProof digest (Some mixed) (Some top) 4 [] [] []
     = Throw (AssertionError "Something went wrong.").
Proof.
  assert (H : validateMixedRoot digest (Some mixed) (Some top) 4 = Ok true)
    by (vm_compute; reflexivity).
  split; [exact H|].
  exact (verifyMultiProof_empty digest (Some mixed) (Some top) 4 [] [] H).
Defined.

End Verify.

(* ===================================================================== *)
(** * [generateMultiProof] followed by [verifyMultiProof] *)
(* ===================================================================== *)

Module RoundTrip.

Import Utils MultiProof Spec Aux BitFacts BitCount Verify.

Section RoundTrip.
Variable keccak256 : Buffer -> Buffer.

Variable tree : list Buffer.
Variable depth : Z.
Hypothesis Hwf : wellFormed keccak256 tree depth = true.

Local Abbreviation n := (2 ^ depth).

Lemma wf_depth : 0 <= depth <= 30.
Proof.
  unfold wellFormed in Hwf. rewrite !andb_true_iff in Hwf.
  destruct Hwf as [[[[H1 H2] _] _] _]. lia.
Qed.

Lemma wf_n : 1 <= n <= 2 ^ 30.
Proof.
  pose proof wf_depth. split.
  - pose proof (Z.pow_pos_nonneg 2 depth). lia.
  - apply Z.pow_le_mono_r; lia.
Qed.

Lemma wf_length : Z.of_nat (List.length tree) = 2 * n.
Proof.
  unfold wellFormed in Hwf. rewrite !andb_true_iff in Hwf.
  destruct Hwf as [[[_ H] _] _]. lia.
Qed.

Lemma wf_mixed : validateMixedRoot keccak256 (get tree 0) (get tree 1) n = Ok true.
Proof.
  unfold wellFormed in Hwf. rewrite !andb_true_iff in Hwf.
  destruct Hwf as [[_ H] _].
  destruct (validateMixedRoot keccak256 (get tree 0) (get tree 1) n) as [[|]| |];
    congruence.
Qed.

Lemma get_some i : 0 <= i < 2 * n -> exists b, get tree i = Some b.
Proof.
  intros Hi. unfold get. destruct (Z.ltb_spec i 0); [lia|].
  destruct (nth_error tree (Z.to_nat i)) eqn:E; [eauto|].
  apply nth_error_None in E. pose proof wf_length. lia.
Qed.

Lemma wf_node i l r :
  1 <= i < n -> get tree (2 * i) = Some l -> get tree (2 * i + 1) = Some r ->
  get tree i = Some (keccak256 (l ++ r)).
Proof.
  intros Hi Hl Hr.
  unfold wellFormed in Hwf. rewrite !andb_true_iff in Hwf.
  destruct Hwf as [_ H].
  pose proof (all_below_spec _ _ _ H i ltac:(lia)) as Hn.
  unfold node_ok in Hn. rewrite Hl, Hr in Hn.
  destruct (get tree i) as [x|]; [|discriminate].
  apply buffer_eqb_eq in Hn. congruence.
Qed.

Lemma depth_of_tree : getDepthFromTree tree = depth.
Proof.
  unfold getDepthFromTree. rewrite wf_length.
  pose proof wf_depth.
  rewrite <- Z.pow_succ_r by lia. rewrite Z.log2_pow2 by lia. lia.
Qed.

Lemma shl32_one : shl32 1 depth = n.
Proof.
  pose proof wf_depth. pose proof wf_n. unfold shl32.
  rewrite (Z.mod_small depth) by lia.
  rewrite (toInt32_small 1) by lia.
  rewrite Z.shiftl_1_l. apply toInt32_small. lia.
Qed.

(** *** The first loop *)

Lemma marks_spec l : forall known j,
  marks n known l j = known j || existsb (fun idx => j =? n + idx) l.
Proof.
  induction l as [|x l IH]; intros known j; cbn [marks fold_left existsb].
  - rewrite orb_false_r. reflexivity.
  - fold (marks n (mark known (n + x) true) l). rewrite IH. unfold mark.
    destruct (j =? n + x); cbn; [rewrite ?orb_true_r|]; reflexivity.
Qed.

Lemma collect_spec l : forall prev known values,
  descending prev l = true ->
  collect tree depth prev l known values
  = Ok (marks n known l, values ++ map (fun idx => get tree (n + idx)) l).
Proof.
  induction l as [|x l IH]; intros prev known values Hd; cbn [collect].
  - rewrite app_nil_r. reflexivity.
  - cbn [descending] in Hd. apply andb_true_iff in Hd as [Hp Hd].
    rewrite Hp. cbn [assert bind]. rewrite shl32_one.
    rewrite IH by assumption. cbn [map marks fold_left].
    rewrite <- app_assoc. reflexivity.
Qed.

(** *** The second loop *)

Lemma decommit_above m : forall known decs j,
  Z.of_nat m < j -> fst (decommit tree m known decs) j = known j.
Proof.
  induction m as [|m IH]; intros known decs j Hj; [reflexivity|].
  cbn [decommit]. rewrite IH by lia. unfold mark.
  destruct (Z.eqb_spec j (Z.of_nat (S m))); [lia|reflexivity].
Qed.

Lemma decommit_node m : forall known decs i,
  1 <= i <= Z.of_nat m ->
  let K := fst (decommit tree m known decs) in
  K i = K (2 * i) || K (2 * i + 1).
Proof.
  induction m as [|m IH]; intros known decs i Hi; [lia|].
  cbn [decommit]. cbv zeta.
  destruct (Z.eq_dec i (Z.of_nat (S m))) as [E|E].
  - rewrite !decommit_above by lia. unfold mark.
    rewrite <- E. rewrite Z.eqb_refl.
    destruct (Z.eqb_spec (2 * i) i); [lia|].
    destruct (Z.eqb_spec (2 * i + 1) i); [lia|]. reflexivity.
  - apply IH. lia.
Qed.

Lemma decommit_decs m : forall known decs,
  snd (decommit tree m known decs)
  = decs ++ decs_from tree (fst (decommit tree m known decs)) m.
Proof.
  induction m as [|m IH]; intros known decs.
  - cbn. rewrite app_nil_r. reflexivity.
  - cbn [decommit decs_from]. rewrite IH.
    set (i := Z.of_nat (S m)).
    set (known1 := mark known i _).
    match goal with |- (if ?a then ?x else _) ++ _ = _ => set (d := if a then x else _) end.
    set (K := fst (decommit tree m known1 d)).
    assert (E1 : K (2 * i) = known (2 * i)).
    { subst K. rewrite decommit_above by lia. subst known1. unfold mark.
      destruct (Z.eqb_spec (2 * i) i); [lia|reflexivity]. }
    assert (E2 : K (2 * i + 1) = known (2 * i + 1)).
    { subst K. rewrite decommit_above by lia. subst known1. unfold mark.
      destruct (Z.eqb_spec (2 * i + 1) i); [lia|reflexivity]. }
    unfold dec. rewrite E1, E2. subst d.
    destruct (known (2 * i)), (known (2 * i + 1)); cbn [andb negb];
      rewrite <- ?app_assoc; reflexivity.
Qed.

(** *** The queue of the verifier *)

Lemma known_desc_snoc K len : forall hi,
  known_desc tree K (S len) hi = known_desc tree K len hi ++ entry tree K (hi - Z.of_nat len).
Proof.
  induction len as [|len IH]; intros hi.
  - cbn. rewrite app_nil_r, Z.sub_0_r. reflexivity.
  - cbn [known_desc] in *. rewrite IH. rewrite <- app_assoc.
    do 3 f_equal. lia.
Qed.

Lemma known_desc_head K len : forall hi idx v rest,
  known_desc tree K len hi = (idx, v) :: rest -> exists j, idx = Num j /\ j <= hi.
Proof.
  induction len as [|len IH]; intros hi idx v rest H; [discriminate|].
  cbn [known_desc] in H. unfold entry in H. destruct (K hi).
  - injection H as <- _ _. exists hi. split; [reflexivity|lia].
  - apply IH in H as (j & -> & Hj). exists j. split; [reflexivity|lia].
Qed.

Lemma known_desc_ext K K' len : forall hi,
  (forall j, hi - Z.of_nat len < j <= hi -> K j = K' j) ->
  known_desc tree K len hi = known_desc tree K' len hi.
Proof.
  induction len as [|len IH]; intros hi H; [reflexivity|].
  cbn [known_desc]. unfold entry. rewrite (H hi) by lia.
  rewrite IH; [reflexivity|]. intros j Hj. apply H. lia.
Qed.

Lemma descending_bound l : forall p,
  descending (Some p) l = true -> Forall (fun x => x < p) l.
Proof.
  induction l as [|x l IH]; intros p H; [constructor|].
  cbn [descending] in H. apply andb_true_iff in H as [Hx Hl].
  apply Z.ltb_lt in Hx. constructor; [assumption|].
  apply IH in Hl. eapply Forall_impl; [|exact Hl]. cbn. intros; lia.
Qed.

Lemma descending_weaken l p p' :
  descending (Some p) l = true -> p <= p' -> descending (Some p') l = true.
Proof.
  destruct l as [|x l]; [reflexivity|]. cbn [descending].
  rewrite !andb_true_iff, !Z.ltb_lt. intros [? ?] ?. split; [lia|assumption].
Qed.

(** Leaves taken in descending order are met in the order of the
    queue. *)
Lemma known_desc_leaves len : forall hi l,
  descending (Some (hi + 1 - n)) l = true ->
  Forall (fun idx => hi - Z.of_nat len < n + idx) l ->
  known_desc tree (member n l) len hi
  = map (fun idx => (Num (n + idx), get tree (n + idx))) l.
Proof.
  induction len as [|len IH]; intros hi l Hd Hlo.
  - destruct l as [|x l]; [reflexivity|].
    apply descending_bound in Hd. inversion Hd; subst. inversion Hlo; subst.
    cbn in *. lia.
  - cbn [known_desc]. destruct l as [|x l].
    + unfold entry. cbn. apply (IH (hi - 1) []); [reflexivity|constructor].
    + pose proof (descending_bound _ _ Hd) as Hb. inversion Hb; subst.
      inversion Hlo; subst.
      cbn [descending] in Hd. apply andb_true_iff in Hd as [_ Hd].
      destruct (Z.eq_dec (n + x) hi) as [E|E].
      * unfold entry at 1. unfold member at 1. cbn [existsb].
        rewrite <- E, Z.eqb_refl. cbn [orb app map]. f_equal.
        rewrite (known_desc_ext _ (member n l)).
        -- apply IH.
           ++ eapply descending_weaken; [exact Hd|lia].
           ++ eapply Forall_impl; [|eassumption]. cbn. intros; lia.
        -- intros j Hj. unfold member. cbn [existsb].
           destruct (Z.eqb_spec j (n + x)); [lia|reflexivity].
      * unfold entry at 1.
        assert (member n (x :: l) hi = false) as ->.
        { unfold member. apply not_true_is_false. intros Hm.
          apply existsb_exists in Hm as (y & Hy & Hyy).
          apply Z.eqb_eq in Hyy.
          destruct Hy as [->|Hy]; [lia|].
          apply descending_bound in Hd. rewrite Forall_forall in Hd.
          specialize (Hd y Hy). lia. }
        cbn [app]. apply IH.
        -- cbn [descending]. rewrite Hd, andb_true_r. apply Z.ltb_lt. lia.
        -- eapply Forall_impl; [|exact Hlo]. cbn. intros; lia.
Qed.

Lemma seed_map (g : Z -> val) lc rest : forall pre,
  seed lc (pre ++ rest) (Z.of_nat (List.length pre)) (map g rest)
  = map (fun idx => (Num (lc + idx), g idx)) rest.
Proof.
  induction rest as [|x rest IH]; intros pre; [reflexivity|].
  cbn [map seed].
  assert (get (pre ++ x :: rest) (Z.of_nat (List.length pre)) = Some x) as ->.
  { unfold get. destruct (Z.ltb_spec (Z.of_nat (List.length pre)) 0); [lia|].
    rewrite Nat2Z.id. rewrite nth_error_app2 by lia.
    rewrite Nat.sub_diag. reflexivity. }
  f_equal.
  replace (pre ++ x :: rest) with ((pre ++ [x]) ++ rest)
    by (rewrite <- app_assoc; reflexivity).
  replace (Z.of_nat (List.length pre) + 1)
    with (Z.of_nat (List.length (pre ++ [x])))
    by (rewrite length_app; cbn; lia).
  apply IH.
Qed.

(** *** The rounds of the verifier *)

Lemma half_small z : 0 <= z < 2 ^ 31 -> half (Num z) = Num (z / 2).
Proof.
  intros Hz. unfold half, shr32. rewrite toInt32_small by lia.
  change (1 mod 32) with 1. rewrite Z.shiftr_div_pow2 by lia. reflexivity.
Qed.

Lemma round_pair root i q d l r :
  1 <= i < n -> get tree (2 * i) = Some l -> get tree (2 * i + 1) = Some r ->
  verify_round keccak256 root
    ((Num (2 * i + 1), Some r) :: (Num (2 * i), Some l) :: q) d
  = Ok (inr (q ++ [(Num i, get tree i)], d)).
Proof.
  intros Hi Hl Hr. pose proof wf_n.
  unfold verify_round. cbn [num_eqb rem plus].
  destruct (Z.eqb_spec (2 * i + 1) 1); [lia|].
  change (2 =? 0) with false. cbv iota.
  rewrite Z.rem_mod_nonneg by lia.
  replace ((2 * i + 1) mod 2) with 1
    by (rewrite Z.add_comm, Z.mul_comm, Z.mod_add by lia; reflexivity).
  cbn [num_eqb Z.eqb]. 
  replace (2 * i + 1 + -1) with (2 * i) by lia. rewrite Z.eqb_refl.
  cbn [hashNode bind]. rewrite half_small by lia.
  replace ((2 * i + 1) / 2) with i
    by (rewrite Z.add_comm, Z.mul_comm, Z.div_add by lia; reflexivity).
  rewrite (wf_node i l r) by assumption. reflexivity.
Qed.

Lemma round_right root i q d l r :
  1 <= i < n -> get tree (2 * i) = Some l -> get tree (2 * i + 1) = Some r ->
  (forall idx v rest, q = (idx, v) :: rest -> exists j, idx = Num j /\ j < 2 * i) ->
  verify_round keccak256 root ((Num (2 * i + 1), Some r) :: q) (Some l :: d)
  = Ok (inr (q ++ [(Num i, get tree i)], d)).
Proof.
  intros Hi Hl Hr Hq. pose proof wf_n.
  unfold verify_round. cbn [num_eqb rem plus].
  destruct (Z.eqb_spec (2 * i + 1) 1); [lia|].
  change (2 =? 0) with false. cbv iota.
  rewrite Z.rem_mod_nonneg by lia.
  replace ((2 * i + 1) mod 2) with 1
    by (rewrite Z.add_comm, Z.mul_comm, Z.mod_add by lia; reflexivity).
  cbn [num_eqb Z.eqb].
  rewrite half_small by lia.
  replace ((2 * i + 1) / 2) with i
    by (rewrite Z.add_comm, Z.mul_comm, Z.div_add by lia; reflexivity).
  rewrite (wf_node i l r) by assumption.
  destruct q as [|[idx v] rest]; cbn [shift hashNode bind]; [reflexivity|].
  destruct (Hq idx v rest eq_refl) as (j & -> & Hj). cbn [num_eqb].
  destruct (Z.eqb_spec j (2 * i + 1 + -1)); [lia|]. reflexivity.
Qed.

Lemma round_left root i q d l r :
  1 <= i < n -> get tree (2 * i) = Some l -> get tree (2 * i + 1) = Some r ->
  verify_round keccak256 root ((Num (2 * i), Some l) :: q) (Some r :: d)
  = Ok (inr (q ++ [(Num i, get tree i)], d)).
Proof.
  intros Hi Hl Hr. pose proof wf_n.
  unfold verify_round. cbn [num_eqb rem plus].
  destruct (Z.eqb_spec (2 * i) 1); [lia|].
  change (2 =? 0) with false. cbv iota.
  rewrite Z.rem_mod_nonneg by lia.
  replace ((2 * i) mod 2) with 0
    by (rewrite Z.mul_comm, Z.mod_mul by lia; reflexivity).
  cbn [num_eqb Z.eqb shift hashNode bind].
  rewrite half_small by lia.
  replace (2 * i / 2) with i
    by (rewrite Z.mul_comm, Z.div_mul by lia; reflexivity).
  rewrite (wf_node i l r) by assumption. reflexivity.
Qed.

Section Levels.
Variable K : known_map.
Hypothesis HK : forall i, 1 <= i < n -> K i = K (2 * i) || K (2 * i + 1).

Lemma verify_levels t : forall fuel,
  Z.of_nat t < n ->
  queue_at tree K t <> [] ->
  (List.length (queue_at tree K t) + List.length (decs_from tree K t) < fuel)%nat ->
  verify_loop keccak256 fuel (get tree 1) (queue_at tree K t) (decs_from tree K t)
  = Ok true.
Proof.
  pose proof wf_n as Hn.
  induction t as [|t IH]; intros fuel Ht Hne Hf.
  - unfold queue_at in *. cbn [known_desc Z.of_nat Z.mul Z.add] in *.
    unfold entry in *. destruct (K 1); [|cbn in Hne; congruence].
    destruct fuel as [|fuel]; [cbn in Hf; lia|].
    destruct (get_some 1 ltac:(lia)) as [r Hr]. rewrite Hr.
    cbn. rewrite buffer_eqb_refl. reflexivity.
  - set (i := Z.of_nat (S t)) in *.
    assert (Hi : 1 <= i < n) by lia.
    destruct (get_some (2 * i) ltac:(lia)) as [l Hl].
    destruct (get_some (2 * i + 1) ltac:(lia)) as [r Hr].
    assert (Eq : queue_at tree K (S t)
                 = entry tree K (2 * i + 1) ++ entry tree K (2 * i)
                   ++ known_desc tree K t (2 * i - 1)).
    { unfold queue_at. cbn [known_desc]. fold i.
      replace (2 * i + 1 - 1) with (2 * i) by lia.
      replace (2 * i - 1 - 0) with (2 * i - 1) by lia. reflexivity. }
    assert (Eq' : queue_at tree K t = known_desc tree K t (2 * i - 1) ++ entry tree K i).
    { unfold queue_at. rewrite known_desc_snoc.
      replace (2 * Z.of_nat t + 1) with (2 * i - 1) by (unfold i; lia).
      replace (2 * i - 1 - Z.of_nat t) with i by (unfold i; lia).
      reflexivity. }
    assert (Hhead : forall idx v rest,
               known_desc tree K t (2 * i - 1) = (idx, v) :: rest ->
               exists j, idx = Num j /\ j < 2 * i).
    { intros idx v rest E. apply known_desc_head in E as (j & -> & Hj).
      exists j. split; [reflexivity|lia]. }
    cbn [decs_from] in *. fold i in Hf |- *.
    unfold entry in Eq, Eq'. rewrite (HK i Hi) in Eq'.
    rewrite Eq in Hne, Hf |- *. clear Eq. unfold dec in Hf |- *.
    rewrite Hl, Hr in Hf |- *.
    destruct fuel as [|fuel]; [lia|].
    destruct (K (2 * i + 1)), (K (2 * i));
      cbn [andb negb orb app] in *.
    + cbn [verify_loop]. rewrite (round_pair _ i _ _ l r) by assumption.
      cbn [bind]. specialize (IH fuel ltac:(lia)). rewrite Eq' in IH.
      apply IH.
      * destruct (known_desc tree K t (2 * i - 1)); discriminate.
      * rewrite length_app in *. cbn [List.length] in *. lia.
    + cbn [verify_loop]. rewrite (round_right _ i _ _ l r) by assumption.
      cbn [bind]. specialize (IH fuel ltac:(lia)). rewrite Eq' in IH.
      apply IH.
      * destruct (known_desc tree K t (2 * i - 1)); discriminate.
      * rewrite length_app in *. cbn [List.length] in *. lia.
    + cbn [verify_loop]. rewrite (round_left _ i _ _ l r) by assumption.
      cbn [bind]. specialize (IH fuel ltac:(lia)). rewrite Eq' in IH.
      apply IH.
      * destruct (known_desc tree K t (2 * i - 1)); discriminate.
      * rewrite length_app in *. cbn [List.length] in *. lia.
    + rewrite app_nil_r in Eq'.
      specialize (IH (S fuel) ltac:(lia)). rewrite Eq' in IH.
      apply IH; [assumption|lia].
Qed.
End Levels.

Lemma descending_from l p :
  descending None l = true -> Forall (fun x => x < p) l ->
  descending (Some p) l = true.
Proof.
  destruct l as [|x l]; [reflexivity|]. cbn [descending].
  intros H Hall. inversion Hall; subst.
  apply andb_true_iff in H as [_ H]. rewrite H, andb_true_r.
  apply Z.ltb_lt. assumption.
Qed.

(** C1: for every well-formed balanced tree array and every non-empty,
    strictly descending list of leaf indices below the leaf count,
    [generateMultiProof(tree, indices)] returns a proof, and
    [verifyMultiProof] called on its [mixedRoot], [root], [leafCount],
    [indices], [values] and [decommitments] returns [true]. *)
Theorem generate_then_verify indices :
  indices <> [] ->
  descending None indices = true ->
  Forall (fun idx => 0 <= idx < n) indices ->
  exists p,
    generateMultiProof tree indices = Ok p
    /\ verifyMultiProof keccak256 (mixedRoot p) (root p) (leafCount p)
         (MultiProof.indices p) (values p) (decommitments p) = Ok true.
Proof.
  intros Hne Hdesc Hrange. pose proof wf_n as Hn.
  unfold generateMultiProof. rewrite depth_of_tree, shl32_one.
  unfold new_array.
  destruct (Z.ltb_spec (2 * n) 0); [lia|].
  destruct (Z.leb_spec (2 ^ 32) (2 * n)); [lia|]. cbn [orb bind].
  rewrite collect_spec by assumption. cbn [bind app].
  set (known0 := marks n (fun _ => false) indices).
  set (m := Z.to_nat (n - 1)).
  assert (Hm : Z.of_nat m = n - 1) by (subst m; lia). clearbody m.
  pose proof (decommit_decs m known0 []) as HD.
  pose proof (decommit_above m known0 []) as Habove.
  pose proof (decommit_node m known0 []) as Hnode.
  destruct (decommit tree m known0 []) as [K D]. cbn [fst snd app] in *.
  eexists. split; [reflexivity|]. cbn [mixedRoot root leafCount MultiProof.indices values decommitments].
  unfold verifyMultiProof. rewrite wf_mixed. cbn [bind negb].
  rewrite map_id, !length_map.
  pose proof (seed_map (fun idx => get tree (n + idx)) n indices []) as Hseed.
  cbn [app List.length Z.of_nat] in Hseed.
  unfold val, Buffer in *. rewrite Hseed. clear Hseed.
  assert (Eq : map (fun idx => (Num (n + idx), get tree (n + idx))) indices
               = queue_at tree K m).
  { unfold queue_at.
    rewrite (known_desc_ext K (member n indices)).
    - symmetry. apply known_desc_leaves.
      + apply descending_from; [assumption|].
        eapply Forall_impl; [|exact Hrange]. cbv beta. intros; lia.
      + eapply Forall_impl; [|exact Hrange]. cbv beta. intros; lia.
    - intros j Hj. rewrite Habove by lia. subst known0.
      rewrite marks_spec. reflexivity. }
  rewrite Eq, HD. apply verify_levels.
  - intros i Hi. apply Hnode. lia.
  - lia.
  - rewrite <- Eq. destruct indices; [congruence|discriminate].
  - rewrite <- Eq, length_map. apply Nat.lt_succ_diag_r.
Qed.

End RoundTrip.

Import Sample.

Lemma generate_then_verify_witness :
  wellFormed digest tree 2 = true
  /\ [2; 0] <> []
  /\ descending None [2; 0] = true
  /\ Forall (fun idx => 0 <= idx < 2 ^ 2) [2; 0]
  /\ exists p,
       generateMultiProof tree [2; 0] = Ok p
       /\ verifyMultiProof digest (mixedRoot p) (root p) (leafCount p)
            (MultiProof.indices p) (values p) (decommitments p) = Ok true.
Proof.
  assert (H1 : wellFormed digest tree 2 = true) by (vm_compute; reflexivity).
  assert (H2 : [2; 0] <> ([] : list Z)) by discriminate.
  assert (H3 : descending None [2; 0] = true) by reflexivity.
  assert (H4 : Forall (fun idx => 0 <= idx < 2 ^ 2) [2; 0]).
  { repeat constructor; discriminate. }
  repeat (split; [assumption|]).
  exact (generate_then_verify digest tree 2 H1 [2; 0] H2 H3 H4).
Defined.

End RoundTrip.

(* ===================================================================== *)
(** * The append pass without leaves *)
(* ===================================================================== *)

Module AppendFacts.

Import Utils CombinedProof Spec Aux BitFacts BitCount.

Section Nothing.
Variable hashFunction : val -> val -> outcome Buffer.

(** The append pass with nothing to append, on a count that is a power
    of two: no level has an index left of its bound, nothing is written. *)
Lemma append_nothing appendDecommitments elementCount halve j :
  (forall u, 0 <= u < 2 ^ 31 -> halve u 1 = u / 2) ->
  forall fuel nh cursor,
    Z.of_nat j <= 30 -> (j <= fuel)%nat ->
    appendLoop hashFunction [] elementCount halve appendDecommitments fuel
      {| a_newHashes := nh; a_cursor := cursor;
         a_upperBound := 2 ^ Z.of_nat j - 1; a_writeIndex := 0;
         a_readIndex := 0; a_offset := 2 ^ Z.of_nat j;
         a_index := 2 ^ Z.of_nat j |} = Ok nh.
Proof.
  intros Hh. induction j as [|j IH]; intros fuel nh cursor Hj Hf.
  - change (2 ^ Z.of_nat 0 - 1) with 0. destruct fuel; reflexivity.
  - destruct fuel as [|fuel]; [lia|].
    assert (Hp : 2 ^ Z.of_nat (S j) = 2 * 2 ^ Z.of_nat j).
    { rewrite Nat2Z.inj_succ, Z.pow_succ_r by lia. reflexivity. }
    assert (Hq : 0 < 2 ^ Z.of_nat j <= 2 ^ 29).
    { split; [apply Z.pow_pos_nonneg; lia|apply Z.pow_le_mono_r; lia]. }
    assert (Hodd : odd (2 ^ Z.of_nat (S j)) = false)
      by (apply odd_pow2; lia).
    assert (Hu : ushr32 (2 ^ Z.of_nat (S j)) 1 = 2 ^ Z.of_nat j).
    { rewrite ushr32_pow2 by lia. f_equal. lia. }
    assert (Hv : halve (2 ^ Z.of_nat (S j) - 1) 1 = 2 ^ Z.of_nat j - 1).
    { rewrite Hh by lia. rewrite Hp.
      generalize (2 ^ Z.of_nat j). intros q.
      symmetry. apply (Z.div_unique _ 2 (q - 1) 1); lia. }
    cbn [appendLoop a_upperBound a_writeIndex a_index a_offset a_cursor
         a_readIndex a_newHashes].
    destruct (Z.gtb_spec (2 ^ Z.of_nat (S j) - 1) 0) as [_|]; [|lia].
    rewrite Hodd, andb_false_r.
    destruct (Z.ltb_spec (2 ^ Z.of_nat (S j)) (2 ^ Z.of_nat (S j) - 1));
      [lia|].
    cbn [bind a_upperBound a_writeIndex a_index a_offset a_cursor
         a_readIndex a_newHashes].
    destruct (Z.geb_spec (2 ^ Z.of_nat (S j)) (2 ^ Z.of_nat (S j) - 1));
      [|lia].
    destruct (Z.eqb_spec (2 ^ Z.of_nat (S j)) (2 ^ Z.of_nat (S j) - 1));
      [lia|].
    rewrite Hu, Hv. apply IH; lia.
Qed.

Lemma appendPass_nothing halve c k :
  (forall u, 0 <= u < 2 ^ 31 -> halve u 1 = u / 2) ->
  0 <= k <= 30 ->
  appendPass hashFunction [] (2 ^ k) halve c = Ok (stack c).
Proof.
  intros Hh Hk. unfold appendPass. cbn [List.length].
  replace (2 ^ k + Z.of_nat 0 - 1) with (2 ^ k - 1) by lia.
  rewrite <- (Z2Nat.id k) by lia.
  apply append_nothing; [exact Hh|lia|].
  unfold appendFuel. cbn [List.length]. lia.
Qed.

End Nothing.

End AppendFacts.

(* ===================================================================== *)
(** * The combined proofs *)
(* ===================================================================== *)

Module Combined.

Import Utils CombinedProof Spec Aux BitFacts BitCount Verify.

Lemma popcount_zero n : forall x, popcount n x = 0 -> x mod 2 ^ Z.of_nat n = 0.
Proof.
  induction n as [|n IH]; intros x H.
  - cbn. apply Z.mod_1_r.
  - cbn [popcount] in H.
    pose proof (popcount_bounds n (x / 2)) as Hb.
    destruct (Z.odd x) eqn:Ho; cbn [Z.b2z] in H; [lia|].
    assert (Hq : popcount n (x / 2) = 0) by lia. apply IH in Hq.
    rewrite Nat2Z.inj_succ, Z.pow_succ_r by lia.
    rewrite Z.rem_mul_r by lia. rewrite Hq.
    pose proof (Zmod_odd x) as Hm. rewrite Ho in Hm. lia.
Qed.

Local Opaque bitCount32 popcount Z.pow Z.modulo.

Section Combined.
Variable hashFunction : val -> val -> outcome Buffer.

(** ** The cursor counts the bits that are left *)

Lemma skip_step_counted leafs st : counted st -> counted (skip_step leafs st).
Proof.
  unfold counted, skip_step. cbn [appendDecommitmentIndex appendNodeIndex].
  intros ->. rewrite bitCount32_ushr.
  destruct (odd (appendNodeIndex st)); lia.
Qed.

Lemma combine_step_counted leafs decs flag st st' :
  combine_step hashFunction leafs decs flag st = Ok st' ->
  counted st -> counted st'.
Proof.
  unfold counted, combine_step. intros H Hc.
  destruct (num_eqb (readIndexOfAppendNode st) (readIndex st));
    destruct (odd (appendNodeIndex st)) eqn:Ho; cbn [andb] in H;
    repeat match type of H with
      | bind ?m _ = _ => destruct m; cbn [bind] in H; try discriminate
      end;
    injection H as <-; cbn [appendDecommitmentIndex appendNodeIndex];
    rewrite ?bitCount32_ushr, ?Ho; lia.
Qed.

Lemma loopBooleans_counted leafs decs flags skips n : forall i st st',
  loopBooleans hashFunction leafs decs flags skips n i st = Ok st' ->
  counted st -> counted st'.
Proof.
  induction n as [|n IH]; intros i st st' H Hc; cbn [loopBooleans] in H.
  - injection H as <-. assumption.
  - destruct (truthy skips i).
    + cbn [bind] in H. eapply IH; [exact H|]. apply skip_step_counted, Hc.
    + destruct (combine_step hashFunction leafs decs (truthy flags i) st) eqn:E;
        cbn [bind] in H; try discriminate.
      eapply IH; [exact H|]. eapply combine_step_counted; eassumption.
Qed.

Lemma loopBits_counted leafs decs flags skips fuel : forall bitCheck st st',
  loopBits hashFunction leafs decs flags skips fuel bitCheck st = Ok st' ->
  counted st -> counted st'.
Proof.
  induction fuel as [|fuel IH]; intros bitCheck st st' H Hc;
    cbn [loopBits] in H; [discriminate|].
  destruct (bit_set flags bitCheck) as [flag| |]; cbn [bind] in H; try discriminate.
  destruct (bit_set skips bitCheck) as [skip| |]; cbn [bind] in H; try discriminate.
  destruct skip.
  - destruct flag.
    + injection H as <-. assumption.
    + eapply IH; [exact H|]. apply skip_step_counted, Hc.
  - destruct (combine_step hashFunction leafs decs flag st) eqn:E;
      cbn [bind] in H; try discriminate.
    eapply IH; [exact H|]. eapply combine_step_counted; eassumption.
Qed.

Lemma init_counted leafs elementCount st :
  init leafs elementCount = Ok st ->
  counted st /\ appendNodeIndex st = elementCount.
Proof.
  unfold init. intros H.
  repeat match type of H with
    | bind ?m _ = _ => destruct m; cbn [bind] in H; try discriminate
    end.
  injection H as <-. split; reflexivity.
Qed.

(** Shifting only removes bits. *)
Lemma skip_step_le leafs st :
  bitCount32 (appendNodeIndex (skip_step leafs st)) <= bitCount32 (appendNodeIndex st).
Proof.
  unfold skip_step. cbn [appendNodeIndex]. rewrite bitCount32_ushr.
  destruct (odd (appendNodeIndex st)); lia.
Qed.

Lemma combine_step_le leafs decs flag st st' :
  combine_step hashFunction leafs decs flag st = Ok st' ->
  bitCount32 (appendNodeIndex st') <= bitCount32 (appendNodeIndex st).
Proof.
  unfold combine_step. intros H.
  repeat match type of H with
    | bind ?m _ = _ => destruct m; cbn [bind] in H; try discriminate
    end.
  injection H as <-. cbn [appendNodeIndex].
  destruct (num_eqb _ _); [|lia]. rewrite bitCount32_ushr.
  destruct (odd (appendNodeIndex st)); lia.
Qed.

Lemma loopBooleans_le leafs decs flags skips n : forall i st st',
  loopBooleans hashFunction leafs decs flags skips n i st = Ok st' ->
  bitCount32 (appendNodeIndex st') <= bitCount32 (appendNodeIndex st).
Proof.
  induction n as [|n IH]; intros i st st' H; cbn [loopBooleans] in H.
  - injection H as <-. lia.
  - destruct (truthy skips i).
    + cbn [bind] in H. apply IH in H. pose proof (skip_step_le leafs st). lia.
    + destruct (combine_step hashFunction leafs decs (truthy flags i) st) eqn:E;
        cbn [bind] in H; try discriminate.
      apply IH in H. apply combine_step_le in E. lia.
Qed.

Lemma loopBits_le leafs decs flags skips fuel : forall bitCheck st st',
  loopBits hashFunction leafs decs flags skips fuel bitCheck st = Ok st' ->
  bitCount32 (appendNodeIndex st') <= bitCount32 (appendNodeIndex st).
Proof.
  induction fuel as [|fuel IH]; intros bitCheck st st' H;
    cbn [loopBits] in H; [discriminate|].
  destruct (bit_set flags bitCheck) as [flag| |]; cbn [bind] in H; try discriminate.
  destruct (bit_set skips bitCheck) as [skip| |]; cbn [bind] in H; try discriminate.
  destruct skip.
  - destruct flag.
    + injection H as <-. lia.
    + apply IH in H. pose proof (skip_step_le leafs st). lia.
  - destruct (combine_step hashFunction leafs decs flag st) eqn:E;
      cbn [bind] in H; try discriminate.
    apply IH in H. apply combine_step_le in E. lia.
Qed.

Lemma traverseBooleans_counted leafs elementCount flags skips decommitments st :
  traverseBooleans hashFunction leafs elementCount flags skips decommitments = Ok st ->
  counted st /\ bitCount32 (appendNodeIndex st) <= bitCount32 elementCount.
Proof.
  unfold traverseBooleans. intros H.
  destruct (init leafs elementCount) as [st0| |] eqn:E; cbn [bind] in H;
    try discriminate.
  apply init_counted in E as [E1 E2]. split.
  - eapply loopBooleans_counted; eassumption.
  - apply loopBooleans_le in H. rewrite E2 in H. exact H.
Qed.

Lemma traverseBits_counted leafs elementCount proof st :
  traverseBits hashFunction leafs elementCount proof = Ok st ->
  counted st /\ bitCount32 (appendNodeIndex st) <= bitCount32 elementCount.
Proof.
  unfold traverseBits. generalize 257%nat. intros fuel H.
  destruct (init leafs elementCount) as [st0| |] eqn:E; cbn [bind] in H;
    try discriminate.
  apply init_counted in E as [E1 E2]. split.
  - eapply loopBits_counted; eassumption.
  - apply loopBits_le in H. rewrite E2 in H. exact H.
Qed.


(** ** The cross-check *)

Lemma finish_spec leafs st :
  let result := finish leafs st in
  (appendDecommitmentIndex st = 1 -> result = buffer_from (rootOf leafs st))
  /\ (appendDecommitmentIndex st <> 1 ->
      forall h r, hash st = Some h -> rootOf leafs st = Some r ->
        (h = r -> result = Ok r)
        /\ (h <> r -> result = Throw (AssertionError "Invalid Proof.")))
  /\ (result = Throw (AssertionError "Invalid Proof.") <->
      appendDecommitmentIndex st <> 1
      /\ exists h r, hash st = Some h /\ rootOf leafs st = Some r /\ h <> r)
  /\ (forall r, result = Ok r -> rootOf leafs st = Some r).
Proof.
  cbv zeta. unfold finish, crossCheck.
  destruct (Z.eqb_spec (appendDecommitmentIndex st) 1) as [E|E].
  - cbn [bind]. split; [reflexivity|]. split; [intros; contradiction|].
    split.
    + split.
      * destruct (rootOf leafs st); cbn; discriminate.
      * intros [Hne _]. contradiction.
    + intros r. destruct (rootOf leafs st); cbn; congruence.
  - split; [intros; contradiction|]. split; [|split].
    + intros _ h r Hh Hr. rewrite Hh, Hr. cbn [equals bind]. split.
      * intros ->. rewrite buffer_eqb_refl. reflexivity.
      * intros Hne. destruct (buffer_eqb h r) eqn:Eb; [|reflexivity].
        apply buffer_eqb_eq in Eb. contradiction.
    + split.
      * intros H. split; [assumption|].
        destruct (hash st) as [h|]; [|cbn in H; discriminate].
        destruct (rootOf leafs st) as [r|]; [|cbn in H; discriminate].
        exists h, r. repeat split. intros ->.
        cbn in H. rewrite buffer_eqb_refl in H. cbn in H. discriminate.
      * intros (_ & h & r & Hh & Hr & Hne). rewrite Hh, Hr. cbn [equals bind].
        destruct (buffer_eqb h r) eqn:Eb; [|reflexivity].
        apply buffer_eqb_eq in Eb. contradiction.
    + intros r.
      destruct (hash st) as [h|]; [|cbn; discriminate].
      destruct (rootOf leafs st) as [r'|]; [|cbn; discriminate].
      cbn [equals bind]. destruct (buffer_eqb h r'); cbn; congruence.
Qed.

(** [appendNodeIndex] only changes by [>>>= 1]. *)
Lemma skip_step_shifted leafs elementCount st :
  (exists k, appendNodeIndex st = shifted k elementCount) ->
  exists k, appendNodeIndex (skip_step leafs st) = shifted k elementCount.
Proof.
  intros [k E]. exists (S k). unfold skip_step.
  cbn [appendNodeIndex shifted]. rewrite E. reflexivity.
Qed.

Lemma combine_step_shifted leafs decs flag elementCount st st' :
  combine_step hashFunction leafs decs flag st = Ok st' ->
  (exists k, appendNodeIndex st = shifted k elementCount) ->
  exists k, appendNodeIndex st' = shifted k elementCount.
Proof.
  unfold combine_step. intros H [k E].
  repeat match type of H with
    | bind ?m _ = _ => destruct m; cbn [bind] in H; try discriminate
    end.
  injection H as <-. cbn [appendNodeIndex].
  destruct (num_eqb _ _); [|exists k; exact E].
  exists (S k). cbn [shifted]. rewrite E. reflexivity.
Qed.

Lemma loopBooleans_shifted leafs decs flags skips elementCount n :
  forall i st st',
  loopBooleans hashFunction leafs decs flags skips n i st = Ok st' ->
  (exists k, appendNodeIndex st = shifted k elementCount) ->
  exists k, appendNodeIndex st' = shifted k elementCount.
Proof.
  induction n as [|n IH]; intros i st st' H Hs; cbn [loopBooleans] in H.
  - injection H as <-. assumption.
  - destruct (truthy skips i).
    + cbn [bind] in H. eapply IH; [exact H|]. apply skip_step_shifted, Hs.
    + destruct (combine_step hashFunction leafs decs (truthy flags i) st) eqn:E;
        cbn [bind] in H; try discriminate.
      eapply IH; [exact H|]. eapply combine_step_shifted; eassumption.
Qed.

Lemma loopBits_shifted leafs decs flags skips elementCount fuel :
  forall bitCheck st st',
  loopBits hashFunction leafs decs flags skips fuel bitCheck st = Ok st' ->
  (exists k, appendNodeIndex st = shifted k elementCount) ->
  exists k, appendNodeIndex st' = shifted k elementCount.
Proof.
  induction fuel as [|fuel IH]; intros bitCheck st st' H Hs;
    cbn [loopBits] in H; [discriminate|].
  destruct (bit_set flags bitCheck) as [flag| |]; cbn [bind] in H; try discriminate.
  destruct (bit_set skips bitCheck) as [skip| |]; cbn [bind] in H; try discriminate.
  destruct skip.
  - destruct flag.
    + injection H as <-. assumption.
    + eapply IH; [exact H|]. apply skip_step_shifted, Hs.
  - destruct (combine_step hashFunction leafs decs flag st) eqn:E;
      cbn [bind] in H; try discriminate.
    eapply IH; [exact H|]. eapply combine_step_shifted; eassumption.
Qed.

Lemma traversal_shifted leafs elementCount flags skips decommitments proof st :
  traverseBooleans hashFunction leafs elementCount flags skips decommitments = Ok st
  \/ traverseBits hashFunction leafs elementCount proof = Ok st ->
  exists k, appendNodeIndex st = shifted k elementCount.
Proof.
  intros [H|H].
  - unfold traverseBooleans in H.
    destruct (init leafs elementCount) as [st0| |] eqn:E; cbn [bind] in H;
      try discriminate.
    apply init_counted in E as [_ E].
    eapply loopBooleans_shifted; [exact H|]. exists O. exact E.
  - unfold traverseBits in H. revert H. generalize 257%nat. intros fuel H.
    destruct (init leafs elementCount) as [st0| |] eqn:E; cbn [bind] in H;
      try discriminate.
    apply init_counted in E as [_ E].
    eapply loopBits_shifted; [exact H|]. exists O. exact E.
Qed.

(** The comparison needs two buffers. *)
Lemma finish_undefined leafs st :
  appendDecommitmentIndex st <> 1 ->
  hash st = None \/ rootOf leafs st = None ->
  finish leafs st = Throw TypeError.
Proof.
  intros Hc Hn. unfold finish, crossCheck.
  destruct (Z.eqb_spec (appendDecommitmentIndex st) 1) as [E|_];
    [contradiction|].
  destruct Hn as [-> | ->]; [reflexivity|].
  destruct (hash st); reflexivity.
Qed.

(** C3 (amended): once the loop of [getRootBooleans] or [getRootBits] has
    ended, [appendNodeIndex] is [elementCount] shifted right once per
    level the append node has passed, and (for an [elementCount] up to
    [2^52] in magnitude) the append-decommitment cursor is the number of
    bits set in it, between 0 and the number of bits set in
    [elementCount].  The function skips the cross-check and returns a
    copy of the root when the cursor ended at 1.  When the cursor ended
    elsewhere the comparison is made: the call throws a [TypeError] when
    the accumulated append hash or the root is undefined, it returns the
    root when the two are equal buffers, and it fails with the assertion
    'Invalid Proof.' exactly when the two are buffers that differ.
    Whatever it returns is that root. *)
Theorem crossCheck_on_cursor leafs elementCount flags skips decommitments
    proof st result :
  (traverseBooleans hashFunction leafs elementCount flags skips decommitments = Ok st
   /\ result = getRootBooleans hashFunction leafs elementCount flags skips decommitments)
  \/ (traverseBits hashFunction leafs elementCount proof = Ok st
      /\ result = getRootBits hashFunction leafs elementCount proof) ->
  (appendDecommitmentIndex st = 1 -> result = buffer_from (rootOf leafs st))
  /\ (appendDecommitmentIndex st <> 1 ->
      forall h r, hash st = Some h -> rootOf leafs st = Some r ->
        (h = r -> result = Ok r)
        /\ (h <> r -> result = Throw (AssertionError "Invalid Proof.")))
  /\ (appendDecommitmentIndex st <> 1 ->
      hash st = None \/ rootOf leafs st = None ->
      result = Throw TypeError)
  /\ (result = Throw (AssertionError "Invalid Proof.") <->
      appendDecommitmentIndex st <> 1
      /\ exists h r, hash st = Some h /\ rootOf leafs st = Some r /\ h <> r)
  /\ (forall r, result = Ok r -> rootOf leafs st = Some r)
  /\ (exists k, appendNodeIndex st = shifted k elementCount)
  /\ (- 2 ^ 52 <= elementCount <= 2 ^ 52 ->
      appendDecommitmentIndex st = popcount 32 (appendNodeIndex st mod 2 ^ 32)
      /\ 0 <= appendDecommitmentIndex st
         <= popcount 32 (elementCount mod 2 ^ 32)).
Proof.
  intros H.
  assert (E : result = finish leafs st).
  { destruct H as [[H ->]|[H ->]].
    - unfold getRootBooleans. rewrite H. reflexivity.
    - unfold getRootBits. rewrite H. reflexivity. }
  assert (Ht : traverseBooleans hashFunction leafs elementCount flags skips
                 decommitments = Ok st
               \/ traverseBits hashFunction leafs elementCount proof = Ok st)
    by (destruct H as [[H _]|[H _]]; [left|right]; exact H).
  rewrite E.
  destruct (finish_spec leafs st) as (F1 & F2 & F3 & F4).
  split; [exact F1|]. split; [exact F2|].
  split; [apply finish_undefined|].
  split; [exact F3|]. split; [exact F4|].
  split; [exact (traversal_shifted _ _ _ _ _ _ _ Ht)|].
  intros _.
  assert (Hc : counted st
               /\ bitCount32 (appendNodeIndex st) <= bitCount32 elementCount).
  { destruct Ht as [Hb|Hb];
      [eapply traverseBooleans_counted|eapply traverseBits_counted]; exact Hb. }
  destruct Hc as [Hc Hle]. unfold counted in Hc.
  rewrite Hc.
  rewrite (bitCount32_popcount (appendNodeIndex st)) in Hle |- *.
  rewrite (bitCount32_popcount elementCount) in Hle.
  pose proof (popcount_bounds 32 (appendNodeIndex st mod 2 ^ 32)) as Hb.
  split; [reflexivity|]. split; [apply Hb|exact Hle].
Qed.

(** ** No comparison of lengths *)

Lemma truthy_fit n skips i :
  0 <= i < Z.of_nat n -> truthy (fit n skips) i = truthy skips i.
Proof.
  intros Hi. unfold truthy, get, fit.
  destruct (Z.ltb_spec i 0); [lia|].
  destruct (le_lt_dec (List.length skips) (Z.to_nat i)) as [Hge|Hlt].
  - rewrite nth_error_app2 by (rewrite length_firstn; lia).
    rewrite (proj2 (nth_error_None skips (Z.to_nat i))) by lia.
    destruct (nth_error (repeat false _) _) as [b|] eqn:E; [|reflexivity].
    apply nth_error_In, repeat_spec in E. assumption.
  - rewrite nth_error_app1 by (rewrite length_firstn; lia).
    rewrite nth_error_firstn.
    destruct (Nat.ltb_spec (Z.to_nat i) n); [reflexivity|lia].
Qed.

Lemma loopBooleans_skips leafs decs flags skips skips' n : forall i st,
  0 <= i ->
  (forall k, i <= k < i + Z.of_nat n -> truthy skips' k = truthy skips k) ->
  loopBooleans hashFunction leafs decs flags skips' n i st
  = loopBooleans hashFunction leafs decs flags skips n i st.
Proof.
  induction n as [|n IH]; intros i st Hi H; [reflexivity|].
  cbn [loopBooleans]. rewrite (H i) by lia.
  destruct (truthy skips i); cbn [bind].
  - apply IH; [lia|]. intros k Hk. apply H. lia.
  - destruct (combine_step hashFunction leafs decs (truthy flags i) st);
      cbn [bind]; try reflexivity.
    apply IH; [lia|]. intros k Hk. apply H. lia.
Qed.

Lemma loopNewBooleans_skips leafs updateLeafs decs flags skips skips' n :
  forall i ns,
  0 <= i ->
  (forall k, i <= k < i + Z.of_nat n -> truthy skips' k = truthy skips k) ->
  loopNewBooleans hashFunction leafs updateLeafs decs flags skips' n i ns
  = loopNewBooleans hashFunction leafs updateLeafs decs flags skips n i ns.
Proof.
  induction n as [|n IH]; intros i ns Hi H; [reflexivity|].
  cbn [loopNewBooleans]. rewrite (H i) by lia.
  destruct (truthy skips i); cbn [bind].
  - apply IH; [lia|]. intros k Hk. apply H. lia.
  - destruct (combine_newBooleans hashFunction leafs updateLeafs decs
                (truthy flags i) ns); cbn [bind]; try reflexivity.
    apply IH; [lia|]. intros k Hk. apply H. lia.
Qed.

(** *** Replacement leaves beyond the leaves *)

Lemma get_firstn {A} n (l : list A) i :
  i < Z.of_nat n -> get (firstn n l) i = get l i.
Proof.
  intros Hi. unfold get. destruct (Z.ltb_spec i 0); [reflexivity|].
  rewrite nth_error_firstn.
  destruct (Nat.ltb_spec (Z.to_nat i) n); [reflexivity|lia].
Qed.

Lemma get_num_firstn {A} n (l : list A) i :
  below (Z.of_nat n) i -> get_num (firstn n l) i = get_num l i.
Proof. destruct i as [|r]; [reflexivity|]. apply get_firstn. Qed.

Lemma rem_below x b : 0 <= b -> below (Z.max 1 b) (rem x b).
Proof.
  intros Hb. destruct x as [|z]; cbn [rem below]; [exact I|].
  destruct (Z.eqb_spec b 0) as [|Hne]; cbn [below]; [exact I|].
  pose proof (Z.rem_bound_abs z b Hne) as H.
  revert H. generalize (Z.rem z b). intros r H. lia.
Qed.

Section Replacement.
Variable leafs updateLeafs decommitments : list Buffer.

Local Abbreviation bound := (Z.max 1 (Z.of_nat (List.length leafs))).

Lemma readNew_kept ns i :
  below bound i ->
  readNew (kept leafs updateLeafs) ns i = readNew updateLeafs ns i.
Proof.
  intros H. unfold readNew, kept.
  destruct (useLeafs (base ns)); [|reflexivity].
  apply get_num_firstn. rewrite Nat2Z.inj_max. exact H.
Qed.

Lemma skip_new_kept ns :
  below bound (readIndex (base ns)) ->
  skip_new leafs (kept leafs updateLeafs) ns = skip_new leafs updateLeafs ns
  /\ below bound (readIndex (base (skip_new leafs updateLeafs ns))).
Proof.
  intros H. split.
  - unfold skip_new. rewrite (readNew_kept ns _ H). reflexivity.
  - cbn [skip_new base readIndex]. apply rem_below. lia.
Qed.

Lemma pair_new_kept flag ns rightMost hash1 cursor1 appendDecommitments1 :
  below bound (readIndex (base ns)) ->
  pair_new hashFunction leafs (kept leafs updateLeafs) decommitments flag ns
    rightMost hash1 cursor1 appendDecommitments1
  = pair_new hashFunction leafs updateLeafs decommitments flag ns
      rightMost hash1 cursor1 appendDecommitments1
  /\ forall ns',
       pair_new hashFunction leafs updateLeafs decommitments flag ns
         rightMost hash1 cursor1 appendDecommitments1 = Ok ns' ->
       below bound (readIndex (base ns')).
Proof.
  intros H. split.
  - unfold pair_new. rewrite (readNew_kept ns _ H).
    rewrite (readNew_kept ns (rem _ _)) by (apply rem_below; lia).
    reflexivity.
  - intros ns'. unfold pair_new.
    repeat match goal with
      | |- context [bind (hashFunction ?a ?b) _] =>
          destruct (hashFunction a b); cbn [bind]; try discriminate
      end.
    intros E. injection E as <-. cbn [base readIndex].
    apply rem_below. lia.
Qed.

Lemma combine_newBooleans_kept flag ns :
  below bound (readIndex (base ns)) ->
  combine_newBooleans hashFunction leafs (kept leafs updateLeafs)
    decommitments flag ns
  = combine_newBooleans hashFunction leafs updateLeafs decommitments flag ns
  /\ forall ns',
       combine_newBooleans hashFunction leafs updateLeafs decommitments flag ns
       = Ok ns' ->
       below bound (readIndex (base ns')).
Proof.
  intros H. unfold combine_newBooleans.
  rewrite (readNew_kept ns (rem _ _)) by (apply rem_below; lia).
  destruct (num_eqb _ _ && odd _).
  - destruct (hashFunction _ (hash (base ns))); cbn [bind];
      [apply pair_new_kept; exact H| |]; (split; [reflexivity|discriminate]).
  - apply pair_new_kept; exact H.
Qed.

Lemma combine_newBits_kept flag ns :
  below bound (readIndex (base ns)) ->
  combine_newBits hashFunction leafs (kept leafs updateLeafs)
    decommitments flag ns
  = combine_newBits hashFunction leafs updateLeafs decommitments flag ns
  /\ forall ns',
       combine_newBits hashFunction leafs updateLeafs decommitments flag ns
       = Ok ns' ->
       below bound (readIndex (base ns')).
Proof.
  intros H. unfold combine_newBits.
  rewrite (readNew_kept ns (rem _ _)) by (apply rem_below; lia).
  destruct (num_eqb _ _); [destruct (odd _)|].
  - destruct (hashFunction _ (hash (base ns))); cbn [bind];
      [apply pair_new_kept; exact H| |]; (split; [reflexivity|discriminate]).
  - apply pair_new_kept; exact H.
  - apply pair_new_kept; exact H.
Qed.

Lemma loopNewBooleans_kept flags skips n : forall i ns,
  below bound (readIndex (base ns)) ->
  loopNewBooleans hashFunction leafs (kept leafs updateLeafs) decommitments
    flags skips n i ns
  = loopNewBooleans hashFunction leafs updateLeafs decommitments
      flags skips n i ns.
Proof.
  induction n as [|n IH]; intros i ns H; [reflexivity|].
  cbn [loopNewBooleans].
  destruct (truthy skips i); cbn [bind].
  - destruct (skip_new_kept ns H) as [-> H']. apply IH. exact H'.
  - destruct (combine_newBooleans_kept (truthy flags i) ns H) as [-> H'].
    destruct (combine_newBooleans hashFunction leafs updateLeafs decommitments
                (truthy flags i) ns) as [ns'| |]; cbn [bind]; try reflexivity.
    apply IH. apply H'. reflexivity.
Qed.

Lemma loopNewBits_kept flags skips fuel : forall bitCheck ns,
  below bound (readIndex (base ns)) ->
  loopNewBits hashFunction leafs (kept leafs updateLeafs) decommitments
    flags skips fuel bitCheck ns
  = loopNewBits hashFunction leafs updateLeafs decommitments
      flags skips fuel bitCheck ns.
Proof.
  induction fuel as [|fuel IH]; intros bitCheck ns H; [reflexivity|].
  cbn [loopNewBits].
  destruct (bit_set flags bitCheck) as [flag| |]; cbn [bind]; try reflexivity.
  destruct (bit_set skips bitCheck) as [skip| |]; cbn [bind]; try reflexivity.
  destruct skip.
  - destruct flag; [reflexivity|].
    destruct (skip_new_kept ns H) as [-> H']. apply IH. exact H'.
  - destruct (combine_newBits_kept flag ns H) as [-> H'].
    destruct (combine_newBits hashFunction leafs updateLeafs decommitments
                flag ns) as [ns'| |]; cbn [bind]; try reflexivity.
    apply IH. apply H'. reflexivity.
Qed.

Lemma checkNew_kept ns :
  checkNew leafs (kept leafs updateLeafs) ns = checkNew leafs updateLeafs ns.
Proof.
  unfold checkNew, kept. rewrite get_firstn by lia. reflexivity.
Qed.

Lemma initNew_below appendLeafs elementCount ns :
  initNew leafs appendLeafs elementCount = Ok ns ->
  below bound (readIndex (base ns)).
Proof.
  unfold initNew, new_array.
  repeat match goal with
    | |- context [bind (if ?c then _ else _) _] => destruct c; cbn [bind]
    end; try discriminate.
  intros E. injection E as <-. cbn [base readIndex below]. lia.
Qed.

Lemma traverseNewBooleans_kept appendLeafs elementCount flags skips :
  traverseNewBooleans hashFunction leafs (kept leafs updateLeafs) appendLeafs
    elementCount flags skips decommitments
  = traverseNewBooleans hashFunction leafs updateLeafs appendLeafs
      elementCount flags skips decommitments.
Proof.
  unfold traverseNewBooleans.
  destruct (initNew leafs appendLeafs elementCount) as [ns| |] eqn:E;
    cbn [bind]; try reflexivity.
  rewrite loopNewBooleans_kept by (eapply initNew_below; exact E).
  destruct (loopNewBooleans _ _ _ _ _ _ _ _ _); cbn [bind]; try reflexivity.
  apply checkNew_kept.
Qed.

End Replacement.

Lemma traverseNewBits_kept leafs updateLeafs appendLeafs elementCount proof :
  traverseNewBits hashFunction leafs (kept leafs updateLeafs) appendLeafs
    elementCount proof
  = traverseNewBits hashFunction leafs updateLeafs appendLeafs
      elementCount proof.
Proof.
  unfold traverseNewBits. generalize 257%nat. intros fuel.
  destruct (initNew leafs appendLeafs elementCount) as [ns| |] eqn:E;
    cbn [bind]; try reflexivity.
  rewrite loopNewBits_kept by (eapply initNew_below; exact E).
  destruct (loopNewBits _ _ _ _ _ _ _ _ _); cbn [bind]; try reflexivity.
  apply checkNew_kept.
Qed.

(** C7 (amended): [getRootBooleans], [getNewRootBooleans] and
    [getNewRootBits] compare no lengths.  The boolean variants run
    [flags.length] rounds, read an absent [skips[i]] as false and ignore
    the entries of [skips] beyond [flags.length], so a call gives what it
    gives on [skips] cut or padded to the length of [flags].  The update
    variants read the replacement leaves by index and ignore those beyond
    [leafs.length] (the first one apart), so a call gives what it gives
    on [updateLeafs] cut there. *)
Theorem lengths_are_not_compared leafs updateLeafs appendLeafs elementCount
    flags skips decommitments proof :
  getRootBooleans hashFunction leafs elementCount flags skips decommitments
  = getRootBooleans hashFunction leafs elementCount flags
      (fit (List.length flags) skips) decommitments
  /\ getNewRootBooleans hashFunction leafs updateLeafs appendLeafs
       elementCount flags skips decommitments
     = getNewRootBooleans hashFunction leafs updateLeafs appendLeafs
         elementCount flags (fit (List.length flags) skips) decommitments
  /\ getNewRootBooleans hashFunction leafs updateLeafs appendLeafs
       elementCount flags skips decommitments
     = getNewRootBooleans hashFunction leafs (kept leafs updateLeafs)
         appendLeafs elementCount flags skips decommitments
  /\ getNewRootBits hashFunction leafs updateLeafs appendLeafs
       elementCount proof
     = getNewRootBits hashFunction leafs (kept leafs updateLeafs)
         appendLeafs elementCount proof.
Proof.
  split; [|split; [|split]].
  - unfold getRootBooleans, traverseBooleans.
    destruct (init leafs elementCount); cbn [bind]; try reflexivity.
    rewrite (loopBooleans_skips _ _ _ skips (fit (List.length flags) skips));
      [reflexivity|lia|].
    intros k Hk. apply truthy_fit. lia.
  - unfold getNewRootBooleans, traverseNewBooleans.
    destruct (initNew leafs appendLeafs elementCount); cbn [bind];
      try reflexivity.
    rewrite (loopNewBooleans_skips _ _ _ _ skips (fit (List.length flags) skips));
      [reflexivity|lia|].
    intros k Hk. apply truthy_fit. lia.
  - unfold getNewRootBooleans.
    rewrite traverseNewBooleans_kept. reflexivity.
  - unfold getNewRootBits.
    rewrite traverseNewBits_kept. reflexivity.
Qed.

(** ** The two encodings *)

Lemma land_pow2 w i : 0 <= i -> (Z.land w (2 ^ i) =? 2 ^ i) = Z.testbit w i.
Proof.
  intros Hi.
  assert (E : Z.land w (2 ^ i) = if Z.testbit w i then 2 ^ i else 0).
  { apply Z.bits_inj'. intros k Hk. rewrite Z.land_spec, Z.pow2_bits_eqb by lia.
    destruct (Z.eqb_spec i k) as [->|Hne].
    - rewrite andb_true_r. destruct (Z.testbit w k).
      + rewrite Z.pow2_bits_true by lia. reflexivity.
      + rewrite Z.bits_0. reflexivity.
    - rewrite andb_false_r. destruct (Z.testbit w i).
      + rewrite Z.pow2_bits_false by lia. reflexivity.
      + rewrite Z.bits_0. reflexivity. }
  rewrite E. pose proof (Z.pow_pos_nonneg 2 i ltac:(lia) Hi).
  destruct (Z.testbit w i); [apply Z.eqb_refl|apply Z.eqb_neq; lia].
Qed.

(** On a 32-byte word the bit test reads the word itself. *)
Lemma bit_set_word b bitCheck :
  Z.of_nat (List.length b) = 32 ->
  bit_set (Some b) bitCheck = Ok (Z.land (word b) bitCheck =? bitCheck).
Proof.
  intros Hb. unfold bit_set, aligned.
  replace (32 - List.length b)%nat with 0%nat by lia.
  cbn [repeat]. rewrite app_nil_r.
  destruct (Z.leb_spec (Z.of_nat (List.length b)) 32); [reflexivity|lia].
Qed.

Lemma leftShift_pow2 i : 0 <= i < 255 -> leftShift (2 ^ i) 1 = 2 ^ (i + 1).
Proof.
  intros Hi. unfold leftShift. rewrite Z.shiftl_mul_pow2 by lia.
  rewrite <- Z.pow_add_r by lia. apply Z.mod_small. split.
  - apply Z.pow_nonneg. lia.
  - apply Z.pow_lt_mono_r; lia.
Qed.

Lemma word_bound b : forall acc,
  0 <= acc -> forallb (fun x => (0 <=? x) && (x <? 256)) b = true ->
  0 <= fold_left (fun a x => a * 256 + x) b acc
    < (acc + 1) * 256 ^ Z.of_nat (List.length b).
Proof.
  induction b as [|x b IH]; intros acc Hacc Hb.
  - cbn. lia.
  - cbn [forallb] in Hb. apply andb_true_iff in Hb as [Hx Hb].
    apply andb_true_iff in Hx as [H0 H1].
    apply Z.leb_le in H0. apply Z.ltb_lt in H1.
    cbn [fold_left List.length].
    specialize (IH (acc * 256 + x) ltac:(lia) Hb).
    rewrite Nat2Z.inj_succ, Z.pow_succ_r by lia.
    pose proof (Z.pow_pos_nonneg 256 (Z.of_nat (List.length b)) ltac:(lia) ltac:(lia)).
    split; [lia|]. nia.
Qed.

Lemma packs_spec l w :
  packs l w = true ->
  Z.of_nat (List.length l) < 256
  /\ (forall i, 0 <= i < Z.of_nat (List.length l) ->
        Z.testbit (word w) i = truthy l i)
  /\ Z.testbit (word w) (Z.of_nat (List.length l)) = true.
Proof.
  unfold packs. rewrite !andb_true_iff. intros [[[Hlen Hbytes] Hbits] Hend].
  apply Z.eqb_eq in Hlen.
  split; [|split].
  - pose proof (word_bound w 0 ltac:(lia) Hbytes) as Hw. fold (word w) in Hw.
    rewrite Hlen in Hw.
    destruct (Z_lt_dec (Z.of_nat (List.length l)) 256) as [|Hge]; [assumption|].
    rewrite (mask_high_bits (word w) 256) in Hend; [discriminate| |lia].
    change (2 ^ 256) with ((0 + 1) * 256 ^ 32). exact Hw.
  - intros i Hi.
    pose proof (all_below_spec _ _ _ Hbits i ltac:(lia)) as E.
    apply Bool.eqb_prop in E. exact E.
  - exact Hend.
Qed.

Lemma packs_length l w : packs l w = true -> Z.of_nat (List.length w) = 32.
Proof.
  unfold packs. rewrite !andb_true_iff. intros [[[Hlen _] _] _].
  apply Z.eqb_eq. exact Hlen.
Qed.

Section Encodings.
Variable leafs decommitments : list Buffer.
Variable flags skips : list bool.
Variable flagWord skipWord : Buffer.
Hypothesis Hflags : packs flags flagWord = true.
Hypothesis Hskips : packs skips skipWord = true.
Hypothesis Hlen : List.length skips = List.length flags.
Hypothesis Hend : no_early_end flags skips = true.

Lemma loop_encodings k : forall i st fuel,
  0 <= i -> i + Z.of_nat k = Z.of_nat (List.length flags) -> (k < fuel)%nat ->
  loopBits hashFunction leafs decommitments (Some flagWord) (Some skipWord)
    fuel (2 ^ i) st
  = loopBooleans hashFunction leafs decommitments flags skips k i st.
Proof.
  destruct (packs_spec _ _ Hflags) as (Hn & Hfb & Hfe).
  destruct (packs_spec _ _ Hskips) as (_ & Hsb & Hse).
  rewrite Hlen in Hsb, Hse.
  pose proof (packs_length _ _ Hflags) as Lf.
  pose proof (packs_length _ _ Hskips) as Ls.
  induction k as [|k IH]; intros i st fuel Hi Hk Hf;
    (destruct fuel as [|fuel]; [lia|]); cbn [loopBits loopBooleans];
    rewrite !bit_set_word by assumption; cbn [bind];
    rewrite !land_pow2 by lia.
  - replace i with (Z.of_nat (List.length flags)) by lia.
    rewrite Hfe, Hse. reflexivity.
  - rewrite Hfb, Hsb by lia.
    pose proof (all_below_spec _ _ _ Hend i ltac:(lia)) as Hno.
    cbv beta in Hno.
    rewrite leftShift_pow2 by lia.
    destruct (truthy skips i).
    + destruct (truthy flags i); [discriminate|]. cbn [bind].
      apply IH; lia.
    + destruct (combine_step hashFunction leafs decommitments
                  (truthy flags i) st); cbn [bind]; try reflexivity.
      apply IH; lia.
Qed.
End Encodings.

(** C2 (amended): for boolean arrays [flags] and [skips] of equal length
    [n], none of whose positions has both the skip and the flag set, and
    32-byte words whose bits [0 .. n-1] agree with the arrays and whose
    bit [n] is set in both, with the same leafs, elementCount,
    decommitments and hash function, [getRootBits] and [getRootBooleans]
    end their loops in the same state (so with the same recorded
    append-proof decommitments) and give the same result, a root or a
    failure. *)
Theorem encodings_agree leafs elementCount flags skips decommitments
    flagWord skipWord :
  packs flags flagWord = true ->
  packs skips skipWord = true ->
  List.length skips = List.length flags ->
  no_early_end flags skips = true ->
  traverseBits hashFunction leafs elementCount
    (flagWord :: skipWord :: decommitments)
  = traverseBooleans hashFunction leafs elementCount flags skips decommitments
  /\ getRootBits hashFunction leafs elementCount
       (flagWord :: skipWord :: decommitments)
     = getRootBooleans hashFunction leafs elementCount flags skips decommitments.
Proof.
  intros Hflags Hskips Hlen Hend.
  assert (E : traverseBits hashFunction leafs elementCount
                (flagWord :: skipWord :: decommitments)
              = traverseBooleans hashFunction leafs elementCount flags skips
                  decommitments).
  { unfold traverseBits, traverseBooleans.
    destruct (packs_spec _ _ Hflags) as (Hn & _).
    assert (Hf : (List.length flags < 257)%nat) by lia.
    revert Hf. generalize 257%nat. intros fuel Hf.
    destruct (init leafs elementCount); cbn [bind]; try reflexivity.
    change (get (flagWord :: skipWord :: decommitments) 0) with (Some flagWord).
    change (get (flagWord :: skipWord :: decommitments) 1) with (Some skipWord).
    change (skipn 2 (flagWord :: skipWord :: decommitments)) with decommitments.
    change 1 with (2 ^ 0) at 1.
    apply loop_encodings; try assumption; lia. }
  split; [exact E|]. unfold getRootBits, getRootBooleans. rewrite E. reflexivity.
Qed.

(** ** An update that changes nothing *)

Section SameLeafs.
Variable leafs decommitments : list Buffer.

Lemma skip_new_mirror st :
  skip_new leafs leafs (mirror st) = mirror (skip_step leafs st).
Proof. reflexivity. Qed.

Lemma pair_new_mirror flag st rightMost hash1 cursor1 slots1 :
  pair_new hashFunction leafs leafs decommitments flag (mirror st)
    rightMost hash1 cursor1 slots1
  = bind
      (hashFunction
         (read leafs st
            (rem (if flag then plus (readIndex st) 1 else readIndex st)
               (Z.of_nat (List.length leafs))))
         (if flag then read leafs st (readIndex st)
          else get decommitments (decommitmentIndex st)))
      (fun h =>
         Ok (mirror
               {| readIndex :=
                    rem (plus (rem (if flag then plus (readIndex st) 1
                                    else readIndex st)
                                 (Z.of_nat (List.length leafs))) 1)
                      (Z.of_nat (List.length leafs));
                  writeIndex :=
                    rem (plus (writeIndex st) 1) (Z.of_nat (List.length leafs));
                  decommitmentIndex :=
                    if flag then decommitmentIndex st
                    else decommitmentIndex st + 1;
                  useLeafs :=
                    if useLeafs st
                       && num_eqb
                            (plus (rem (if flag then plus (readIndex st) 1
                                        else readIndex st)
                                     (Z.of_nat (List.length leafs))) 1)
                            (Num (Z.of_nat (List.length leafs)))
                    then false else useLeafs st;
                  appendNodeIndex :=
                    if rightMost then ushr32 (appendNodeIndex st) 1
                    else appendNodeIndex st;
                  readIndexOfAppendNode :=
                    if rightMost then writeIndex st
                    else readIndexOfAppendNode st;
                  appendDecommitmentIndex := cursor1;
                  appendDecommitments := slots1;
                  hash := hash1;
                  hashes := set (hashes st) (writeIndex st) (Some h) |})).
Proof.
  unfold pair_new, mirror, readNew, read. cbn [base newHashes].
  destruct (hashFunction _ _); reflexivity.
Qed.

Lemma combine_newBooleans_mirror flag st :
  combine_newBooleans hashFunction leafs leafs decommitments flag (mirror st)
  = bind (combine_step hashFunction leafs decommitments flag st)
      (fun st' => Ok (mirror st')).
Proof.
  unfold combine_newBooleans, combine_step.
  cbn [base mirror]. fold (mirror st).
  destruct (num_eqb (readIndexOfAppendNode st) (readIndex st));
    destruct (odd (appendNodeIndex st)); cbn [andb];
    unfold readNew, read; cbn [base newHashes mirror]; fold (mirror st);
    repeat first
      [ rewrite pair_new_mirror; unfold read
      | match goal with
        | |- context [bind (hashFunction ?a ?b) _] =>
            destruct (hashFunction a b); cbn [bind]
        end ];
    reflexivity.
Qed.

Lemma combine_newBits_mirror flag st :
  combine_newBits hashFunction leafs leafs decommitments flag (mirror st)
  = bind (combine_step hashFunction leafs decommitments flag st)
      (fun st' => Ok (mirror st')).
Proof.
  unfold combine_newBits, combine_step.
  cbn [base mirror]. fold (mirror st).
  destruct (num_eqb (readIndexOfAppendNode st) (readIndex st));
    destruct (odd (appendNodeIndex st)); cbn [andb];
    unfold readNew, read; cbn [base newHashes mirror]; fold (mirror st);
    repeat first
      [ rewrite pair_new_mirror; unfold read
      | match goal with
        | |- context [bind (hashFunction ?a ?b) _] =>
            destruct (hashFunction a b); cbn [bind]
        end ];
    reflexivity.
Qed.

Lemma loopNewBooleans_mirror flags skips n : forall i st,
  loopNewBooleans hashFunction leafs leafs decommitments flags skips n i
    (mirror st)
  = bind (loopBooleans hashFunction leafs decommitments flags skips n i st)
      (fun st' => Ok (mirror st')).
Proof.
  induction n as [|n IH]; intros i st; [reflexivity|].
  cbn [loopNewBooleans loopBooleans].
  destruct (truthy skips i); cbn [bind].
  - rewrite skip_new_mirror. apply IH.
  - rewrite combine_newBooleans_mirror.
    destruct (combine_step hashFunction leafs decommitments (truthy flags i) st);
      cbn [bind]; try reflexivity.
    apply IH.
Qed.

Lemma loopNewBits_mirror flags skips fuel : forall bitCheck st,
  loopNewBits hashFunction leafs leafs decommitments flags skips fuel bitCheck
    (mirror st)
  = bind (loopBits hashFunction leafs decommitments flags skips fuel bitCheck st)
      (fun st' => Ok (mirror st')).
Proof.
  induction fuel as [|fuel IH]; intros bitCheck st; [reflexivity|].
  cbn [loopNewBits loopBits].
  destruct (bit_set flags bitCheck) as [flag| |]; cbn [bind]; try reflexivity.
  destruct (bit_set skips bitCheck) as [skip| |]; cbn [bind]; try reflexivity.
  destruct skip.
  - destruct flag; [reflexivity|]. rewrite skip_new_mirror. apply IH.
  - rewrite combine_newBits_mirror.
    destruct (combine_step hashFunction leafs decommitments flag st);
      cbn [bind]; try reflexivity.
    apply IH.
Qed.

Lemma initNew_mirror appendLeafs elementCount :
  initNew leafs appendLeafs elementCount
  = bind (init leafs elementCount) (fun st => Ok (mirror st)).
Proof.
  unfold initNew, init, new_array.
  set (leafCount := Z.of_nat (List.length leafs)).
  set (half := ushr32 (Z.of_nat (List.length appendLeafs)) 1).
  assert (Hh : 0 <= half < 2 ^ 31).
  { subst half. unfold ushr32, toUint32. change (1 mod 32) with 1.
    rewrite Z.shiftr_div_pow2 by lia.
    pose proof (Z.mod_pos_bound (Z.of_nat (List.length appendLeafs)) (2 ^ 32)
                  ltac:(lia)).
    split; [apply Z.div_pos; lia|apply Z.div_lt_upper_bound; lia]. }
  destruct (Z.ltb_spec leafCount 0); [lia|].
  destruct (Z.leb_spec (2 ^ 32) leafCount); cbn [orb bind]; [reflexivity|].
  destruct (Z.ltb_spec (Z.max leafCount (half + 1)) 0); [lia|].
  destruct (Z.leb_spec (2 ^ 32) (Z.max leafCount (half + 1))); [lia|].
  cbn [orb bind].
  destruct ((bitCount32 elementCount <? 0) || (2 ^ 32 <=? bitCount32 elementCount));
    reflexivity.
Qed.

Lemma checkNew_mirror_eq st :
  checkNew leafs leafs (mirror st)
  = bind (crossCheck (appendDecommitmentIndex st) (hash st) (rootOf leafs st))
      (fun _ =>
         Ok {| oldRoot := rootOf leafs st;
               updatedRoot := rootOf leafs st;
               newAppendDecommitments :=
                 if appendDecommitmentIndex st =? 1
                 then set (appendDecommitments st) (Num 0) (rootOf leafs st)
                 else appendDecommitments st;
               stack := hashes st |}).
Proof. reflexivity. Qed.

Lemma checkNew_mirror st r :
  finish leafs st = Ok r ->
  exists c, checkNew leafs leafs (mirror st) = Ok c
            /\ oldRoot c = Some r /\ updatedRoot c = Some r.
Proof.
  rewrite checkNew_mirror_eq. unfold finish. cbv zeta.
  destruct (crossCheck (appendDecommitmentIndex st) (hash st) (rootOf leafs st));
    cbn [bind]; try discriminate.
  intros H. eexists. split; [reflexivity|]. cbn [oldRoot updatedRoot].
  destruct (rootOf leafs st) as [b|]; cbn [buffer_from] in H; [|discriminate].
  injection H as ->. split; reflexivity.
Qed.
End SameLeafs.

(** C5 (amended): for every input that [getRootBooleans] (respectively
    [getRootBits]) accepts with the root [r], the first loop of
    [getNewRootBooleans] (respectively [getNewRootBits]) run with
    [updateLeafs] equal to [leafs] passes its cross-check, and both the
    old root and the root computed from the replacement leaves are [r].
    The call then goes through the append pass: it fails where the pass
    fails and otherwise returns [r] as [root] and, as [newRoot], the slot
    [newHashes[0]] as the pass leaves it.  With no leaf to append and an
    [elementCount] that is a power of two up to [2^30] the pass writes
    nothing, and [newRoot] is that slot as the first loop left it. *)
Theorem unchanged_leaves_keep_root leafs appendLeafs elementCount flags skips
    decommitments proof r traversal halve result :
  (getRootBooleans hashFunction leafs elementCount flags skips decommitments = Ok r
   /\ traversal = traverseNewBooleans hashFunction leafs leafs appendLeafs
                    elementCount flags skips decommitments
   /\ halve = ushr32
   /\ result = getNewRootBooleans hashFunction leafs leafs appendLeafs
                 elementCount flags skips decommitments)
  \/ (getRootBits hashFunction leafs elementCount proof = Ok r
      /\ traversal = traverseNewBits hashFunction leafs leafs appendLeafs
                       elementCount proof
      /\ halve = shr32
      /\ result = getNewRootBits hashFunction leafs leafs appendLeafs
                    elementCount proof) ->
  exists c,
    traversal = Ok c /\ oldRoot c = Some r /\ updatedRoot c = Some r
    /\ result
       = bind (appendPass hashFunction appendLeafs elementCount halve c)
           (fun final => Ok {| root := r; newRoot := final (Num 0) |})
    /\ (appendLeafs = [] ->
        (exists k, 0 <= k <= 30 /\ elementCount = 2 ^ k) ->
        result = Ok {| root := r; newRoot := stack c (Num 0) |}).
Proof.
  intros H.
  assert (Hc : exists c,
             traversal = Ok c /\ oldRoot c = Some r /\ updatedRoot c = Some r).
  { destruct H as [(H & -> & _)|(H & -> & _)].
    - unfold getRootBooleans, traverseBooleans in H.
      unfold traverseNewBooleans. rewrite initNew_mirror.
      destruct (init leafs elementCount) as [st0| |]; cbn [bind] in H |- *;
        try discriminate.
      rewrite loopNewBooleans_mirror.
      destruct (loopBooleans _ _ _ _ _ _ _ st0) as [st| |]; cbn [bind] in H |- *;
        try discriminate.
      apply checkNew_mirror. exact H.
    - unfold getRootBits, traverseBits in H.
      unfold traverseNewBits. rewrite initNew_mirror.
      revert H. generalize 257%nat. intros fuel H.
      destruct (init leafs elementCount) as [st0| |]; cbn [bind] in H |- *;
        try discriminate.
      rewrite loopNewBits_mirror.
      destruct (loopBits _ _ _ _ _ _ _ st0) as [st| |]; cbn [bind] in H |- *;
        try discriminate.
      apply checkNew_mirror. exact H. }
  destruct Hc as (c & Et & Eo & Eu).
  exists c. split; [exact Et|]. split; [exact Eo|]. split; [exact Eu|].
  assert (Er : result
               = bind (appendPass hashFunction appendLeafs elementCount halve c)
                   (fun final => Ok {| root := r; newRoot := final (Num 0) |})).
  { destruct H as [(_ & Ht & -> & ->)|(_ & Ht & -> & ->)]; rewrite Ht in Et.
    - unfold getNewRootBooleans. rewrite Et. cbn [bind].
      destruct (appendPass _ _ _ _ _); cbn [bind]; try reflexivity.
      rewrite Eo. reflexivity.
    - unfold getNewRootBits. rewrite Et. cbn [bind].
      destruct (appendPass _ _ _ _ _); cbn [bind]; try reflexivity.
      rewrite Eo. reflexivity. }
  split; [exact Er|].
  intros -> (k & Hk & ->). rewrite Er.
  rewrite AppendFacts.appendPass_nothing; [reflexivity| |exact Hk].
  destruct H as [(_ & _ & -> & _)|(_ & _ & -> & _)]; intros u Hu.
  - apply ushr32_half. lia.
  - apply shr32_half. exact Hu.
Qed.

End Combined.

Import Sample.

Lemma encodings_agree_witness :
  packs [false; false] (word32 4) = true
  /\ packs [true; false] (word32 5) = true
  /\ List.length [true; false] = List.length [false; false]
  /\ no_early_end [false; false] [true; false] = true
  /\ traverseBits hashFunction [a; b] 3 [word32 4; word32 5; d]
     = traverseBooleans hashFunction [a; b] 3 [false; false] [true; false] [d]
  /\ getRootBits hashFunction [a; b] 3 [word32 4; word32 5; d]
     = getRootBooleans hashFunction [a; b] 3 [false; false] [true; false] [d].
Proof.
  assert (H1 : packs [false; false] (word32 4) = true) by (vm_compute; reflexivity).
  assert (H2 : packs [true; false] (word32 5) = true) by (vm_compute; reflexivity).
  assert (H3 : List.length [true; false] = List.length [false; false])
    by reflexivity.
  assert (H4 : no_early_end [false; false] [true; false] = true)
    by (vm_compute; reflexivity).
  repeat (split; [assumption|]).
  exact (encodings_agree hashFunction [a; b] 3 [false; false] [true; false] [d]
           (word32 4) (word32 5) H1 H2 H3 H4).
Defined.

(** A position that carries both bits ends the packed loop, and is one
    more round of the other: two leaves of a two-element tree, the first
    position flagged and skipped. *)
Lemma encodings_agree_counterexample :
  packs [true; false] (word32 5) = true
  /\ List.length [true; false] = List.length [true; false]
  /\ getRootBooleans hashFunction [a; b] 2 [true; false] [true; false] [d]
     = Ok [2; 2; 9]
  /\ getRootBits hashFunction [a; b] 2 [word32 5; word32 5; d] = Ok [1].
Proof. repeat split; vm_compute; reflexivity. Qed.



Lemma crossCheck_on_cursor_witness :
  exists st,
    traverseBooleans hashFunction [a] 1 [false; false] [true; false] [d] = Ok st
    /\ (appendDecommitmentIndex st = 1 ->
        getRootBooleans hashFunction [a] 1 [false; false] [true; false] [d]
        = buffer_from (rootOf [a] st))
    /\ (appendDecommitmentIndex st <> 1 ->
        forall h r, hash st = Some h -> rootOf [a] st = Some r ->
          (h = r ->
           getRootBooleans hashFunction [a] 1 [false; false] [true; false] [d]
           = Ok r)
          /\ (h <> r ->
              getRootBooleans hashFunction [a] 1 [false; false] [true; false] [d]
              = Throw (AssertionError "Invalid Proof.")))
    /\ (appendDecommitmentIndex st <> 1 ->
        hash st = None \/ rootOf [a] st = None ->
        getRootBooleans hashFunction [a] 1 [false; false] [true; false] [d]
        = Throw TypeError)
    /\ (getRootBooleans hashFunction [a] 1 [false; false] [true; false] [d]
        = Throw (AssertionError "Invalid Proof.") <->
        appendDecommitmentIndex st <> 1
        /\ exists h r, hash st = Some h /\ rootOf [a] st = Some r /\ h <> r)
    /\ (forall r,
          getRootBooleans hashFunction [a] 1 [false; false] [true; false] [d]
          = Ok r ->
          rootOf [a] st = Some r)
    /\ (exists k, appendNodeIndex st = shifted k 1)
    /\ (- 2 ^ 52 <= 1 <= 2 ^ 52 ->
        appendDecommitmentIndex st
        = popcount 32 (appendNodeIndex st mod 2 ^ 32)
        /\ 0 <= appendDecommitmentIndex st <= popcount 32 (1 mod 2 ^ 32)).
Proof.
  destruct (traverseBooleans hashFunction [a] 1 [false; false] [true; false] [d])
    as [st| |] eqn:E; [|vm_compute in E; discriminate E ..].
  exists st. split; [reflexivity|].
  exact (crossCheck_on_cursor hashFunction [a] 1 [false; false] [true; false]
           [d] [] st _ (or_introl (conj E eq_refl))).
Defined.

(** Three elements need two append decommitments: with a run that records
    one of them the accumulated hash and the root differ and the root is
    returned.  One element needs one: with a run that records it the
    comparison is made and fails.  Three elements and a run that records
    nothing: the comparison is made on an undefined hash and throws. *)
Lemma crossCheck_on_cursor_counterexample :
  (bitCount32 3 = 2
   /\ (exists st,
         traverseBooleans hashFunction [a; b] 3 [false; false] [true; false] [d]
         = Ok st
         /\ hash st = Some [1]
         /\ rootOf [a; b] st = Some [2; 2; 9])
   /\ getRootBooleans hashFunction [a; b] 3 [false; false] [true; false] [d]
      = Ok [2; 2; 9]
   /\ getRootBits hashFunction [a; b] 3 [word32 4; word32 5; d] = Ok [2; 2; 9])
  /\ (bitCount32 1 = 1
      /\ getRootBooleans hashFunction [a] 1 [false; false] [true; false] [d]
         = Throw (AssertionError "Invalid Proof.")
      /\ getRootBits hashFunction [a] 1 [word32 4; word32 5; d]
         = Throw (AssertionError "Invalid Proof."))
  /\ (getRootBooleans hashFunction [a] 3 [] [] [] = Throw TypeError
      /\ getRootBits hashFunction [a] 3 [word32 1; word32 1]
         = Throw TypeError).
Proof.
  repeat split; try (vm_compute; reflexivity).
  destruct (traverseBooleans hashFunction [a; b] 3 [false; false] [true; false] [d])
    as [st| |] eqn:E; [|vm_compute in E; discriminate E ..].
  exists st. split; [reflexivity|].
  vm_compute in E. injection E as <-. split; reflexivity.
Qed.

Lemma unchanged_leaves_keep_root_witness :
  getRootBooleans hashFunction [a; b] 2 [true] [false] [] = Ok [2; 2; 1]
  /\ exists c,
       traverseNewBooleans hashFunction [a; b] [a; b] [] 2 [true] [false] []
       = Ok c
       /\ oldRoot c = Some [2; 2; 1] /\ updatedRoot c = Some [2; 2; 1]
       /\ getNewRootBooleans hashFunction [a; b] [a; b] [] 2 [true] [false] []
          = bind (appendPass hashFunction [] 2 ushr32 c)
              (fun final => Ok {| root := [2; 2; 1];
                                  newRoot := final (Num 0) |})
       /\ (@nil Buffer = [] ->
           (exists k, 0 <= k <= 30 /\ 2 = 2 ^ k) ->
           getNewRootBooleans hashFunction [a; b] [a; b] [] 2 [true] [false] []
           = Ok {| root := [2; 2; 1]; newRoot := stack c (Num 0) |}).
Proof.
  assert (H : getRootBooleans hashFunction [a; b] 2 [true] [false] []
              = Ok [2; 2; 1]) by (vm_compute; reflexivity).
  split; [exact H|].
  exact (unchanged_leaves_keep_root hashFunction [a; b] [] 2 [true] [false] []
           [] [2; 2; 1] _ ushr32 _
           (or_introl (conj H (conj eq_refl (conj eq_refl eq_refl))))).
Defined.

(** The four leaves of the sample tree, all proved, replaced by
    themselves, nothing appended: the root is accepted and the new root is
    the hash of the first pair, the first slot of [newHashes].  With one
    element that slot was never written.  With three elements the append
    pass hashes an append decommitment with the missing first append
    leaf, and the call throws. *)
Lemma unchanged_leaves_keep_root_counterexample :
  (getRootBooleans hashFunction (rev leaves) 4 [true; true; true]
     [false; false; false] [] = Ok top
   /\ getNewRootBooleans hashFunction (rev leaves) (rev leaves) [] 4
        [true; true; true] [false; false; false] []
      = Ok {| root := top; newRoot := Some right_node |}
   /\ getRootBits hashFunction (rev leaves) 4 [word32 15; word32 8] = Ok top
   /\ getNewRootBits hashFunction (rev leaves) (rev leaves) [] 4
        [word32 15; word32 8]
      = Ok {| root := top; newRoot := Some right_node |}
   /\ right_node <> top)
  /\ (getRootBooleans hashFunction [a] 1 [] [] [] = Ok [1]
      /\ getNewRootBooleans hashFunction [a] [a] [] 1 [] [] []
         = Ok {| root := [1]; newRoot := None |})
  /\ (getRootBooleans hashFunction [a; b] 3 [false; false] [true; false] [d]
      = Ok [2; 2; 9]
      /\ getNewRootBooleans hashFunction [a; b] [a; b] [] 3
           [false; false] [true; false] [d] = Throw TypeError
      /\ getRootBits hashFunction [a; b] 3 [word32 4; word32 5; d]
         = Ok [2; 2; 9]
      /\ getNewRootBits hashFunction [a; b] [a; b] [] 3
           [word32 4; word32 5; d] = Throw TypeError).
Proof. repeat split; try discriminate; vm_compute; reflexivity. Qed.

(** One skip for no flag, and two replacement leaves for one leaf: both
    calls return. *)
Lemma lengths_are_not_compared_counterexample :
  List.length ([] : list bool) <> List.length [true]
  /\ getRootBooleans hashFunction [a] 1 [] [true] [] = Ok [1]
  /\ List.length [a] <> List.length [a; b]
  /\ getNewRootBooleans hashFunction [a] [a; b] [d] 1 [] [] []
     = Ok {| root := [1]; newRoot := Some [2; 1; 9] |}
  /\ getNewRootBits hashFunction [a] [a; b] [d] 1 [word32 1; word32 1]
     = Ok {| root := [1]; newRoot := Some [2; 1; 9] |}.
Proof. repeat split; try discriminate; vm_compute; reflexivity. Qed.

End Combined.

(* ===================================================================== *)
(** * The loops end *)
(* ===================================================================== *)

Module Termination.

Import Utils CombinedProof Spec Aux BitFacts.

(** ** The packed variant *)

Section Packed.
Variable hashFunction : val -> val -> outcome Buffer.
Hypothesis hash_ends : forall l r, hashFunction l r <> OutOfFuel.

Lemma combine_step_ends leafs decommitments flag st :
  combine_step hashFunction leafs decommitments flag st <> OutOfFuel.
Proof.
  unfold combine_step.
  repeat match goal with
    | |- context [bind (hashFunction ?x ?y) _] =>
        let E := fresh "E" in
        destruct (hashFunction x y) eqn:E; cbn [bind];
        [|discriminate|apply hash_ends in E; contradiction]
    | |- context [bind (if ?c then _ else _) _] => destruct c; cbn [bind]
    end; discriminate.
Qed.

Lemma leftShift_next i :
  0 <= i -> leftShift (2 ^ i mod 2 ^ 256) 1 = 2 ^ (i + 1) mod 2 ^ 256.
Proof.
  intros Hi. unfold leftShift. rewrite Z.shiftl_mul_pow2 by lia.
  rewrite Z.mul_mod_idemp_l by lia. rewrite <- Z.pow_add_r by lia. reflexivity.
Qed.

(** After 256 shifts the test succeeds on every word it can meet. *)
Lemma bit_set_zero w :
  short_word w = true ->
  bit_set w 0 = Ok true \/ bit_set w 0 = Throw TypeError.
Proof.
  intros Hw. destruct w as [b|]; [left|right; reflexivity].
  unfold bit_set. cbn [short_word] in Hw.
  rewrite Hw, Z.land_0_r. reflexivity.
Qed.

(** On a word of more than 32 bytes the test is false. *)
Lemma bit_set_long w bitCheck :
  short_word w = false -> bit_set w bitCheck = Ok false.
Proof.
  destruct w as [b|]; [|discriminate].
  cbn [short_word]. intros Hw. unfold bit_set. rewrite Hw. reflexivity.
Qed.

(** With such a flag or skip word the loop of [getRootBits] never leaves
    through its exit, however many rounds it is given. *)
Lemma loopBits_no_exit leafs decommitments flags skips fuel :
  short_word flags = false \/ short_word skips = false ->
  forall bitCheck st st',
    loopBits hashFunction leafs decommitments flags skips fuel bitCheck st
    <> Ok st'.
Proof.
  intros Hlong.
  induction fuel as [|fuel IH]; intros bitCheck st st'; cbn [loopBits];
    [discriminate|].
  destruct (bit_set flags bitCheck) as [flag|e|] eqn:Ef; cbn [bind];
    try discriminate.
  destruct (bit_set skips bitCheck) as [skip|e|] eqn:Es; cbn [bind];
    try discriminate.
  assert (Hno : skip && flag = false).
  { destruct Hlong as [H|H].
    - rewrite (bit_set_long _ bitCheck H) in Ef. injection Ef as <-.
      apply andb_false_r.
    - rewrite (bit_set_long _ bitCheck H) in Es. injection Es as <-.
      reflexivity. }
  destruct skip.
  - destruct flag; [discriminate Hno|]. apply IH.
  - destruct (combine_step hashFunction leafs decommitments flag st);
      cbn [bind]; try discriminate.
    apply IH.
Qed.

Lemma loopBits_ends leafs decommitments flags skips k :
  short_word flags = true -> short_word skips = true ->
  forall i st fuel,
    Z.of_nat k + i = 256 -> 0 <= i -> (k < fuel)%nat ->
    loopBits hashFunction leafs decommitments flags skips fuel
      (2 ^ i mod 2 ^ 256) st <> OutOfFuel.
Proof.
  intros Sf Ss.
  induction k as [|k IH]; intros i st fuel Hk Hi Hf;
    (destruct fuel as [|fuel]; [lia|]); cbn [loopBits].
  - replace i with 256 by lia. rewrite Z.mod_same by lia.
    destruct (bit_set_zero flags Sf) as [-> | ->]; cbn [bind];
      [|discriminate].
    destruct (bit_set_zero skips Ss) as [-> | ->]; cbn [bind]; discriminate.
  - destruct (bit_set flags (2 ^ i mod 2 ^ 256)) as [flag|e|] eqn:Ef;
      cbn [bind]; try discriminate.
    2:{ destruct flags; discriminate. }
    destruct (bit_set skips (2 ^ i mod 2 ^ 256)) as [skip|e|] eqn:Es;
      cbn [bind]; try discriminate.
    2:{ destruct skips; discriminate. }
    rewrite leftShift_next by lia.
    destruct skip.
    + destruct flag; [discriminate|]. apply IH; lia.
    + destruct (combine_step hashFunction leafs decommitments flag st) eqn:E;
        cbn [bind]; try discriminate.
      * apply IH; lia.
      * apply combine_step_ends in E. contradiction.
Qed.

(** 257 rounds are enough for [getRootBits] on flag and skip words of at
    most 32 bytes. *)
Theorem traverseBits_total leafs elementCount proof :
  short_word (get proof 0) = true -> short_word (get proof 1) = true ->
  traverseBits hashFunction leafs elementCount proof <> OutOfFuel.
Proof.
  intros Sf Ss. unfold traverseBits.
  assert (Hf : (256 < 257)%nat) by lia.
  revert Hf. generalize 257%nat. intros fuel Hf.
  unfold init, new_array.
  repeat match goal with
    | |- context [bind (if ?c then _ else _) _] => destruct c; cbn [bind]
    end; try discriminate.
  change 1 with (2 ^ 0 mod 2 ^ 256).
  apply (loopBits_ends _ _ _ _ 256); [exact Sf|exact Ss|reflexivity|lia|exact Hf].
Qed.

(** X3: with a hash function that returns or throws and a flag word and
    a skip word of at most 32 bytes each (or absent), [getRootBits]
    returns or throws: its [while (true)] loop ends within 257 rounds. *)
Theorem getRootBits_total leafs elementCount proof :
  short_word (get proof 0) = true -> short_word (get proof 1) = true ->
  getRootBits hashFunction leafs elementCount proof <> OutOfFuel.
Proof.
  intros Sf Ss. unfold getRootBits.
  pose proof (traverseBits_total leafs elementCount proof Sf Ss) as H.
  destruct (traverseBits hashFunction leafs elementCount proof) as [st|e|];
    cbn [bind]; [|discriminate|contradiction].
  unfold finish, crossCheck, equals, assert, buffer_from.
  destruct (appendDecommitmentIndex st =? 1); cbn [bind].
  - destruct (rootOf leafs st); discriminate.
  - destruct (hash st), (rootOf leafs st); cbn [bind]; try discriminate.
    destruct (buffer_eqb _ _); cbn [bind]; discriminate.
Qed.

End Packed.

(** ** The append pass *)

Lemma bits_half u : 0 < u -> bits (u / 2) = bits u - 1.
Proof.
  intros Hu. unfold bits.
  destruct (Z.leb_spec u 0); [lia|].
  destruct (Z.leb_spec (u / 2) 0) as [Hh|Hh].
  - assert (u = 1) by (revert Hh; Z.div_mod_to_equations; lia).
    subst u. reflexivity.
  - change 2 with (2 ^ 1). rewrite <- Z.shiftr_div_pow2 by lia.
    rewrite Z.log2_shiftr by lia.
    assert (1 <= Z.log2 u).
    { change 1 with (Z.log2 2). apply Z.log2_le_mono.
      revert Hh. Z.div_mod_to_equations. lia. }
    lia.
Qed.

Lemma bits_bound u : u < 2 ^ 31 -> 0 <= bits u <= 31.
Proof.
  intros Hu. unfold bits. destruct (Z.leb_spec u 0); [lia|].
  pose proof (Z.log2_nonneg u).
  pose proof (proj1 (Z.log2_lt_pow2 u 31 ltac:(lia)) Hu). lia.
Qed.

Section Append.
Variable hashFunction : val -> val -> outcome Buffer.
Hypothesis hash_ends : forall l r, hashFunction l r <> OutOfFuel.
Variable appendLeafs : list Buffer.
Variable elementCount : Z.
Variable halve : Z -> Z -> Z.
Hypothesis halve_half : forall u, 0 <= u < 2 ^ 31 -> halve u 1 = u / 2.
Variable appendDecommitments : array Buffer.

Lemma append_measure_nonneg s : fits s -> 0 <= append_measure s.
Proof.
  intros [_ Hu]. unfold append_measure.
  pose proof (bits_bound _ Hu). lia.
Qed.

(** A level starts below its bound. *)
Lemma next_level nh cur U w r O I :
  0 < U < 2 ^ 31 -> 0 <= O < 2 ^ 31 -> U <= I ->
  let s' := {| a_newHashes := nh; a_cursor := cur;
               a_upperBound := halve U 1; a_writeIndex := w;
               a_readIndex := r; a_offset := ushr32 O 1;
               a_index := ushr32 O 1 |} in
  fits s'
  /\ append_measure s' + 1 <= Z.max 0 (U - O) + 2 * bits U.
Proof.
  intros HU HO HI s'. subst s'. unfold fits, append_measure.
  cbn [a_upperBound a_offset a_index].
  rewrite halve_half, ushr32_half, bits_half by lia.
  split.
  - split; Z.div_mod_to_equations; lia.
  - generalize (bits U). intros k. Z.div_mod_to_equations. lia.
Qed.

Lemma appendLoop_total fuel : forall s,
  fits s -> append_measure s < Z.of_nat fuel ->
  appendLoop hashFunction appendLeafs elementCount halve appendDecommitments
    fuel s <> OutOfFuel.
Proof.
  induction fuel as [|fuel IH]; intros s Hf Hm.
  - pose proof (append_measure_nonneg s Hf). lia.
  - destruct s as [nh cur U w r O I]. cbn [appendLoop].
    cbn [a_newHashes a_cursor a_upperBound a_writeIndex a_readIndex
         a_offset a_index].
    destruct (Z.gtb_spec U 0) as [HU|HU]; [|discriminate].
    destruct Hf as [HO HU']. cbn [a_offset a_upperBound] in HO, HU'.
    unfold append_measure in Hm.
    cbn [a_upperBound a_offset a_index] in Hm.
    assert (Hstep : forall nh' cur' w' r' I',
              I < I' ->
              (I < U \/ U <= I') ->
              appendLoop hashFunction appendLeafs elementCount halve
                appendDecommitments fuel
                (let s1 := {| a_newHashes := nh'; a_cursor := cur';
                              a_upperBound := U; a_writeIndex := w';
                              a_readIndex := r'; a_offset := O;
                              a_index := I' |} in
                 if a_index s1 >=? a_upperBound s1 then
                   {| a_newHashes :=
                        if a_index s1 =? a_upperBound s1
                        then set (a_newHashes s1) (Num (a_writeIndex s1))
                               (readAppend appendLeafs
                                  (O >=? elementCount)
                                  (a_newHashes s1) (a_readIndex s1))
                        else a_newHashes s1;
                      a_cursor := a_cursor s1;
                      a_upperBound := halve (a_upperBound s1) 1;
                      a_writeIndex := 0;
                      a_readIndex := 0;
                      a_offset := ushr32 (a_offset s1) 1;
                      a_index := ushr32 (a_offset s1) 1 |}
                 else s1) <> OutOfFuel).
    { intros nh' cur' w' r' I' HI Hor. cbv zeta.
      cbn [a_newHashes a_cursor a_upperBound a_writeIndex a_readIndex
           a_offset a_index].
      destruct (Z.geb_spec I' U) as [Hge|Hlt].
      - match goal with
        | |- appendLoop _ _ _ _ _ _ {| a_newHashes := ?n |} <> _ =>
            destruct (next_level n cur' U 0 0 O I') as [Hf' Hm']; try lia
        end.
        apply IH; [exact Hf'|]. cbv zeta in Hm'. lia.
      - apply IH.
        + split; assumption.
        + unfold append_measure. cbn [a_upperBound a_offset a_index]. lia. }
    destruct ((w =? 0) && odd I).
    + destruct (hashFunction _ _) as [h|e|] eqn:Eh; cbn [bind];
        [|discriminate|apply hash_ends in Eh; contradiction].
      apply Hstep; lia.
    + destruct (Z.ltb_spec I U) as [Hlt|Hge].
      * destruct (hashFunction _ _) as [h|e|] eqn:Eh; cbn [bind];
          [|discriminate|apply hash_ends in Eh; contradiction].
        apply Hstep; lia.
      * cbn [bind].
        cbn [a_newHashes a_cursor a_upperBound a_writeIndex a_readIndex
             a_offset a_index].
        destruct (Z.geb_spec I U) as [_|]; [|lia].
        match goal with
        | |- appendLoop _ _ _ _ _ _ {| a_newHashes := ?n |} <> _ =>
            destruct (next_level n cur U 0 0 O I) as [Hf' Hm']; try lia
        end.
        apply IH; [exact Hf'|]. cbv zeta in Hm'. lia.
Qed.

End Append.

(** ** The update functions *)

Section Updates.
Variable hashFunction : val -> val -> outcome Buffer.
Hypothesis hash_ends : forall l r, hashFunction l r <> OutOfFuel.
Variable leafs updateLeafs appendLeafs : list Buffer.
Variable elementCount : Z.

Ltac hash_cases :=
  repeat match goal with
    | |- context [bind (hashFunction ?x ?y) _] =>
        let E := fresh "E" in
        destruct (hashFunction x y) eqn:E; cbn [bind];
        [|discriminate|apply hash_ends in E; contradiction]
    end.

Lemma pair_new_ends decommitments flag ns rightMost hash1 cursor1 appendDecommitments1 :
  pair_new hashFunction leafs updateLeafs decommitments flag ns rightMost
    hash1 cursor1 appendDecommitments1 <> OutOfFuel.
Proof. unfold pair_new. hash_cases. discriminate. Qed.

Lemma combine_newBooleans_ends decommitments flag ns :
  combine_newBooleans hashFunction leafs updateLeafs decommitments flag ns
  <> OutOfFuel.
Proof.
  unfold combine_newBooleans.
  destruct (num_eqb _ _ && odd _); hash_cases; apply pair_new_ends.
Qed.

Lemma combine_newBits_ends decommitments flag ns :
  combine_newBits hashFunction leafs updateLeafs decommitments flag ns
  <> OutOfFuel.
Proof.
  unfold combine_newBits.
  destruct (num_eqb _ _); [destruct (odd _)|]; hash_cases;
    apply pair_new_ends.
Qed.

Lemma loopNewBooleans_ends decommitments flags skips n : forall i ns,
  loopNewBooleans hashFunction leafs updateLeafs decommitments flags skips
    n i ns <> OutOfFuel.
Proof.
  induction n as [|n IH]; intros i ns; cbn [loopNewBooleans]; [discriminate|].
  destruct (truthy skips i); cbn [bind]; [apply IH|].
  destruct (combine_newBooleans hashFunction leafs updateLeafs decommitments
              (truthy flags i) ns) eqn:E; cbn [bind];
    [apply IH|discriminate|apply combine_newBooleans_ends in E; contradiction].
Qed.

Lemma loopNewBits_ends decommitments flags skips k :
  short_word flags = true -> short_word skips = true ->
  forall i ns fuel,
    Z.of_nat k + i = 256 -> 0 <= i -> (k < fuel)%nat ->
    loopNewBits hashFunction leafs updateLeafs decommitments flags skips fuel
      (2 ^ i mod 2 ^ 256) ns <> OutOfFuel.
Proof.
  intros Sf Ss.
  induction k as [|k IH]; intros i ns fuel Hk Hi Hf;
    (destruct fuel as [|fuel]; [lia|]); cbn [loopNewBits].
  - replace i with 256 by lia. rewrite Z.mod_same by lia.
    destruct (bit_set_zero flags Sf) as [-> | ->]; cbn [bind];
      [|discriminate].
    destruct (bit_set_zero skips Ss) as [-> | ->]; cbn [bind]; discriminate.
  - destruct (bit_set flags (2 ^ i mod 2 ^ 256)) as [flag|e|] eqn:Ef;
      cbn [bind]; try discriminate.
    2:{ destruct flags; discriminate. }
    destruct (bit_set skips (2 ^ i mod 2 ^ 256)) as [skip|e|] eqn:Es;
      cbn [bind]; try discriminate.
    2:{ destruct skips; discriminate. }
    rewrite leftShift_next by lia.
    destruct skip.
    + destruct flag; [discriminate|]. apply IH; lia.
    + destruct (combine_newBits hashFunction leafs updateLeafs decommitments
                  flag ns) eqn:E; cbn [bind]; try discriminate.
      * apply IH; lia.
      * apply combine_newBits_ends in E. contradiction.
Qed.

Lemma checkNew_ends ns : checkNew leafs updateLeafs ns <> OutOfFuel.
Proof.
  unfold checkNew, crossCheck, equals, assert.
  destruct (appendDecommitmentIndex (base ns) =? 1); cbn [bind];
    [discriminate|].
  destruct (hash (base ns)); [|discriminate].
  destruct (if useLeafs (base ns) then _ else _); [|discriminate].
  cbn [bind]. destruct (buffer_eqb _ _); discriminate.
Qed.

Lemma initNew_ends : initNew leafs appendLeafs elementCount <> OutOfFuel.
Proof.
  unfold initNew, new_array.
  repeat match goal with
    | |- context [bind (if ?c then _ else _) _] => destruct c; cbn [bind]
    end; discriminate.
Qed.

Lemma traverseNewBooleans_ends decommitments flags skips :
  traverseNewBooleans hashFunction leafs updateLeafs appendLeafs elementCount
    flags skips decommitments <> OutOfFuel.
Proof.
  unfold traverseNewBooleans.
  pose proof initNew_ends as Hi.
  destruct (initNew leafs appendLeafs elementCount) as [ns| |]; cbn [bind];
    [|discriminate|contradiction].
  pose proof (loopNewBooleans_ends decommitments flags skips
                (List.length flags) 0 ns) as Hl.
  destruct (loopNewBooleans _ _ _ _ _ _ _ _ _); cbn [bind];
    [apply checkNew_ends|discriminate|contradiction].
Qed.

Lemma traverseNewBits_ends proof :
  short_word (get proof 0) = true -> short_word (get proof 1) = true ->
  traverseNewBits hashFunction leafs updateLeafs appendLeafs elementCount
    proof <> OutOfFuel.
Proof.
  intros Sf Ss. unfold traverseNewBits.
  assert (Hf : (256 < 257)%nat) by lia.
  revert Hf. generalize 257%nat. intros fuel Hf.
  pose proof initNew_ends as Hi.
  destruct (initNew leafs appendLeafs elementCount) as [ns| |]; cbn [bind];
    [|discriminate|contradiction].
  pose proof (loopNewBits_ends (skipn 2 proof) (get proof 0) (get proof 1)
                256 Sf Ss 0 ns fuel
                eq_refl ltac:(lia) Hf) as Hl.
  change (2 ^ 0 mod 2 ^ 256) with 1 in Hl.
  destruct (loopNewBits _ _ _ _ _ _ _ _ _); cbn [bind];
    [apply checkNew_ends|discriminate|contradiction].
Qed.

Hypothesis count_fits :
  0 <= elementCount
  /\ elementCount + Z.of_nat (List.length appendLeafs) < 2 ^ 31.

Lemma appendPass_total halve c :
  (forall u, 0 <= u < 2 ^ 31 -> halve u 1 = u / 2) ->
  appendPass hashFunction appendLeafs elementCount halve c <> OutOfFuel.
Proof.
  intros Hh. unfold appendPass.
  apply (appendLoop_total hashFunction hash_ends); [exact Hh| |].
  - unfold fits. cbn [a_offset a_upperBound]. lia.
  - unfold append_measure, appendFuel. cbn [a_offset a_upperBound a_index].
    pose proof (bits_bound
                  (elementCount + Z.of_nat (List.length appendLeafs) - 1)
                  ltac:(lia)).
    lia.
Qed.

(** X4: with a hash function that returns or throws, a non-negative
    [elementCount] and [elementCount + appendLeafs.length] below [2^31],
    [getNewRootBooleans] returns or throws: the rounds its append pass is
    followed for are enough. *)
Theorem getNewRootBooleans_total flags skips decommitments :
  getNewRootBooleans hashFunction leafs updateLeafs appendLeafs elementCount
    flags skips decommitments <> OutOfFuel.
Proof.
  unfold getNewRootBooleans.
  pose proof (traverseNewBooleans_ends decommitments flags skips) as Ht.
  destruct (traverseNewBooleans _ _ _ _ _ _ _ _) as [c| |]; cbn [bind];
    [|discriminate|contradiction].
  pose proof (appendPass_total ushr32 c
                (fun u Hu => ushr32_half u ltac:(lia))) as Ha.
  destruct (appendPass _ _ _ _ _); cbn [bind]; [|discriminate|contradiction].
  destruct (oldRoot c); discriminate.
Qed.

(** X5: under the same conditions and with a flag word and a skip word
    of at most 32 bytes each (or absent), [getNewRootBits] returns or
    throws: its [while (true)] loop ends within 257 rounds, and the
    rounds its append pass is followed for are enough. *)
Theorem getNewRootBits_total proof :
  short_word (get proof 0) = true -> short_word (get proof 1) = true ->
  getNewRootBits hashFunction leafs updateLeafs appendLeafs elementCount proof
  <> OutOfFuel.
Proof.
  intros Sf Ss. unfold getNewRootBits.
  pose proof (traverseNewBits_ends proof Sf Ss) as Ht.
  destruct (traverseNewBits _ _ _ _ _ _) as [c| |]; cbn [bind];
    [|discriminate|contradiction].
  pose proof (appendPass_total shr32 c shr32_half) as Ha.
  destruct (appendPass _ _ _ _ _); cbn [bind]; [|discriminate|contradiction].
  destruct (oldRoot c); discriminate.
Qed.

End Updates.

Lemma getRootBits_total_witness :
  (forall l r, Sample.hashFunction l r <> OutOfFuel)
  /\ short_word (get [Sample.word32 3; Sample.word32 2] 0) = true
  /\ short_word (get [Sample.word32 3; Sample.word32 2] 1) = true
  /\ getRootBits Sample.hashFunction [Sample.a; Sample.b] 2
       [Sample.word32 3; Sample.word32 2] <> OutOfFuel.
Proof.
  assert (H : forall l r, Sample.hashFunction l r <> OutOfFuel).
  { intros [l|] [r|]; discriminate. }
  assert (S0 : short_word (get [Sample.word32 3; Sample.word32 2] 0) = true)
    by reflexivity.
  assert (S1 : short_word (get [Sample.word32 3; Sample.word32 2] 1) = true)
    by reflexivity.
  split; [exact H|]. split; [exact S0|]. split; [exact S1|].
  exact (getRootBits_total Sample.hashFunction H [Sample.a; Sample.b] 2
           [Sample.word32 3; Sample.word32 2] S0 S1).
Defined.

Lemma getNewRootBooleans_total_witness :
  (forall l r, Sample.hashFunction l r <> OutOfFuel)
  /\ (0 <= 1 /\ 1 + Z.of_nat (List.length [Sample.d]) < 2 ^ 31)
  /\ getNewRootBooleans Sample.hashFunction [Sample.a] [Sample.b] [Sample.d] 1
       [] [] [] <> OutOfFuel.
Proof.
  assert (H : forall l r, Sample.hashFunction l r <> OutOfFuel).
  { intros [l|] [r|]; discriminate. }
  assert (Hc : 0 <= 1 /\ 1 + Z.of_nat (List.length [Sample.d]) < 2 ^ 31).
  { split; [discriminate|reflexivity]. }
  split; [exact H|]. split; [exact Hc|].
  exact (getNewRootBooleans_total Sample.hashFunction H [Sample.a] [Sample.b]
           [Sample.d] 1 Hc [] [] []).
Defined.

Lemma getNewRootBits_total_witness :
  (forall l r, Sample.hashFunction l r <> OutOfFuel)
  /\ (0 <= 1 /\ 1 + Z.of_nat (List.length [Sample.d]) < 2 ^ 31)
  /\ short_word (get [Sample.word32 1; Sample.word32 1] 0) = true
  /\ short_word (get [Sample.word32 1; Sample.word32 1] 1) = true
  /\ getNewRootBits Sample.hashFunction [Sample.a] [Sample.b] [Sample.d] 1
       [Sample.word32 1; Sample.word32 1] <> OutOfFuel.
Proof.
  assert (H : forall l r, Sample.hashFunction l r <> OutOfFuel).
  { intros [l|] [r|]; discriminate. }
  assert (Hc : 0 <= 1 /\ 1 + Z.of_nat (List.length [Sample.d]) < 2 ^ 31).
  { split; [discriminate|reflexivity]. }
  assert (S0 : short_word (get [Sample.word32 1; Sample.word32 1] 0) = true)
    by reflexivity.
  assert (S1 : short_word (get [Sample.word32 1; Sample.word32 1] 1) = true)
    by reflexivity.
  split; [exact H|]. split; [exact Hc|]. split; [exact S0|].
  split; [exact S1|].
  exact (getNewRootBits_total Sample.hashFunction H [Sample.a] [Sample.b]
           [Sample.d] 1 Hc [Sample.word32 1; Sample.word32 1] S0 S1).
Defined.

End Termination.

(* ===================================================================== *)
(** * The later utilities: bit counts and powers of two *)
(* ===================================================================== *)

Module HelperBits.

Import Utils Spec Aux Notions BitFacts BitCount.

Lemma and32_ushr32_mask a s m :
  0 <= s < 32 -> 0 <= m < 2 ^ (32 - s) -> m < 2 ^ 31 ->
  and32 (ushr32 a s) m = and32 (shr32 a s) m.
Proof.
  intros Hs Hm Hm'. rewrite and32_shr32_mask by lia.
  rewrite and32_mask by lia. unfold ushr32, toUint32.
  rewrite (Z.mod_small s 32) by lia.
  rewrite (Z.mod_small (Z.shiftr _ _)); [reflexivity|].
  pose proof (Z.mod_pos_bound a (2 ^ 32) ltac:(lia)) as Ha.
  rewrite Z.shiftr_div_pow2 by lia. split.
  - apply Z.div_pos; lia.
  - apply Z.div_lt_upper_bound; [lia|].
    assert (1 <= 2 ^ s) by (apply Z.pow_le_mono_r with (b := 0); lia). nia.
Qed.

Lemma shifts_agree m s :
  0 <= m < 2 ^ 31 -> 0 <= s < 32 -> ushr32 m s = shr32 m s.
Proof.
  intros Hm Hs. unfold ushr32, shr32, toUint32.
  rewrite toInt32_small, Z.mod_small by lia. reflexivity.
Qed.

Lemma bitCount32_shifts n : Helpers.bitCount32 n = Utils.bitCount32 n.
Proof.
  pose proof (bitCount32_popcount n) as Hp.
  pose proof (popcount_bounds 32 (n mod 2 ^ 32)) as Hb.
  rewrite <- Hp in Hb. clear Hp. revert Hb.
  unfold Helpers.bitCount32, Utils.bitCount32.
  rewrite !and32_ushr32_mask by lia.
  set (m1 := n - and32 (shr32 n 1) 0x55555555).
  set (m2 := and32 m1 0x33333333 + and32 (shr32 m1 2) 0x33333333).
  assert (H2 : 0 <= m2 < 2 ^ 31).
  { subst m2. rewrite and32_shr32_mask, and32_mask by lia.
    pose proof (Z.land_nonneg (m1 mod 2 ^ 32) 0x33333333).
    pose proof (Z.land_nonneg (Z.shiftr (m1 mod 2 ^ 32) 2) 0x33333333).
    assert (Hle : forall x, 0 <= x -> Z.land x 0x33333333 < 2 ^ 30).
    { intros x Hx. rewrite Z.land_comm.
      apply (land_below 0x33333333 x 30); lia. }
    pose proof (Z.mod_pos_bound m1 (2 ^ 32) ltac:(lia)).
    pose proof (Hle (m1 mod 2 ^ 32) ltac:(lia)).
    pose proof (Hle (Z.shiftr (m1 mod 2 ^ 32) 2)
                  ltac:(apply Z.shiftr_nonneg; lia)).
    lia. }
  rewrite (shifts_agree m2 4) by lia.
  set (P := and32 (m2 + shr32 m2 4) 0xf0f0f0f * 0x1010101).
  intros Hb. unfold ushr32, shr32, toUint32.
  assert (0 <= toInt32 P).
  { apply (Z.shiftr_nonneg _ (24 mod 32)). unfold shr32 in Hb. lia. }
  pose proof (toInt32_range P). pose proof (toInt32_eqm P) as E.
  rewrite Z.mod_small in E by lia. rewrite <- E. reflexivity.
Qed.

(** X6: the two versions of [bitCount32], with [>>>] and with [>>],
    return the same number for every integer. *)
Theorem bitCount32_versions_agree n :
  Helpers.bitCount32 n = Utils.bitCount32 n.
Proof. exact (bitCount32_shifts n). Qed.

(** ** Powers of two *)

Lemma popcount_pow2 b : forall k,
  0 <= k < Z.of_nat b -> popcount b (2 ^ k) = 1.
Proof.
  induction b as [|b IH]; intros k Hk; [lia|].
  cbn [popcount].
  destruct (Z.eq_dec k 0) as [->|Hne].
  - change (2 ^ 0) with 1. change (1 / 2) with 0. cbn [Z.odd Z.b2z].
    assert (E : popcount b 0 = 0).
    { clear. induction b as [|b IH]; [reflexivity|].
      cbn [popcount]. change (0 / 2) with 0. rewrite IH. reflexivity. }
    rewrite E. reflexivity.
  - replace k with (Z.succ (k - 1)) by lia.
    rewrite Z.pow_succ_r by lia.
    rewrite Z.odd_mul. cbn [Z.odd andb Z.b2z].
    rewrite Z.mul_comm, Z.div_mul by lia.
    rewrite IH by lia. reflexivity.
Qed.

Lemma popcount_one b : forall x,
  0 <= x < 2 ^ Z.of_nat b -> popcount b x = 1 ->
  exists k, 0 <= k < Z.of_nat b /\ x = 2 ^ k.
Proof.
  induction b as [|b IH]; intros x Hx H; [discriminate|].
  cbn [popcount] in H.
  rewrite Nat2Z.inj_succ, Z.pow_succ_r in Hx by lia.
  pose proof (popcount_bounds b (x / 2)) as Hb.
  pose proof (Zmod_odd x) as Hm.
  assert (Hh : 0 <= x / 2 < 2 ^ Z.of_nat b).
  { split; [apply Z.div_pos; lia|apply Z.div_lt_upper_bound; lia]. }
  destruct (Z.odd x) eqn:Ho; cbn [Z.b2z] in H.
  - assert (Hq : popcount b (x / 2) = 0) by lia.
    apply Combined.popcount_zero in Hq. rewrite Z.mod_small in Hq by lia.
    exists 0. split; [lia|]. change (2 ^ 0) with 1.
    pose proof (Z.div_mod x 2 ltac:(lia)). lia.
  - destruct (IH (x / 2) Hh ltac:(lia)) as [k [Hk E]].
    exists (Z.succ k). split; [lia|].
    rewrite Z.pow_succ_r by lia. rewrite <- E.
    pose proof (Z.div_mod x 2 ltac:(lia)). lia.
Qed.

(** One step of the cascade, on a count below [2^31]. *)
Lemma or32_ushr32 x s :
  0 <= x < 2 ^ 31 -> 0 <= s < 32 ->
  Helpers.or32 x (ushr32 x s) = Z.lor x (Z.shiftr x s)
  /\ 0 <= Z.lor x (Z.shiftr x s) < 2 ^ 31.
Proof.
  intros Hx Hs.
  assert (Hs' : 0 <= Z.shiftr x s < 2 ^ 31).
  { rewrite Z.shiftr_div_pow2 by lia.
    assert (1 <= 2 ^ s) by (apply Z.pow_le_mono_r with (b := 0); lia).
    split; [apply Z.div_pos; lia|].
    apply Z.div_lt_upper_bound; [lia|nia]. }
  split.
  - unfold Helpers.or32, ushr32, toUint32.
    rewrite (Z.mod_small x), (Z.mod_small s) by lia.
    rewrite !toInt32_small by lia. reflexivity.
  - split; [apply Z.lor_nonneg; lia|].
    destruct (Z.eq_dec (Z.lor x (Z.shiftr x s)) 0) as [->|Hne]; [lia|].
    apply Z.log2_lt_pow2.
    + pose proof (proj2 (Z.lor_nonneg x (Z.shiftr x s)) ltac:(lia)). lia.
    + rewrite Z.log2_lor by lia.
      assert (Hl : forall y, 0 <= y < 2 ^ 31 -> Z.log2 y < 31).
      { intros y Hy. destruct (Z.eq_dec y 0) as [->|]; [cbn; lia|].
        apply Z.log2_lt_pow2; lia. }
      pose proof (Hl x Hx). pose proof (Hl _ Hs'). lia.
Qed.

Section Cascade.
Variable n : Z.

Lemma spread_start : spread n 1 n.
Proof.
  intros i Hi. split.
  - intros H. exists 0. split; [lia|]. rewrite Z.add_0_r. exact H.
  - intros [j [Hj H]]. replace i with (i + j) by lia. exact H.
Qed.

Lemma spread_step m x s :
  0 <= s <= m -> spread n m x -> spread n (m + s) (Z.lor x (Z.shiftr x s)).
Proof.
  intros Hs H i Hi. rewrite Z.lor_spec, Z.shiftr_spec by lia.
  rewrite orb_true_iff, (H i Hi), (H (i + s) ltac:(lia)). split.
  - intros [[j [Hj E]]|[j [Hj E]]].
    + exists j. split; [lia|exact E].
    + exists (s + j). split; [lia|]. rewrite Z.add_assoc. exact E.
  - intros [j [Hj E]].
    destruct (Z_lt_dec j m).
    + left. exists j. split; [lia|exact E].
    + right. exists (j - s). split; [lia|].
      replace (i + s + (j - s)) with (i + j) by lia. exact E.
Qed.

Lemma spread_ones x :
  0 < n < 2 ^ 31 -> spread n 32 x -> x = Z.ones (Z.log2 n + 1).
Proof.
  intros Hn H.
  assert (Hk : 0 <= Z.log2 n < 31).
  { split; [apply Z.log2_nonneg|apply Z.log2_lt_pow2; lia]. }
  apply Z.bits_inj'. intros i Hi.
  rewrite Z.testbit_ones_nonneg by lia.
  destruct (Z.ltb_spec i (Z.log2 n + 1)) as [Hlt|Hge].
  - apply (H i Hi). exists (Z.log2 n - i). split; [lia|].
    replace (i + (Z.log2 n - i)) with (Z.log2 n) by lia.
    apply Z.bit_log2. lia.
  - destruct (Z.testbit x i) eqn:E; [|reflexivity].
    apply (H i Hi) in E. destruct E as [j [Hj E]].
    rewrite Z.bits_above_log2 in E by lia. discriminate.
Qed.

End Cascade.

(** X7: for a count between 1 and [2^31], [roundUpToPowerOf2] returns
    the least power of two that is not below it. *)
Theorem roundUpToPowerOf2_least n :
  1 <= n <= 2 ^ 31 ->
  Helpers.roundUpToPowerOf2 n = 2 ^ Z.log2_up n
  /\ n <= Helpers.roundUpToPowerOf2 n
  /\ (forall j, 0 <= j -> n <= 2 ^ j -> Helpers.roundUpToPowerOf2 n <= 2 ^ j).
Proof.
  intros Hn.
  assert (E : Helpers.roundUpToPowerOf2 n = 2 ^ Z.log2_up n).
  { unfold Helpers.roundUpToPowerOf2.
    rewrite bitCount32_shifts, bitCount32_popcount.
    rewrite (Z.mod_small n) by lia.
    destruct (Z.eqb_spec (popcount 32 n) 1) as [H1|H1].
    - apply popcount_one in H1; [|change (Z.of_nat 32) with 32; lia].
      destruct H1 as [k [Hk ->]]. rewrite Z.log2_up_pow2 by lia. reflexivity.
    - assert (Hlt : n < 2 ^ 31).
      { destruct (Z.eq_dec n (2 ^ 31)) as [->|]; [|lia].
        exfalso. apply H1. apply (popcount_pow2 32 31). cbn. lia. }
      assert (Hk : 0 <= Z.log2 n < 31).
      { split; [apply Z.log2_nonneg|apply Z.log2_lt_pow2; lia]. }
      assert (Hne : n <> 2 ^ Z.log2 n).
      { intros Eq. apply H1. rewrite Eq. apply popcount_pow2.
        change (Z.of_nat 32) with 32. lia. }
      pose proof (Z.log2_spec n ltac:(lia)) as Hs.
      destruct (or32_ushr32 n 1) as [-> H2]; [lia|lia|].
      destruct (or32_ushr32 _ 2 H2) as [-> H3]; [lia|].
      destruct (or32_ushr32 _ 4 H3) as [-> H4]; [lia|].
      destruct (or32_ushr32 _ 8 H4) as [-> H5]; [lia|].
      destruct (or32_ushr32 _ 16 H5) as [-> H6]; [lia|].
      pose proof (spread_start n) as S1.
      apply (spread_step n 1 _ 1) in S1; [|lia].
      apply (spread_step n 2 _ 2) in S1; [|lia].
      apply (spread_step n 4 _ 4) in S1; [|lia].
      apply (spread_step n 8 _ 8) in S1; [|lia].
      apply (spread_step n 16 _ 16) in S1; [|lia].
      rewrite (spread_ones n _ ltac:(lia) S1).
      rewrite Z.ones_equiv.
      rewrite (Z.log2_up_unique n (Z.log2 n + 1)); [lia|lia|].
      replace (Z.pred (Z.log2 n + 1)) with (Z.log2 n) by lia.
      replace (Z.log2 n + 1) with (Z.succ (Z.log2 n)) by lia. lia. }
  rewrite E.
  pose proof (Z.log2_log2_up_spec n ltac:(lia)) as Hs.
  split; [reflexivity|]. split; [lia|].
  intros j Hj Hle. apply Z.pow_le_mono_r; [lia|].
  apply Z.log2_up_le_pow2; lia.
Qed.

Lemma roundUpToPowerOf2_least_witness :
  1 <= 5 <= 2 ^ 31
  /\ Helpers.roundUpToPowerOf2 5 = 2 ^ Z.log2_up 5
  /\ 5 <= Helpers.roundUpToPowerOf2 5
  /\ (forall j, 0 <= j -> 5 <= 2 ^ j -> Helpers.roundUpToPowerOf2 5 <= 2 ^ j).
Proof.
  assert (H : 1 <= 5 <= 2 ^ 31) by (split; discriminate).
  split; [exact H|]. exact (roundUpToPowerOf2_least 5 H).
Defined.

(** ** Counts above [2^31] *)

(** An int32 with bit 31 set is negative: its bits from 31 on are set. *)
Lemma toInt32_high x i :
  Z.testbit x 31 = true -> 31 <= i -> Z.testbit (toInt32 x) i = true.
Proof.
  intros Hx Hi.
  pose proof (toInt32_range x) as Hr.
  assert (H31 : Z.testbit (toInt32 x) 31 = true)
    by (rewrite toInt32_testbit by lia; exact Hx).
  assert (Hneg : toInt32 x < 0).
  { destruct (Z_lt_dec (toInt32 x) 0) as [|Hge]; [assumption|].
    rewrite (mask_high_bits (toInt32 x) 31) in H31; [discriminate|lia|lia]. }
  destruct (Z.eq_dec i 31) as [->|Hne]; [exact H31|].
  apply (Z.bits_iff_neg (toInt32 x) i); [|exact Hneg].
  assert (Hl : Z.log2 (Z.abs (toInt32 x)) <= Z.log2 (2 ^ 31))
    by (apply Z.log2_le_mono; lia).
  rewrite Z.log2_pow2 in Hl by lia. lia.
Qed.

(** One step of the cascade on a count with bit 31 set: the bits set
    below 32 spread down by [s], and the sign fills the bits above. *)
Lemma or32_ushr32_high x s m :
  1 <= s <= m -> s < 32 ->
  (forall i, 0 <= i < 32 -> 32 - m <= i -> Z.testbit x i = true) ->
  forall i, 0 <= i -> 32 - (m + s) <= i ->
    Z.testbit (Helpers.or32 x (ushr32 x s)) i = true.
Proof.
  intros Hs Hs32 Hx i Hi Him.
  unfold Helpers.or32. rewrite Z.lor_spec. apply orb_true_iff.
  destruct (Z_le_dec 31 i) as [Hhi|Hlo].
  - left. apply toInt32_high; [apply Hx; lia|exact Hhi].
  - rewrite !toInt32_testbit by lia.
    destruct (Z_le_dec (32 - m) i) as [Hin|Hout].
    + left. apply Hx; lia.
    + right. unfold ushr32, toUint32.
      rewrite (Z.mod_small s) by lia.
      rewrite Z.shiftr_spec, Z.mod_pow2_bits_low by lia.
      apply Hx; lia.
Qed.

(** X23: above [2^31] and below [2^32] there is no power of two to
    return: [roundUpToPowerOf2] returns 0. *)
Theorem roundUpToPowerOf2_wraps n :
  2 ^ 31 < n < 2 ^ 32 -> Helpers.roundUpToPowerOf2 n = 0.
Proof.
  intros Hn. unfold Helpers.roundUpToPowerOf2.
  rewrite bitCount32_shifts, bitCount32_popcount.
  rewrite (Z.mod_small n) by lia.
  destruct (Z.eqb_spec (popcount 32 n) 1) as [H1|_].
  { apply popcount_one in H1; [|change (Z.of_nat 32) with 32; lia].
    destruct H1 as [k [Hk E]]. exfalso.
    assert (2 ^ k <= 2 ^ 31) by (apply Z.pow_le_mono_r; lia). lia. }
  assert (H0 : forall i, 0 <= i < 32 -> 32 - 1 <= i -> Z.testbit n i = true).
  { intros i Hi1 Hi2. replace i with (Z.log2 n).
    - apply Z.bit_log2. lia.
    - apply Z.log2_unique; [lia|]. replace (Z.succ i) with 32 by lia.
      replace i with 31 by lia. lia. }
  pose proof (or32_ushr32_high n 1 1 ltac:(lia) ltac:(lia) H0) as B1.
  pose proof (or32_ushr32_high _ 2 2 ltac:(lia) ltac:(lia)
                (fun i Hi Hm => B1 i (proj1 Hi) Hm)) as B2.
  pose proof (or32_ushr32_high _ 4 4 ltac:(lia) ltac:(lia)
                (fun i Hi Hm => B2 i (proj1 Hi) Hm)) as B3.
  pose proof (or32_ushr32_high _ 8 8 ltac:(lia) ltac:(lia)
                (fun i Hi Hm => B3 i (proj1 Hi) Hm)) as B4.
  pose proof (or32_ushr32_high _ 16 16 ltac:(lia) ltac:(lia)
                (fun i Hi Hm => B4 i (proj1 Hi) Hm)) as B5.
  match goal with
  | |- ?v + 1 = 0 => assert (E : v = -1)
  end.
  { apply Z.bits_inj'. intros i Hi. rewrite Z.bits_m1 by lia.
    apply B5; lia. }
  rewrite E. reflexivity.
Qed.

Lemma roundUpToPowerOf2_wraps_witness :
  2 ^ 31 < 2 ^ 31 + 1 < 2 ^ 32
  /\ Helpers.roundUpToPowerOf2 (2 ^ 31 + 1) = 0.
Proof.
  assert (H : 2 ^ 31 < 2 ^ 31 + 1 < 2 ^ 32) by (split; reflexivity).
  split; [exact H|]. exact (roundUpToPowerOf2_wraps (2 ^ 31 + 1) H).
Defined.

End HelperBits.

(* ===================================================================== *)
(** * The later utilities: buffers *)
(* ===================================================================== *)

Module HelperBuffers.

Import Utils CombinedProof Spec Aux Notions BitFacts BitCount Encode32.
Import Helpers.

(** ** Big-endian encodings and their reading *)

Lemma length_encode_be len : forall n, List.length (encode_be len n) = len.
Proof.
  induction len as [|len IH]; intros n; [reflexivity|].
  cbn [encode_be]. rewrite length_app, IH. cbn. lia.
Qed.

Lemma encode_be_bytes len : forall n,
  forallb (fun x => (0 <=? x) && (x <? 256)) (encode_be len n) = true.
Proof.
  induction len as [|len IH]; intros n; [reflexivity|].
  cbn [encode_be]. rewrite forallb_app, IH. cbn [forallb].
  pose proof (Z.mod_pos_bound n 256 ltac:(lia)).
  destruct (Z.leb_spec 0 (n mod 256)); [|lia].
  destruct (Z.ltb_spec (n mod 256) 256); [reflexivity|lia].
Qed.

Lemma word_snoc b y : word (b ++ [y]) = word b * 256 + y.
Proof. unfold word. rewrite fold_left_app. reflexivity. Qed.

Lemma word_encode_be len : forall n,
  0 <= n -> word (encode_be len n) = n mod 256 ^ Z.of_nat len.
Proof.
  induction len as [|len IH]; intros n Hn.
  - cbn. rewrite Z.mod_1_r. reflexivity.
  - cbn [encode_be]. rewrite word_snoc, IH by (apply Z.div_pos; lia).
    rewrite Nat2Z.inj_succ, Z.pow_succ_r by lia.
    rewrite (Z.rem_mul_r n 256 (256 ^ Z.of_nat len)) by lia. lia.
Qed.

Lemma word_encode32 x : 0 <= x < 2 ^ 256 -> word (encode_be 32 x) = x.
Proof.
  intros Hx. rewrite word_encode_be by lia.
  change (256 ^ Z.of_nat 32) with (2 ^ 256). apply Z.mod_small. exact Hx.
Qed.

Lemma encode_be_last4 len n :
  encode_be (4 + len) n
  = encode_be len (n / 256 / 256 / 256 / 256)
    ++ [n / 256 / 256 / 256 mod 256; n / 256 / 256 mod 256;
        n / 256 mod 256; n mod 256].
Proof.
  change (4 + len)%nat with (S (S (S (S len)))). cbn [encode_be].
  rewrite <- !app_assoc. reflexivity.
Qed.

Lemma get_app_r {A} (p l : list A) i :
  0 <= i -> get (p ++ l) (Z.of_nat (List.length p) + i) = get l i.
Proof.
  intros Hi. unfold get.
  destruct (Z.ltb_spec (Z.of_nat (List.length p) + i) 0); [lia|].
  destruct (Z.ltb_spec i 0); [lia|].
  rewrite nth_error_app2 by lia. f_equal. lia.
Qed.

Lemma get4 {A} (a b c d : A) :
  get [a; b; c; d] 0 = Some a /\ get [a; b; c; d] 1 = Some b
  /\ get [a; b; c; d] 2 = Some c /\ get [a; b; c; d] 3 = Some d.
Proof. repeat split; reflexivity. Qed.

(** X8: [from32ByteBuffer] reads back the low 32 bits of what
    [to32ByteBuffer] wrote: a count below [2^32] comes back as it is.  On a
    buffer of fewer than 32 bytes it throws a [RangeError]. *)
Theorem from32ByteBuffer_reads_back n :
  0 <= n < 2 ^ 256 ->
  (exists b,
     to32ByteBuffer n = Ok b
     /\ from32ByteBuffer (Some b) = Ok (n mod 2 ^ 32)
     /\ (n < 2 ^ 32 -> from32ByteBuffer (Some b) = Ok n))
  /\ (forall short, (List.length short < 32)%nat ->
        from32ByteBuffer (Some short) = Throw RangeError).
Proof.
  intros Hn. split.
  - exists (encode_be 32 n). split; [apply to32ByteBuffer_in_range; exact Hn|].
    assert (E : from32ByteBuffer (Some (encode_be 32 n)) = Ok (n mod 2 ^ 32)).
    { unfold from32ByteBuffer, readUInt32BE.
      change 32%nat with (4 + 28)%nat. rewrite encode_be_last4.
      set (p := encode_be 28 (n / 256 / 256 / 256 / 256)).
      assert (Hp : Z.of_nat (List.length p) = 28).
      { subst p. rewrite length_encode_be. reflexivity. }
      rewrite <- Hp.
      rewrite <- (Z.add_0_r (Z.of_nat (List.length p))) at 1.
      replace (Z.of_nat (List.length p) + 0 + 3)
        with (Z.of_nat (List.length p) + 3) by lia.
      replace (Z.of_nat (List.length p) + 0 + 1)
        with (Z.of_nat (List.length p) + 1) by lia.
      replace (Z.of_nat (List.length p) + 0 + 2)
        with (Z.of_nat (List.length p) + 2) by lia.
      rewrite !get_app_r by lia.
      destruct (get4 (n / 256 / 256 / 256 mod 256) (n / 256 / 256 mod 256)
                  (n / 256 mod 256) (n mod 256)) as (-> & -> & -> & ->).
      f_equal.
      change (2 ^ 24) with 16777216. change (2 ^ 16) with 65536.
      change (2 ^ 8) with 256. change (2 ^ 32) with 4294967296.
      Z.div_mod_to_equations. lia. }
    split; [exact E|]. intros Hs. rewrite E. f_equal. apply Z.mod_small. lia.
  - intros short Hs. unfold from32ByteBuffer, readUInt32BE.
    assert (E : get short (28 + 3) = None).
    { unfold get. change (28 + 3 <? 0) with false. cbv iota.
      apply nth_error_None. change (Z.to_nat (28 + 3)) with 31%nat. lia. }
    rewrite E. destruct (get short 28); reflexivity.
Qed.

Lemma from32ByteBuffer_reads_back_witness :
  0 <= 4000000000 < 2 ^ 256
  /\ (exists b,
        to32ByteBuffer 4000000000 = Ok b
        /\ from32ByteBuffer (Some b) = Ok (4000000000 mod 2 ^ 32)
        /\ (4000000000 < 2 ^ 32 -> from32ByteBuffer (Some b) = Ok 4000000000))
  /\ (forall short, (List.length short < 32)%nat ->
        from32ByteBuffer (Some short) = Throw RangeError).
Proof.
  assert (H : 0 <= 4000000000 < 2 ^ 256) by (split; [discriminate|reflexivity]).
  split; [exact H|]. exact (from32ByteBuffer_reads_back 4000000000 H).
Defined.

(** ** [to32ByteBoolBuffer] *)

Lemma testbit_mod256 x i :
  0 <= i -> Z.testbit (x mod 2 ^ 256) i = (i <? 256) && Z.testbit x i.
Proof.
  intros Hi. destruct (Z.ltb_spec i 256).
  - apply Z.mod_pow2_bits_low. lia.
  - apply Z.mod_pow2_bits_high. lia.
Qed.

Lemma word_nonneg b :
  forallb (fun x => (0 <=? x) && (x <? 256)) b = true -> 0 <= word b.
Proof. intros H. apply (Combined.word_bound b 0 ltac:(lia) H). Qed.

Lemma word_of_encode32 x i :
  0 <= x -> 0 <= i ->
  Z.testbit (word (encode_be 32 x)) i = (i <? 256) && Z.testbit x i.
Proof.
  intros Hx Hi. rewrite word_encode_be by lia.
  change (256 ^ Z.of_nat 32) with (2 ^ 256). apply testbit_mod256. exact Hi.
Qed.

Lemma or_bits a b i :
  0 <= word a -> 0 <= word b -> 0 <= i ->
  Z.testbit (word (or a b)) i
  = (i <? 256) && (Z.testbit (word a) i || Z.testbit (word b) i).
Proof.
  intros Ha Hb Hi. unfold or.
  rewrite word_of_encode32 by (try apply Z.lor_nonneg; lia).
  rewrite Z.lor_spec. reflexivity.
Qed.

Lemma shifted_bit (bit : bool) i j :
  0 <= i -> 0 <= j ->
  Z.testbit (word (leftShiftBuffer (encode_be 32 (if bit then 1 else 0)) i)) j
  = (j <? 256) && bit && (j =? i).
Proof.
  intros Hi Hj. unfold leftShiftBuffer, leftShift.
  assert (E : word (encode_be 32 (if bit then 1 else 0))
              = if bit then 1 else 0).
  { destruct bit; apply word_encode32; split; try discriminate; reflexivity. }
  rewrite E.
  pose proof (Z.mod_pos_bound (Z.shiftl (if bit then 1 else 0) i) (2 ^ 256)
                ltac:(lia)) as Hm.
  rewrite word_encode32 by lia.
  rewrite testbit_mod256 by lia.
  destruct (j <? 256); [|reflexivity]. cbn [andb].
  rewrite Z.shiftl_spec by lia.
  destruct bit; [|apply Z.bits_0].
  destruct (Z.eqb_spec j i) as [->|Hne].
  - rewrite Z.sub_diag. reflexivity.
  - destruct (Z_lt_dec j i).
    + rewrite Z.testbit_neg_r by lia. reflexivity.
    + change 1 with (2 ^ 0). rewrite Z.pow2_bits_false by lia. reflexivity.
Qed.

Lemma reduce_bits rest : forall i acc,
  0 <= i -> i + Z.of_nat (List.length rest) <= 256 ->
  List.length acc = 32%nat ->
  forallb (fun x => (0 <=? x) && (x <? 256)) acc = true ->
  exists w,
    reduce rest i acc = Ok w
    /\ List.length w = 32%nat
    /\ forallb (fun x => (0 <=? x) && (x <? 256)) w = true
    /\ forall j, 0 <= j ->
         Z.testbit (word w) j
         = Z.testbit (word acc) j || ((i <=? j) && truthy rest (j - i)).
Proof.
  induction rest as [|bit rest IH]; intros i acc Hi Hlen Hl Hb.
  - exists acc. split; [reflexivity|]. split; [exact Hl|]. split; [exact Hb|].
    intros j Hj. unfold truthy, get.
    destruct (j - i <? 0); [|destruct (Z.to_nat (j - i))];
      cbn [nth_error]; rewrite andb_false_r, orb_false_r; reflexivity.
  - cbn [reduce List.length] in *.
    rewrite to32ByteBuffer_in_range
      by (destruct bit; split; try discriminate; reflexivity).
    cbn [bind].
    set (acc' := or acc (leftShiftBuffer (encode_be 32 (if bit then 1 else 0)) i)).
    destruct (IH (i + 1) acc') as (w & Hw & Hwl & Hwb & Hbits).
    + lia.
    + lia.
    + subst acc'. unfold or. apply length_encode_be.
    + subst acc'. unfold or. apply encode_be_bytes.
    + exists w. split; [exact Hw|]. split; [exact Hwl|]. split; [exact Hwb|].
      intros j Hj. rewrite (Hbits j Hj). subst acc'.
      rewrite or_bits; [|apply word_nonneg; exact Hb| |exact Hj].
      2:{ unfold leftShiftBuffer. apply word_nonneg, encode_be_bytes. }
      rewrite shifted_bit by lia.
      assert (Hacc : 256 <= j -> Z.testbit (word acc) j = false).
      { intros Hge.
        pose proof (Combined.word_bound acc 0 ltac:(lia) Hb) as Hwb'.
        fold (word acc) in Hwb'. rewrite Hl in Hwb'.
        change ((0 + 1) * 256 ^ Z.of_nat 32) with (2 ^ 256) in Hwb'.
        apply (mask_high_bits (word acc) 256); lia. }
      unfold truthy, get.
      destruct (Z.ltb_spec j 256) as [Hlt|Hge]; cbn [andb].
      * destruct (Z.eqb_spec j i) as [->|Hne].
        -- rewrite Z.sub_diag. change (0 <? 0) with false.
           change (Z.to_nat 0) with 0%nat. cbn [nth_error].
           destruct (Z.leb_spec (i + 1) i); [lia|].
           destruct (Z.leb_spec i i); [|lia].
           destruct bit, (Z.testbit (word acc) i); reflexivity.
        -- rewrite andb_false_r, orb_false_r.
           destruct (Z.leb_spec (i + 1) j), (Z.leb_spec i j); try lia;
             cbn [andb]; [|rewrite !orb_false_r; reflexivity].
           destruct (Z.ltb_spec (j - (i + 1)) 0); [lia|].
           destruct (Z.ltb_spec (j - i) 0); [lia|].
           replace (Z.to_nat (j - i)) with (S (Z.to_nat (j - (i + 1)))) by lia.
           reflexivity.
      * rewrite (Hacc Hge). cbn [orb].
        destruct (Z.leb_spec (i + 1) j), (Z.leb_spec i j); try lia; cbn [andb].
        destruct (Z.ltb_spec (j - (i + 1)) 0); [lia|].
        destruct (Z.ltb_spec (j - i) 0); [lia|].
        replace (Z.to_nat (j - i)) with (S (Z.to_nat (j - (i + 1)))) by lia.
        reflexivity.
Qed.

Lemma bool_buffer_spec booleans :
  (List.length booleans <= 256)%nat ->
  exists w,
    to32ByteBoolBuffer booleans = Ok (Some w)
    /\ List.length w = 32%nat
    /\ forallb (fun x => (0 <=? x) && (x <? 256)) w = true
    /\ forall i, 0 <= i -> Z.testbit (word w) i = truthy booleans i.
Proof.
  intros H. unfold to32ByteBoolBuffer.
  destruct (Z.ltb_spec (Z.of_nat (List.length booleans)) 257); [|lia].
  destruct (reduce_bits booleans 0 (repeat 0 32)) as (w & Hw & Hl & Hb & Hbits);
    [lia|lia|reflexivity|reflexivity|].
  exists w. rewrite Hw. split; [reflexivity|]. split; [exact Hl|].
  split; [exact Hb|].
  intros i Hi. rewrite (Hbits i Hi).
  change (word (repeat 0 32)) with 0. rewrite Z.bits_0, Z.sub_0_r.
  destruct (Z.leb_spec 0 i); [reflexivity|lia].
Qed.

(** X9: for at most 256 booleans [to32ByteBoolBuffer] returns a 32-byte
    word whose bit [i] is [booleans[i]], which is what the packed loops
    read with [and(word, bitCheck).equals(bitCheck)]; for more it returns
    [null]. *)
Theorem to32ByteBoolBuffer_bits booleans :
  ((List.length booleans <= 256)%nat ->
   exists w,
     to32ByteBoolBuffer booleans = Ok (Some w)
     /\ List.length w = 32%nat
     /\ (forall i, 0 <= i -> Z.testbit (word w) i = truthy booleans i)
     /\ (forall i, 0 <= i < 256 ->
           bit_set (Some w) (2 ^ i) = Ok (truthy booleans i)))
  /\ ((256 < List.length booleans)%nat ->
      to32ByteBoolBuffer booleans = Ok None).
Proof.
  split; intros H.
  - destruct (bool_buffer_spec booleans H) as (w & Hw & Hl & _ & E).
    exists w. split; [exact Hw|]. split; [exact Hl|]. split; [exact E|].
    intros i Hi. rewrite Combined.bit_set_word by lia.
    rewrite Combined.land_pow2 by lia.
    rewrite E by lia. reflexivity.
  - unfold to32ByteBoolBuffer.
    destruct (Z.ltb_spec (Z.of_nat (List.length booleans)) 257); [lia|].
    reflexivity.
Qed.

Lemma to32ByteBoolBuffer_bits_witness :
  (List.length [true; false; true; true] <= 256)%nat
  /\ exists w,
       to32ByteBoolBuffer [true; false; true; true] = Ok (Some w)
       /\ List.length w = 32%nat
       /\ (forall i, 0 <= i ->
             Z.testbit (word w) i = truthy [true; false; true; true] i)
       /\ (forall i, 0 <= i < 256 ->
             bit_set (Some w) (2 ^ i) = Ok (truthy [true; false; true; true] i)).
Proof.
  assert (H : (List.length [true; false; true; true] <= 256)%nat)
    by (cbn; lia).
  split; [exact H|].
  exact (proj1 (to32ByteBoolBuffer_bits [true; false; true; true]) H).
Defined.

(** ** Packing a proof *)

Lemma all_below_intro (P : Z -> bool) n : forall start,
  (forall x, start <= x < start + Z.of_nat n -> P x = true) ->
  all_below P n start = true.
Proof.
  induction n as [|n IH]; intros start H; [reflexivity|].
  cbn [all_below]. rewrite H by lia. cbn [andb].
  apply IH. intros x Hx. apply H. lia.
Qed.

Lemma truthy_app_true l i :
  0 <= i ->
  truthy (l ++ [true]) i
  = if i <? Z.of_nat (List.length l) then truthy l i
    else i =? Z.of_nat (List.length l).
Proof.
  intros Hi. unfold truthy, get.
  destruct (Z.ltb_spec i 0); [lia|].
  destruct (Z.ltb_spec i (Z.of_nat (List.length l))).
  - rewrite nth_error_app1 by lia. reflexivity.
  - rewrite nth_error_app2 by lia.
    destruct (Z.eqb_spec i (Z.of_nat (List.length l))) as [->|Hne].
    + rewrite Nat2Z.id, Nat.sub_diag. reflexivity.
    + destruct (Z.to_nat i - List.length l)%nat as [|k] eqn:E; [lia|].
      cbn [nth_error]. destruct k; reflexivity.
Qed.

Lemma packs_bool_buffer l :
  (List.length l <= 255)%nat ->
  exists w,
    to32ByteBoolBuffer (l ++ [true]) = Ok (Some w) /\ packs l w = true.
Proof.
  intros H.
  destruct (bool_buffer_spec (l ++ [true])) as (w & Hw & Hl & Hb & E).
  { rewrite length_app. cbn. lia. }
  exists w. split; [exact Hw|]. unfold packs.
  rewrite Hl, Hb. cbn [Z.of_nat Pos.of_succ_nat Pos.succ Z.eqb Pos.eqb andb].
  change (Z.of_nat 32 =? 32) with true. cbn [andb].
  rewrite E, truthy_app_true by lia.
  rewrite Z.ltb_irrefl, Z.eqb_refl, andb_true_r.
  apply all_below_intro. intros x Hx.
  rewrite E, truthy_app_true by lia.
  destruct (Z.ltb_spec x (Z.of_nat (List.length l))); [|lia].
  apply eqb_reflx.
Qed.

(** X10: a proof given by booleans can be handed over packed: for equal
    numbers of flags and skips, at most 255, no position having both set,
    the words [to32ByteBoolBuffer] makes of the flags and of the skips,
    each followed by [true], are a proof on which [getRootBits] gives what
    [getRootBooleans] gives on the booleans. *)
Theorem packed_proof_agrees hashFunction leafs elementCount flags skips
    decommitments :
  List.length skips = List.length flags ->
  (List.length flags <= 255)%nat ->
  no_early_end flags skips = true ->
  exists flagWord skipWord,
    to32ByteBoolBuffer (flags ++ [true]) = Ok (Some flagWord)
    /\ to32ByteBoolBuffer (skips ++ [true]) = Ok (Some skipWord)
    /\ getRootBits hashFunction leafs elementCount
         (flagWord :: skipWord :: decommitments)
       = getRootBooleans hashFunction leafs elementCount flags skips
           decommitments.
Proof.
  intros Hlen Hn Hend.
  destruct (packs_bool_buffer flags Hn) as (flagWord & Hf & Hpf).
  destruct (packs_bool_buffer skips ltac:(lia)) as (skipWord & Hs & Hps).
  exists flagWord, skipWord. split; [exact Hf|]. split; [exact Hs|].
  unfold getRootBits, getRootBooleans, traverseBits, traverseBooleans.
  assert (Hfuel : (List.length flags < 257)%nat) by lia.
  revert Hfuel. generalize 257%nat. intros fuel Hfuel.
  destruct (init leafs elementCount); cbn [bind]; try reflexivity.
  change (get (flagWord :: skipWord :: decommitments) 0) with (Some flagWord).
  change (get (flagWord :: skipWord :: decommitments) 1) with (Some skipWord).
  change (skipn 2 (flagWord :: skipWord :: decommitments)) with decommitments.
  change 1 with (2 ^ 0) at 1.
  rewrite (Combined.loop_encodings hashFunction leafs decommitments flags skips
             flagWord skipWord Hpf Hps Hlen Hend (List.length flags));
    [reflexivity|lia|lia|exact Hfuel].
Qed.

Lemma packed_proof_agrees_witness :
  List.length [true; false] = List.length [false; false]
  /\ (List.length [false; false] <= 255)%nat
  /\ no_early_end [false; false] [true; false] = true
  /\ exists flagWord skipWord,
       to32ByteBoolBuffer ([false; false] ++ [true]) = Ok (Some flagWord)
       /\ to32ByteBoolBuffer ([true; false] ++ [true]) = Ok (Some skipWord)
       /\ getRootBits Sample.hashFunction [Sample.a; Sample.b] 3
            (flagWord :: skipWord :: [Sample.d])
          = getRootBooleans Sample.hashFunction [Sample.a; Sample.b] 3
              [false; false] [true; false] [Sample.d].
Proof.
  assert (H1 : List.length [true; false] = List.length [false; false])
    by reflexivity.
  assert (H2 : (List.length [false; false] <= 255)%nat) by (cbn; lia).
  assert (H3 : no_early_end [false; false] [true; false] = true)
    by reflexivity.
  split; [exact H1|]. split; [exact H2|]. split; [exact H3|].
  exact (packed_proof_agrees Sample.hashFunction [Sample.a; Sample.b] 3
           [false; false] [true; false] [Sample.d] H1 H2 H3).
Defined.

End HelperBuffers.

(* ===================================================================== *)
(** * The later utilities: searching and sorted hashing *)
(* ===================================================================== *)

Module HelperSearch.

Import Utils Helpers.

Lemma findLastIndex_loop_spec {A} (array : list A) predicate i :
  let r := findLastIndex_loop array predicate i in
  (r = -1 /\ forall j, 0 <= j < Z.of_nat i ->
               predicate (get array j) j = false)
  \/ (0 <= r < Z.of_nat i
      /\ predicate (get array r) r = true
      /\ forall j, r < j < Z.of_nat i -> predicate (get array j) j = false).
Proof.
  induction i as [|i IH]; cbn [findLastIndex_loop].
  - left. split; [reflexivity|]. intros j Hj. lia.
  - destruct (predicate (get array (Z.of_nat i)) (Z.of_nat i)) eqn:E.
    + right. split; [lia|]. split; [exact E|]. intros j Hj. lia.
    + cbv zeta in IH. destruct IH as [[-> H]|(Hr & Hp & H)].
      * left. split; [reflexivity|]. intros j Hj.
        destruct (Z.eq_dec j (Z.of_nat i)) as [->|]; [exact E|apply H; lia].
      * right. split; [lia|]. split; [exact Hp|]. intros j Hj.
        destruct (Z.eq_dec j (Z.of_nat i)) as [->|]; [exact E|apply H; lia].
Qed.

(** X11: [findLastIndex] returns -1 exactly when the predicate holds at
    no index of the array; otherwise it returns an index of the array at
    which the predicate holds, and the predicate holds at no later
    one. *)
Theorem findLastIndex_last {A} (array : list A) predicate :
  let r := findLastIndex array predicate in
  let n := Z.of_nat (List.length array) in
  (r = -1 <-> forall j, 0 <= j < n -> predicate (get array j) j = false)
  /\ (r <> -1 ->
      0 <= r < n
      /\ predicate (get array r) r = true
      /\ forall j, r < j < n -> predicate (get array j) j = false).
Proof.
  intros r n. subst r n. unfold findLastIndex.
  pose proof (findLastIndex_loop_spec array predicate (List.length array)) as H.
  cbv zeta in H. destruct H as [[E H]|(Hr & Hp & H)].
  - rewrite E. split; [split; [intros _; exact H|reflexivity]|].
    intros Hne. contradiction.
  - split.
    + split; [lia|]. intros Hall. rewrite Hall in Hp by lia. discriminate.
    + intros _. split; [exact Hr|]. split; [exact Hp|exact H].
Qed.

End HelperSearch.

Module HelperHashes.

Import Utils Helpers.

Lemma compare_flip a : forall b, compare b a = - compare a b.
Proof.
  induction a as [|x a IH]; intros [|y b]; cbn [compare]; try reflexivity.
  destruct (Z.ltb_spec x y), (Z.ltb_spec y x); try lia; try reflexivity.
  apply IH.
Qed.

Lemma compare_equal a : forall b, compare a b = 0 -> a = b.
Proof.
  induction a as [|x a IH]; intros [|y b]; cbn [compare]; try discriminate;
    [reflexivity|].
  destruct (Z.ltb_spec x y); [discriminate|].
  destruct (Z.ltb_spec y x); [discriminate|].
  intros E. f_equal; [lia|apply IH; exact E].
Qed.

Lemma sort2_swap l r :
  let '(first, second) := sort2 compare l r in
  sort2 compare r l = (first, second).
Proof.
  unfold sort2. rewrite (compare_flip l r).
  destruct (Z.gtb_spec (compare l r) 0) as [Hgt|Hle].
  - destruct (Z.gtb_spec (- compare l r) 0); [lia|reflexivity].
  - destruct (Z.gtb_spec (- compare l r) 0); [reflexivity|].
    rewrite (compare_equal l r) by lia. reflexivity.
Qed.

(** X12: [sortHashNode] does not depend on the order of its two
    arguments: it hashes them smaller first, as [hashNode] would, and
    when one is missing it throws its assertion error either way.  So
    does the hash function [getHashFunction(true)]. *)
Theorem sortHashNode_symmetric keccak256 left right :
  sortHashNode keccak256 left right = sortHashNode keccak256 right left
  /\ getHashFunction keccak256 true left right
     = getHashFunction keccak256 true right left
  /\ (sortHashNode keccak256 left right = hashNode keccak256 left right
      \/ sortHashNode keccak256 left right = hashNode keccak256 right left
      \/ sortHashNode keccak256 left right
         = Throw (AssertionError
                    "Both buffers must exist to be sorted and hashed.")).
Proof.
  assert (E : sortHashNode keccak256 left right
              = sortHashNode keccak256 right left).
  { destruct left as [l|], right as [r|]; try reflexivity.
    unfold sortHashNode. pose proof (sort2_swap l r) as H.
    destruct (sort2 compare l r) as [first second]. rewrite H. reflexivity. }
  split; [exact E|]. split; [exact E|].
  destruct left as [l|], right as [r|]; auto.
  unfold sortHashNode, sort2, hashNode.
  destruct (compare l r >? 0); auto.
Qed.

End HelperHashes.

(* ===================================================================== *)
(** * More on [multi-proof.js] and [utils.js] *)
(* ===================================================================== *)

Module Padding.

Import Utils Spec Aux Notions Encode32 HelperBuffers.

Lemma padding_snoc c k : (padding c k ++ String c EmptyString)%string
                         = padding c (S k).
Proof.
  induction k as [|k IH]; [reflexivity|].
  cbn [padding String.append]. rewrite IH. reflexivity.
Qed.

Lemma leftPad_loop_pads c size k : forall fuel s,
  Z.of_nat (String.length s) + Z.of_nat k = Z.max size (Z.of_nat (String.length s)) ->
  (k <= fuel)%nat ->
  leftPad_loop fuel s size (String c EmptyString)
  = Ok (padding c k ++ s)%string.
Proof.
  induction k as [|k IH]; intros fuel s Hl Hf.
  - destruct fuel; cbn [leftPad_loop];
      (destruct (Z.ltb_spec (Z.of_nat (String.length s)) size); [lia|reflexivity]).
  - destruct fuel as [|fuel]; [lia|]. cbn [leftPad_loop].
    destruct (Z.ltb_spec (Z.of_nat (String.length s)) size); [|lia].
    rewrite IH by (cbn [String.append String.length]; lia).
    f_equal. rewrite <- padding_snoc, append_assoc. reflexivity.
Qed.

(** X13: with a pad of one character [leftPad] puts [size - num.length]
    copies of it before [num], and none when [num] is that long already:
    the result has [max(size, num.length)] characters and [num] is never
    cut. *)
Theorem leftPad_pads num size c :
  leftPad num size (String c EmptyString)
  = Ok (padding c (Z.to_nat (size - Z.of_nat (String.length num))) ++ num)%string.
Proof.
  unfold leftPad. apply leftPad_loop_pads; lia.
Qed.

(** X14: on counts between 0 and [2^256] [to32ByteBuffer] is one to one,
    and its result has 32 bytes: two leaf counts never share an
    encoding. *)
Theorem to32ByteBuffer_injective n m :
  0 <= n < 2 ^ 256 -> 0 <= m < 2 ^ 256 ->
  (exists b, to32ByteBuffer n = Ok b /\ List.length b = 32%nat)
  /\ (to32ByteBuffer n = to32ByteBuffer m -> n = m).
Proof.
  intros Hn Hm. rewrite !to32ByteBuffer_in_range by assumption. split.
  - eexists. split; [reflexivity|apply length_encode_be].
  - intros E.
    assert (E' : encode_be 32 n = encode_be 32 m) by congruence.
    clear E. rename E' into E.
    transitivity (CombinedProof.word (encode_be 32 n));
      [symmetry; apply word_encode32; exact Hn|].
    rewrite E. apply word_encode32. exact Hm.
Qed.

Lemma to32ByteBuffer_injective_witness :
  0 <= 4 < 2 ^ 256 /\ 0 <= 260 < 2 ^ 256
  /\ (exists b, to32ByteBuffer 4 = Ok b /\ List.length b = 32%nat)
  /\ (to32ByteBuffer 4 = to32ByteBuffer 260 -> 4 = 260).
Proof.
  assert (H1 : 0 <= 4 < 2 ^ 256) by (split; [discriminate|reflexivity]).
  assert (H2 : 0 <= 260 < 2 ^ 256) by (split; [discriminate|reflexivity]).
  split; [exact H1|]. split; [exact H2|].
  exact (to32ByteBuffer_injective 4 260 H1 H2).
Defined.

End Padding.

(* ===================================================================== *)
(** * More on [generateMultiProof] and [verifyMultiProof] *)
(* ===================================================================== *)

Module MultiProofFacts.

Import Utils MultiProof Spec Aux Notions BitFacts Verify RoundTrip.

Section Facts.
Variable keccak256 : Buffer -> Buffer.

(** ** What [generateMultiProof] checks *)

Lemma collect_throws tree depth l : forall prev known values,
  descending prev l = false ->
  collect tree depth prev l known values
  = Throw (AssertionError "indices must be in descending order").
Proof.
  induction l as [|x l IH]; intros prev known values H; [discriminate|].
  cbn [collect descending] in *.
  destruct (match prev with None => true | Some p => x <? p end);
    cbn [andb assert bind] in *; [|reflexivity].
  apply IH. exact H.
Qed.

(** X15: on a well-formed tree [generateMultiProof] checks the order of
    the indices and nothing else.  It throws 'indices must be in
    descending order' exactly when they are not strictly descending; for
    any other list it returns the mixed root, the root, the leaf count,
    the indices as given and, as values, the entries of the tree at
    [leafCount + index], which are [undefined] for an index that is not
    in the tree. *)
Theorem generateMultiProof_checks_order tree depth indices :
  wellFormed keccak256 tree depth = true ->
  (descending None indices = false ->
   generateMultiProof tree indices
   = Throw (AssertionError "indices must be in descending order"))
  /\ (descending None indices = true ->
      exists p,
        generateMultiProof tree indices = Ok p
        /\ mixedRoot p = get tree 0
        /\ root p = get tree 1
        /\ leafCount p = 2 ^ depth
        /\ MultiProof.indices p = indices
        /\ values p = map (fun idx => get tree (2 ^ depth + idx)) indices).
Proof.
  intros Hwf.
  pose proof (wf_n keccak256 tree depth Hwf) as Hn.
  unfold generateMultiProof.
  rewrite (depth_of_tree keccak256 tree depth Hwf).
  rewrite (shl32_one keccak256 tree depth Hwf). unfold new_array.
  destruct (Z.ltb_spec (2 * 2 ^ depth) 0); [lia|].
  destruct (Z.leb_spec (2 ^ 32) (2 * 2 ^ depth)); [lia|]. cbn [orb bind].
  split; intros Hd.
  - rewrite collect_throws by exact Hd. reflexivity.
  - rewrite (collect_spec keccak256 tree depth Hwf) by exact Hd.
    cbn [bind app].
    destruct (decommit tree _ _ _) as [K D].
    eexists. split; [reflexivity|]. repeat split.
Qed.

(** ** What [verifyMultiProof] leaves unchecked *)

Lemma verify_round_more root queue decommits extra :
  match verify_round keccak256 root queue decommits with
  | Ok (inl result) =>
      verify_round keccak256 root queue (decommits ++ extra) = Ok (inl result)
  | Ok (inr (queue', decommits')) =>
      verify_round keccak256 root queue (decommits ++ extra)
      = Ok (inr (queue', decommits' ++ extra))
  | _ => True
  end.
Proof.
  unfold verify_round.
  destruct queue as [|[index value] queue]; [exact I|].
  destruct (num_eqb index (Num 1)).
  { destruct (equals value root); exact I || reflexivity. }
  destruct decommits as [|d decommits]; cbn [shift app];
    destruct (num_eqb (rem index 2) (Num 0));
    try (destruct (hashNode keccak256 value _); cbn [bind];
         exact I || reflexivity);
    try (destruct value; exact I);
    destruct queue as [|[index0 value0] queue'];
    try (destruct (num_eqb index0 (plus index (-1))));
    try (destruct (hashNode keccak256 _ value); cbn [bind];
         exact I || reflexivity);
    try (destruct value; exact I).
Qed.

Lemma verify_loop_more root extra fuel : forall queue decommits result fuel',
  verify_loop keccak256 fuel root queue decommits = Ok result ->
  (fuel <= fuel')%nat ->
  verify_loop keccak256 fuel' root queue (decommits ++ extra) = Ok result.
Proof.
  induction fuel as [|fuel IH]; intros queue decommits result fuel' H Hf;
    [discriminate|].
  destruct fuel' as [|fuel']; [lia|]. cbn [verify_loop] in *.
  pose proof (verify_round_more root queue decommits extra) as Hr.
  destruct (verify_round keccak256 root queue decommits) as [[b|[q d]]|e|];
    cbn [bind] in H; try discriminate; rewrite Hr; cbn [bind].
  - exact H.
  - apply IH; [exact H|lia].
Qed.

Lemma seed_more leafCount indices extra values : forall i,
  0 <= i ->
  i + Z.of_nat (List.length values) <= Z.of_nat (List.length indices) ->
  seed leafCount (indices ++ extra) i values = seed leafCount indices i values.
Proof.
  induction values as [|v values IH]; intros i Hi Hl; [reflexivity|].
  cbn [seed List.length] in *. rewrite IH by lia. f_equal. f_equal.
  unfold get. destruct (Z.ltb_spec i 0); [lia|].
  rewrite nth_error_app1 by lia. reflexivity.
Qed.

(** X16: [verifyMultiProof] does not check that the proof is used up:
    when a call returns, the call with more decommitments after those
    given, and with more indices after those given (there being an index
    for every value), returns the same. *)
Theorem verifyMultiProof_ignores_surplus mixedRoot root leafCount indices
    values decommitments moreIndices moreDecommitments result :
  (List.length values <= List.length indices)%nat ->
  verifyMultiProof keccak256 mixedRoot root leafCount indices values
    decommitments = Ok result ->
  verifyMultiProof keccak256 mixedRoot root leafCount
    (indices ++ moreIndices) values (decommitments ++ moreDecommitments)
  = Ok result.
Proof.
  intros Hl. unfold verifyMultiProof.
  destruct (validateMixedRoot keccak256 mixedRoot root leafCount)
    as [valid| |]; cbn [bind]; try discriminate.
  destruct valid; cbn [negb]; [|intros H; exact H].
  rewrite !map_id, seed_more by lia. intros H.
  eapply verify_loop_more; [exact H|].
  rewrite length_app. lia.
Qed.

(** X17: when the loop of [verifyMultiProof] comes to an entry that needs
    a decommitment and none is left, the call throws a [TypeError]; it
    does not return [false]. *)
Theorem verifyMultiProof_needs_decommitments mixedRoot root leafCount indices
    values decommitments k index value queue :
  validateMixedRoot keccak256 mixedRoot root leafCount = Ok true ->
  rounds keccak256 root k (seed leafCount indices 0 values) decommitments
    ((index, value) :: queue) [] ->
  needs_decommitment index queue = true ->
  verifyMultiProof keccak256 mixedRoot root leafCount indices values
    decommitments = Throw TypeError.
Proof.
  intros Hv Hr Hneed. unfold verifyMultiProof. rewrite Hv. cbn [bind negb].
  rewrite map_id.
  pose proof (rounds_measure _ _ _ _ _ _ _ Hr) as Hm.
  rewrite seed_length in Hm. cbn [List.length] in Hm.
  replace (S (List.length values + List.length decommitments))
    with (k + S (List.length values + List.length decommitments - k))%nat by lia.
  rewrite (verify_loop_rounds _ _ _ _ _ _ _ _ Hr).
  cbn [verify_loop verify_round].
  unfold needs_decommitment in Hneed.
  destruct (num_eqb index (Num 1)); [discriminate|]. cbn [negb andb] in Hneed.
  destruct (num_eqb (rem index 2) (Num 0)); cbn [shift].
  - destruct value; reflexivity.
  - cbn [orb] in Hneed.
    destruct queue as [|[index0 value0] queue']; [reflexivity|].
    destruct (num_eqb index0 (plus index (-1))); [discriminate|reflexivity].
Qed.

End Facts.

Lemma generateMultiProof_checks_order_witness :
  wellFormed Sample.digest Sample.tree 2 = true
  /\ (descending None [1; 7; 0] = false ->
      generateMultiProof Sample.tree [1; 7; 0]
      = Throw (AssertionError "indices must be in descending order"))
  /\ (descending None [7; 1] = true ->
      exists p,
        generateMultiProof Sample.tree [7; 1] = Ok p
        /\ mixedRoot p = get Sample.tree 0
        /\ root p = get Sample.tree 1
        /\ leafCount p = 2 ^ 2
        /\ MultiProof.indices p = [7; 1]
        /\ values p = map (fun idx => get Sample.tree (2 ^ 2 + idx)) [7; 1]).
Proof.
  assert (H : wellFormed Sample.digest Sample.tree 2 = true)
    by (vm_compute; reflexivity).
  split; [exact H|]. split.
  - exact (proj1 (generateMultiProof_checks_order Sample.digest Sample.tree 2 [1; 7; 0] H)).
  - exact (proj2 (generateMultiProof_checks_order Sample.digest Sample.tree 2 [7; 1] H)).
Defined.


Lemma verifyMultiProof_ignores_surplus_witness :
  (List.length [Some [12]; Some [10]] <= List.length [2; 0])%nat
  /\ verifyMultiProof Sample.digest (Some Sample.mixed) (Some Sample.top) 4
       [2; 0] [Some [12]; Some [10]] [Some [13]; Some [11]] = Ok true
  /\ verifyMultiProof Sample.digest (Some Sample.mixed) (Some Sample.top) 4
       ([2; 0] ++ [3]) [Some [12]; Some [10]]
       ([Some [13]; Some [11]] ++ [Some [99]]) = Ok true.
Proof.
  assert (H1 : (List.length [Some [12]; Some [10]] <= List.length [2; 0])%nat)
    by (cbn; lia).
  assert (H2 : verifyMultiProof Sample.digest (Some Sample.mixed)
                 (Some Sample.top) 4 [2; 0] [Some [12]; Some [10]]
                 [Some [13]; Some [11]] = Ok true)
    by (vm_compute; reflexivity).
  split; [exact H1|]. split; [exact H2|].
  exact (verifyMultiProof_ignores_surplus Sample.digest (Some Sample.mixed)
           (Some Sample.top) 4 [2; 0] [Some [12]; Some [10]]
           [Some [13]; Some [11]] [3] [Some [99]] true H1 H2).
Defined.

Lemma verifyMultiProof_needs_decommitments_witness :
  validateMixedRoot Sample.digest (Some Sample.mixed) (Some Sample.top) 4
  = Ok true
  /\ rounds Sample.digest (Some Sample.top) 1
       (seed 4 [2; 0] 0 [Some [12]; Some [10]]) [Some [13]]
       [(Num 4, Some [10]); (Num 3, Some Sample.right_node)] []
  /\ needs_decommitment (Num 4) [(Num 3, Some Sample.right_node)] = true
  /\ verifyMultiProof Sample.digest (Some Sample.mixed) (Some Sample.top) 4
       [2; 0] [Some [12]; Some [10]] [Some [13]] = Throw TypeError.
Proof.
  assert (H1 : validateMixedRoot Sample.digest (Some Sample.mixed)
                 (Some Sample.top) 4 = Ok true) by (vm_compute; reflexivity).
  assert (H2 : rounds Sample.digest (Some Sample.top) 1
                 (seed 4 [2; 0] 0 [Some [12]; Some [10]]) [Some [13]]
                 [(Num 4, Some [10]); (Num 3, Some Sample.right_node)] []).
  { eapply rounds_S; [vm_compute; reflexivity|apply rounds_O]. }
  assert (H3 : needs_decommitment (Num 4) [(Num 3, Some Sample.right_node)]
               = true) by reflexivity.
  split; [exact H1|]. split; [exact H2|]. split; [exact H3|].
  exact (verifyMultiProof_needs_decommitments Sample.digest (Some Sample.mixed)
           (Some Sample.top) 4 [2; 0] [Some [12]; Some [10]] [Some [13]]
           1%nat (Num 4) (Some [10]) [(Num 3, Some Sample.right_node)]
           H1 H2 H3).
Defined.

End MultiProofFacts.


(* ===================================================================== *)
(** * More on the combined proofs *)
(* ===================================================================== *)

Module CombinedFacts.

Import Utils CombinedProof Spec Aux Notions BitFacts.

Section Decommitments.
Variable hashFunction : val -> val -> outcome Buffer.
(** The hash function needs both of its arguments, as [hashNode] and
    [sortHashNode] do. *)
Hypothesis hash_strict :
  forall l r b, hashFunction l r = Ok b -> l <> None /\ r <> None.
Variable leafs : list Buffer.

Lemma get_more {A} (l extra : list A) i x :
  get l i = Some x -> get (l ++ extra) i = Some x.
Proof.
  unfold get. destruct (i <? 0); [discriminate|]. intros H.
  rewrite nth_error_app1; [exact H|].
  apply nth_error_Some. rewrite H. discriminate.
Qed.

Lemma get_in_range {A} (l : list A) i x :
  get l i = Some x -> i < Z.of_nat (List.length l).
Proof.
  unfold get. destruct (Z.ltb_spec i 0); [discriminate|]. intros Hx.
  assert (Hlt : (Z.to_nat i < List.length l)%nat)
    by (apply nth_error_Some; rewrite Hx; discriminate).
  lia.
Qed.

Lemma combine_step_more decommitments extra flag st st' :
  combine_step hashFunction leafs decommitments flag st = Ok st' ->
  combine_step hashFunction leafs (decommitments ++ extra) flag st = Ok st'
  /\ decommitmentIndex st'
     = decommitmentIndex st + (if flag then 0 else 1)
  /\ (flag = false ->
      decommitmentIndex st < Z.of_nat (List.length decommitments)).
Proof.
  unfold combine_step. destruct flag.
  - intros H. split; [exact H|]. split; [|discriminate].
    revert H.
    repeat match goal with
      | |- context [bind (if ?c then _ else _) _] => destruct c; cbn [bind]
      | |- context [bind (hashFunction ?x ?y) _] =>
          destruct (hashFunction x y); cbn [bind]; try discriminate
      end;
      intros E; injection E as <-; cbn [decommitmentIndex]; lia.
  - destruct (get decommitments (decommitmentIndex st)) as [x|] eqn:Ex.
    + rewrite (get_more _ extra _ _ Ex). intros H. split; [exact H|].
      split; [|intros _; eapply get_in_range; exact Ex].
      revert H.
      repeat match goal with
        | |- context [bind (if ?c then _ else _) _] => destruct c; cbn [bind]
        | |- context [bind (hashFunction ?x ?y) _] =>
            destruct (hashFunction x y); cbn [bind]; try discriminate
        end;
        intros E; injection E as <-; cbn [decommitmentIndex]; lia.
    + intros H. exfalso. revert H.
      repeat match goal with
        | |- context [bind (if ?c then _ else _) _] => destruct c; cbn [bind]
        | |- context [bind (hashFunction ?x ?y) _] =>
            let E := fresh "E" in
            destruct (hashFunction x y) eqn:E; cbn [bind]; try discriminate
        end;
        match goal with
        | E : hashFunction _ None = Ok _ |- _ =>
            apply hash_strict in E; destruct E as [_ E]; congruence
        | E : hashFunction None _ = Ok _ |- _ =>
            apply hash_strict in E; destruct E as [E _]; congruence
        end.
Qed.

Lemma loopBooleans_more decommitments extra flags skips n : forall i st st',
  loopBooleans hashFunction leafs decommitments flags skips n i st = Ok st' ->
  decommitmentIndex st <= Z.of_nat (List.length decommitments) ->
  loopBooleans hashFunction leafs (decommitments ++ extra) flags skips n i st
  = Ok st'
  /\ decommitmentIndex st' = decommitmentIndex st + taken flags skips n i
  /\ decommitmentIndex st' <= Z.of_nat (List.length decommitments).
Proof.
  induction n as [|n IH]; intros i st st' H Hle.
  - cbn [loopBooleans taken] in *. injection H as <-.
    split; [reflexivity|]. split; lia.
  - cbn [loopBooleans taken] in *.
    destruct (truthy skips i); cbn [bind orb] in *.
    + destruct (IH _ _ _ H) as (E & Hc & Hb); [exact Hle|].
      split; [exact E|]. split; [|exact Hb].
      rewrite Hc. cbn [skip_step decommitmentIndex]. lia.
    + destruct (combine_step hashFunction leafs decommitments
                  (truthy flags i) st) as [st1| |] eqn:E1;
        cbn [bind] in H; try discriminate.
      destruct (combine_step_more _ extra _ _ _ E1) as (E1' & Hd & Hr).
      rewrite E1'. cbn [bind].
      destruct (IH _ _ _ H) as (E & Hc & Hb).
      { rewrite Hd. destruct (truthy flags i); [lia|].
        specialize (Hr eq_refl). lia. }
      split; [exact E|]. split; [|exact Hb].
      rewrite Hc, Hd. destruct (truthy flags i); lia.
Qed.

(** X18: with a hash function that needs both arguments, a proof that
    [getRootBooleans] accepts holds at least one decommitment for every
    position that is neither flagged nor skipped, the loop takes exactly
    those, and decommitments beyond them are not looked at: the call with
    more decommitments after those given returns the same root. *)
Theorem getRootBooleans_takes_decommitments elementCount flags skips
    decommitments extra r :
  getRootBooleans hashFunction leafs elementCount flags skips decommitments
  = Ok r ->
  taken flags skips (List.length flags) 0
    <= Z.of_nat (List.length decommitments)
  /\ (exists st,
        traverseBooleans hashFunction leafs elementCount flags skips
          decommitments = Ok st
        /\ decommitmentIndex st = taken flags skips (List.length flags) 0)
  /\ getRootBooleans hashFunction leafs elementCount flags skips
       (decommitments ++ extra) = Ok r.
Proof.
  unfold getRootBooleans, traverseBooleans.
  destruct (init leafs elementCount) as [st0| |] eqn:E0; cbn [bind];
    try discriminate.
  assert (H0 : decommitmentIndex st0 = 0).
  { revert E0. unfold init, new_array.
    repeat match goal with
      | |- context [bind (if ?c then _ else _) _] => destruct c; cbn [bind]
      end; try discriminate.
    intros E; injection E as <-. reflexivity. }
  destruct (loopBooleans hashFunction leafs decommitments flags skips
              (List.length flags) 0 st0) as [st| |] eqn:E; cbn [bind];
    try discriminate.
  intros Hf.
  destruct (loopBooleans_more _ extra _ _ _ _ _ _ E) as (E' & Hc & Hb); [lia|].
  rewrite H0 in Hc. cbn [Z.add] in Hc.
  split; [lia|]. split.
  - exists st. split; [reflexivity|exact Hc].
  - rewrite E'. cbn [bind]. exact Hf.
Qed.

End Decommitments.

Lemma hashNode_strict keccak256 l r b :
  hashNode keccak256 l r = Ok b -> l <> None /\ r <> None.
Proof. destruct l, r; try discriminate. intros _. split; discriminate. Qed.

Lemma getRootBooleans_takes_decommitments_witness :
  (forall l r b, Sample.hashFunction l r = Ok b -> l <> None /\ r <> None)
  /\ getRootBooleans Sample.hashFunction [Sample.a; Sample.b] 3
       [false; false] [true; false] [Sample.d] = Ok [2; 2; 9]
  /\ taken [false; false] [true; false] (List.length [false; false]) 0
       <= Z.of_nat (List.length [Sample.d])
  /\ (exists st,
        traverseBooleans Sample.hashFunction [Sample.a; Sample.b] 3
          [false; false] [true; false] [Sample.d] = Ok st
        /\ decommitmentIndex st
           = taken [false; false] [true; false] (List.length [false; false]) 0)
  /\ getRootBooleans Sample.hashFunction [Sample.a; Sample.b] 3
       [false; false] [true; false] ([Sample.d] ++ [Sample.a]) = Ok [2; 2; 9].
Proof.
  assert (H1 : forall l r b, Sample.hashFunction l r = Ok b ->
                             l <> None /\ r <> None)
    by (apply hashNode_strict).
  assert (H2 : getRootBooleans Sample.hashFunction [Sample.a; Sample.b] 3
                 [false; false] [true; false] [Sample.d] = Ok [2; 2; 9])
    by (vm_compute; reflexivity).
  split; [exact H1|]. split; [exact H2|].
  exact (getRootBooleans_takes_decommitments Sample.hashFunction H1
           [Sample.a; Sample.b] 3 [false; false] [true; false] [Sample.d]
           [Sample.a] [2; 2; 9] H2).
Defined.

End CombinedFacts.

(* ===================================================================== *)
(** * The proof of one element *)
(* ===================================================================== *)

Module SinglePath.

Import Utils MultiProof Spec Aux Notions BitFacts RoundTrip.

Section OneLeaf.
Variable keccak256 : Buffer -> Buffer.
Variable tree : list Buffer.
Variable depth : Z.
Hypothesis Hwf : wellFormed keccak256 tree depth = true.
Variable idx : Z.
Hypothesis Hidx : 0 <= idx < 2 ^ depth.

Local Abbreviation n := (2 ^ depth).
Local Abbreviation leaf := (2 ^ depth + idx).

(** The final [known] array: the leaf is marked, a parent is known when
    one of its children is. *)
Variable K : known_map.
Hypothesis K_leaves : forall j, n <= j -> K j = (j =? leaf).
Hypothesis K_parents : forall i, 1 <= i < n -> K i = K (2 * i) || K (2 * i + 1).

Lemma div_pow_succ x e : 0 <= e -> x / 2 ^ Z.succ e = x / 2 ^ e / 2.
Proof.
  intros He. rewrite Z.pow_succ_r by lia.
  rewrite Z.div_div by (try apply Z.pow_pos_nonneg; lia).
  f_equal. lia.
Qed.

Lemma level_bounds e :
  0 <= e <= depth ->
  2 ^ (depth - e) <= leaf / 2 ^ e < 2 ^ (depth - e + 1).
Proof.
  intros He.
  assert (Hp : 0 < 2 ^ e) by (apply Z.pow_pos_nonneg; lia).
  assert (E : n = 2 ^ (depth - e) * 2 ^ e).
  { rewrite <- Z.pow_add_r by lia. f_equal. lia. }
  assert (E' : 2 * n = 2 ^ (depth - e + 1) * 2 ^ e).
  { rewrite <- Z.pow_add_r by lia. rewrite <- Z.pow_succ_r by lia.
    f_equal. lia. }
  split.
  - apply Z.div_le_lower_bound; [lia|]. rewrite Z.mul_comm, <- E. lia.
  - apply Z.div_lt_upper_bound; [lia|]. rewrite Z.mul_comm, <- E'. lia.
Qed.

(** On its level the path is the one known node. *)
Lemma K_level e : forall j,
  (Z.of_nat e <= depth) ->
  2 ^ (depth - Z.of_nat e) <= j < 2 ^ (depth - Z.of_nat e + 1) ->
  K j = (j =? leaf / 2 ^ Z.of_nat e).
Proof.
  induction e as [|e IH]; intros j He Hj.
  - cbn [Z.of_nat] in *. rewrite Z.sub_0_r in Hj.
    change (2 ^ 0) with 1. rewrite Z.div_1_r. apply K_leaves. lia.
  - rewrite Nat2Z.inj_succ in *.
    assert (Hlt : 2 ^ (depth - Z.succ (Z.of_nat e) + 1) <= n).
    { apply Z.pow_le_mono_r; lia. }
    assert (Hpos : 0 < 2 ^ (depth - Z.succ (Z.of_nat e)))
      by (apply Z.pow_pos_nonneg; lia).
    assert (Hd : 2 ^ (depth - Z.of_nat e)
                 = 2 * 2 ^ (depth - Z.succ (Z.of_nat e))).
    { rewrite <- Z.pow_succ_r by lia. f_equal. lia. }
    assert (Hd' : 2 ^ (depth - Z.of_nat e + 1)
                  = 2 * 2 ^ (depth - Z.succ (Z.of_nat e) + 1)).
    { rewrite <- Z.pow_succ_r by lia. f_equal. lia. }
    rewrite K_parents by lia.
    rewrite (IH (2 * j)), (IH (2 * j + 1)) by lia.
    rewrite div_pow_succ by lia.
    generalize (leaf / 2 ^ Z.of_nat e). intros a.
    destruct (Z.eqb_spec (2 * j) a), (Z.eqb_spec (2 * j + 1) a),
      (Z.eqb_spec j (a / 2)); try reflexivity; exfalso;
      Z.div_mod_to_equations; lia.
Qed.

Lemma dec_level e i :
  (1 <= Z.of_nat e <= depth) ->
  2 ^ (depth - Z.of_nat e) <= i < 2 ^ (depth - Z.of_nat e + 1) ->
  dec tree K i
  = if i =? leaf / 2 ^ Z.of_nat e
    then [get tree (sibling (leaf / 2 ^ (Z.of_nat e - 1)))] else [].
Proof.
  intros He Hi.
  assert (Hd : 2 ^ (depth - Z.of_nat e + 1)
               = 2 * 2 ^ (depth - Z.of_nat e)).
  { rewrite <- Z.pow_succ_r by lia. f_equal. }
  assert (Hd' : 2 ^ (depth - Z.of_nat e + 1 + 1)
                = 2 * 2 ^ (depth - Z.of_nat e + 1)).
  { rewrite <- Z.pow_succ_r by lia. f_equal. }
  assert (EK : forall j,
             2 ^ (depth - Z.of_nat e + 1) <= j
               < 2 ^ (depth - Z.of_nat e + 1 + 1) ->
             K j = (j =? leaf / 2 ^ (Z.of_nat e - 1))).
  { intros j Hj. pose proof (K_level (e - 1) j) as H.
    replace (Z.of_nat (e - 1)) with (Z.of_nat e - 1) in H by lia.
    replace (depth - (Z.of_nat e - 1)) with (depth - Z.of_nat e + 1) in H
      by lia.
    apply H; [lia|exact Hj]. }
  unfold dec. rewrite (EK (2 * i)), (EK (2 * i + 1)) by lia.
  replace (leaf / 2 ^ Z.of_nat e) with (leaf / 2 ^ (Z.of_nat e - 1) / 2).
  2:{ rewrite <- div_pow_succ by lia. do 2 f_equal. lia. }
  generalize (leaf / 2 ^ (Z.of_nat e - 1)). intros a.
  unfold sibling. rewrite Zeven_mod.
  destruct (Z.eqb_spec (2 * i) a), (Z.eqb_spec (2 * i + 1) a),
    (Z.eqb_spec i (a / 2)), (Z.eqb_spec (a mod 2) 0);
    cbn [andb negb app]; try reflexivity; try (exfalso; lia);
    try (exfalso; Z.div_mod_to_equations; lia);
    do 2 f_equal; lia.
Qed.

Lemma decs_from_skip a m :
  (a <= m)%nat ->
  (forall i, Z.of_nat a < i <= Z.of_nat m -> dec tree K i = []) ->
  decs_from tree K m = decs_from tree K a.
Proof.
  induction m as [|m IH]; intros Ha H.
  - replace a with 0%nat by lia. reflexivity.
  - destruct (Nat.eq_dec a (S m)) as [->|Hne]; [reflexivity|].
    cbn [decs_from]. rewrite H by lia. cbn [app].
    apply IH; [lia|]. intros i Hi. apply H. lia.
Qed.

Lemma level_decs e :
  (1 <= Z.of_nat e <= depth) ->
  decs_from tree K (Z.to_nat (2 ^ (depth - Z.of_nat e + 1) - 1))
  = get tree (sibling (leaf / 2 ^ (Z.of_nat e - 1)))
    :: decs_from tree K (Z.to_nat (2 ^ (depth - Z.of_nat e) - 1)).
Proof.
  intros He.
  pose proof (level_bounds (Z.of_nat e) ltac:(lia)) as Hb.
  set (a := leaf / 2 ^ Z.of_nat e) in *.
  assert (Hpos : 0 < 2 ^ (depth - Z.of_nat e))
    by (apply Z.pow_pos_nonneg; lia).
  rewrite (decs_from_skip (Z.to_nat a)).
  - replace (Z.to_nat a) with (S (Z.to_nat (a - 1))) by lia.
    cbn [decs_from].
    replace (Z.of_nat (S (Z.to_nat (a - 1)))) with a by lia.
    rewrite (dec_level e a He Hb). fold a. rewrite Z.eqb_refl. cbn [app].
    f_equal. apply decs_from_skip; [lia|].
    intros i Hi. rewrite (dec_level e i He) by lia. fold a.
    destruct (Z.eqb_spec i a); [lia|reflexivity].
  - lia.
  - intros i Hi. rewrite (dec_level e i He) by lia. fold a.
    destruct (Z.eqb_spec i a); [lia|reflexivity].
Qed.

Lemma path_decs k : forall e,
  Z.of_nat e + Z.of_nat k = depth ->
  decs_from tree K (Z.to_nat (2 ^ Z.of_nat k - 1))
  = path tree k (leaf / 2 ^ Z.of_nat e).
Proof.
  induction k as [|k IH]; intros e He; [reflexivity|].
  cbn [path].
  pose proof (level_decs (S e) ltac:(lia)) as H.
  replace (depth - Z.of_nat (S e) + 1) with (Z.of_nat (S k)) in H by lia.
  replace (depth - Z.of_nat (S e)) with (Z.of_nat k) in H by lia.
  replace (Z.of_nat (S e) - 1) with (Z.of_nat e) in H by lia.
  rewrite H. f_equal.
  rewrite (IH (S e)) by lia. f_equal.
  rewrite Nat2Z.inj_succ. apply div_pow_succ. lia.
Qed.

End OneLeaf.

Lemma length_path tree levels : forall j,
  List.length (path tree levels j) = levels.
Proof.
  induction levels as [|l IH]; intros j; [reflexivity|].
  cbn [path List.length]. rewrite IH. reflexivity.
Qed.

(** X19: on a well-formed tree the proof of one element is its path: for
    an index in the tree [generateMultiProof(tree, [index])] returns the
    element as the one value and, as decommitments, the siblings of the
    nodes on the way from the leaf to the root, the leaf's sibling first,
    [depth] of them. *)
Theorem generateMultiProof_one_element keccak256 tree depth idx :
  wellFormed keccak256 tree depth = true ->
  0 <= idx < 2 ^ depth ->
  exists p,
    generateMultiProof tree [idx] = Ok p
    /\ values p = [get tree (2 ^ depth + idx)]
    /\ decommitments p = path tree (Z.to_nat depth) (2 ^ depth + idx)
    /\ List.length (decommitments p) = Z.to_nat depth.
Proof.
  intros Hwf Hidx.
  pose proof (wf_n keccak256 tree depth Hwf) as Hn.
  pose proof (wf_depth keccak256 tree depth Hwf) as Hd.
  unfold generateMultiProof.
  rewrite (depth_of_tree keccak256 tree depth Hwf).
  rewrite (shl32_one keccak256 tree depth Hwf). unfold new_array.
  destruct (Z.ltb_spec (2 * 2 ^ depth) 0); [lia|].
  destruct (Z.leb_spec (2 ^ 32) (2 * 2 ^ depth)); [lia|]. cbn [orb bind].
  rewrite (collect_spec keccak256 tree depth Hwf) by reflexivity.
  cbn [bind app map].
  set (known0 := marks (2 ^ depth) (fun _ => false) [idx]).
  set (m := Z.to_nat (2 ^ depth - 1)).
  pose proof (decommit_decs tree m known0 []) as HD.
  pose proof (decommit_above tree m known0 []) as Habove.
  pose proof (decommit_node tree m known0 []) as Hnode.
  destruct (decommit tree m known0 []) as [K D]. cbn [fst snd app] in *.
  eexists. split; [reflexivity|].
  cbn [values decommitments]. split; [reflexivity|].
  assert (HKl : forall j, 2 ^ depth <= j -> K j = (j =? 2 ^ depth + idx)).
  { intros j Hj. rewrite Habove by (subst m; lia). subst known0.
    rewrite (marks_spec depth). cbn [existsb].
    rewrite orb_false_r. reflexivity. }
  assert (HKp : forall i, 1 <= i < 2 ^ depth ->
                  K i = K (2 * i) || K (2 * i + 1)).
  { intros i Hi. apply Hnode. subst m. lia. }
  assert (E : D = path tree (Z.to_nat depth) (2 ^ depth + idx)).
  { rewrite HD. subst m.
    pose proof (path_decs tree depth idx Hidx K HKl HKp (Z.to_nat depth)
                  0%nat ltac:(lia)) as Hp.
    rewrite Z2Nat.id in Hp by lia.
    change (2 ^ Z.of_nat 0) with 1 in Hp. rewrite Z.div_1_r in Hp.
    exact Hp. }
  split; [exact E|]. rewrite E. apply length_path.
Qed.

Lemma generateMultiProof_one_element_witness :
  wellFormed Sample.digest Sample.tree 2 = true
  /\ 0 <= 2 < 2 ^ 2
  /\ exists p,
       generateMultiProof Sample.tree [2] = Ok p
       /\ values p = [get Sample.tree (2 ^ 2 + 2)]
       /\ decommitments p = path Sample.tree (Z.to_nat 2) (2 ^ 2 + 2)
       /\ List.length (decommitments p) = Z.to_nat 2.
Proof.
  assert (H1 : wellFormed Sample.digest Sample.tree 2 = true)
    by (vm_compute; reflexivity).
  assert (H2 : 0 <= 2 < 2 ^ 2) by (split; [discriminate|reflexivity]).
  split; [exact H1|]. split; [exact H2|].
  exact (generateMultiProof_one_element Sample.digest Sample.tree 2 2 H1 H2).
Defined.

End SinglePath.

(* ===================================================================== *)
(** * The proof of all elements *)
(* ===================================================================== *)

Module FullProof.

Import Utils MultiProof CombinedProof Spec Aux Notions BitFacts BitCount.
Import RoundTrip HelperBits.

Section AllLeaves.
Variable keccak256 : Buffer -> Buffer.
Variable tree : list Buffer.
Variable depth : Z.
Hypothesis Hwf : wellFormed keccak256 tree depth = true.

Local Abbreviation n := (2 ^ depth).
Local Abbreviation leafs := (leaves_down tree (2 ^ depth)).
Local Abbreviation hashFunction := (hashNode keccak256).

Lemma length_leafs : Z.of_nat (List.length leafs) = n.
Proof.
  pose proof (wf_n keccak256 tree depth Hwf).
  pose proof (wf_length keccak256 tree depth Hwf).
  unfold leaves_down. rewrite length_rev, length_skipn. lia.
Qed.

Lemma get_leafs j : 0 <= j < n -> get leafs j = get tree (2 * n - 1 - j).
Proof.
  intros Hj.
  pose proof (wf_length keccak256 tree depth Hwf) as Hl.
  unfold get, leaves_down.
  destruct (Z.ltb_spec j 0); [lia|].
  destruct (Z.ltb_spec (2 * n - 1 - j) 0); [lia|].
  rewrite nth_error_rev, length_skipn.
  destruct (Nat.ltb_spec (Z.to_nat j) (List.length tree - Z.to_nat n));
    [|lia].
  rewrite nth_error_skipn. f_equal. lia.
Qed.

Lemma even_count : 1 <= depth -> n = 2 * (n / 2).
Proof.
  intros Hd. replace depth with (Z.succ (depth - 1)) by lia.
  rewrite Z.pow_succ_r by lia. rewrite (Z.mul_comm 2), Z.div_mul by lia. lia.
Qed.

(** Nothing is recorded for the append proof before the last round: the
    node count of a level is even. *)
Lemma full_record t st :
  full_inv tree n t st -> 0 <= t <= n - 2 ->
  num_eqb (readIndexOfAppendNode st) (readIndex st)
  && CombinedProof.odd (appendNodeIndex st) = false.
Proof.
  intros (Hr & Hw & Hu & (e & He & Ha & Hle) & Hrm & Hc & Hh & Hs) Ht.
  pose proof (wf_n keccak256 tree depth Hwf) as Hn.
  assert (He32 : e <= 30).
  { destruct (Z_le_dec e 30); [assumption|].
    assert (2 ^ 31 <= 2 ^ e) by (apply Z.pow_le_mono_r; lia). lia. }
  rewrite Hr in *. rewrite Ha in *.
  destruct Hrm as [[Hane ->]|(Hlt & H2 & ->)].
  - cbn [num_eqb]. rewrite Z.eqb_refl. cbn [andb].
    apply odd_pow2. split; [|lia].
    destruct (Z.eq_dec e 0) as [E0|]; [|lia].
    rewrite E0 in Hane. change (2 ^ 0) with 1 in Hane. lia.
  - cbn [num_eqb].
    match goal with
    | |- (?a =? ?b) && _ = false =>
        destruct (Z.eqb_spec a b) as [E|]; [|reflexivity]
    end.
    exfalso. destruct (Z.ltb_spec (2 * t) n); lia.
Qed.

(** One flagged round. *)
Lemma full_step decommitments t st :
  full_inv tree n t st -> 0 <= t <= n - 2 ->
  exists st',
    combine_step hashFunction leafs decommitments true st = Ok st'
    /\ full_inv tree n (t + 1) st'.
Proof.
  intros (Hr & Hw & Hu & (e & He & Ha & Hle) & Hrm & Hc & Hh & Hs) Ht.
  pose proof (wf_n keccak256 tree depth Hwf) as Hn.
  pose proof (wf_depth keccak256 tree depth Hwf) as Hd.
  assert (Hd1 : 1 <= depth).
  { destruct (Z.eq_dec depth 0) as [E|]; [|lia].
    rewrite E in Ht. change (2 ^ 0) with 1 in Ht. lia. }
  pose proof (even_count Hd1) as Hev.
  pose proof length_leafs as Hll.
  destruct st as [ri wi di ul ani rian adi ad h hs].
  cbn [readIndex writeIndex useLeafs appendNodeIndex readIndexOfAppendNode
       appendDecommitmentIndex hash hashes] in *.
  subst ri wi ul adi h ani.
  assert (He32 : e <= 30).
  { destruct (Z_le_dec e 30); [assumption|].
    assert (2 ^ 31 <= 2 ^ e) by (apply Z.pow_le_mono_r; lia). lia. }
  (* the two entries read are the children of node [n - 1 - t] *)
  set (r := if 2 * t <? n then 2 * t else 2 * t - n) in *.
  assert (Hr : 0 <= r <= n - 2).
  { subst r. destruct (Z.ltb_spec (2 * t) n); lia. }
  destruct (get_some keccak256 tree depth Hwf (2 * (n - 1 - t)) ltac:(lia))
    as [l El].
  destruct (get_some keccak256 tree depth Hwf (2 * (n - 1 - t) + 1) ltac:(lia))
    as [rt Er].
  pose proof (wf_node keccak256 tree depth Hwf (n - 1 - t) l rt ltac:(lia)
                El Er) as En.
  set (st0 := {| readIndex := Num r; writeIndex := Num t;
                 decommitmentIndex := di; useLeafs := 2 * t <? n;
                 appendNodeIndex := 2 ^ e; readIndexOfAppendNode := rian;
                 appendDecommitmentIndex := 1; appendDecommitments := ad;
                 hash := None; hashes := hs |}).
  assert (Eright : read leafs st0 (Num r) = Some rt).
  { unfold read. subst st0 r. cbn [useLeafs hashes].
    destruct (Z.ltb_spec (2 * t) n).
    - cbn [get_num]. rewrite get_leafs by lia. rewrite <- Er. f_equal. lia.
    - rewrite Hs by lia. rewrite <- Er. f_equal. lia. }
  assert (Eleft : read leafs st0 (Num (r + 1)) = Some l).
  { unfold read. subst st0 r. cbn [useLeafs hashes].
    destruct (Z.ltb_spec (2 * t) n).
    - cbn [get_num]. rewrite get_leafs by lia. rewrite <- El. f_equal. lia.
    - rewrite Hs by lia. rewrite <- El. f_equal. lia. }
  assert (Erec : num_eqb rian (Num r) && CombinedProof.odd (2 ^ e) = false).
  { destruct Hrm as [[Hane ->]|(Hlt & H2 & ->)].
    - cbn [num_eqb]. rewrite Z.eqb_refl. cbn [andb].
      apply odd_pow2. split; [|lia].
      destruct (Z.eq_dec e 0) as [E0|]; [|lia].
      rewrite E0 in Hane. change (2 ^ 0) with 1 in Hane. lia.
    - cbn [num_eqb].
      destruct (Z.eqb_spec (n - 2 * 2 ^ e) r) as [E|]; [|reflexivity].
      exfalso. subst r. destruct (Z.ltb_spec (2 * t) n); lia. }
  unfold combine_step. fold st0.
  cbn [readIndex writeIndex decommitmentIndex useLeafs appendNodeIndex
       readIndexOfAppendNode appendDecommitmentIndex appendDecommitments
       hash hashes st0].
  fold st0. rewrite Erec. cbn [bind plus rem].
  rewrite Hll.
  destruct (Z.eqb_spec n 0) as [E0|_]; [lia|].
  rewrite (Z.rem_small (r + 1) n) by lia.
  rewrite Eright, Eleft. cbn [hashNode bind].
  eexists. split; [reflexivity|].
  unfold full_inv.
  cbn [readIndex writeIndex useLeafs appendNodeIndex readIndexOfAppendNode
       appendDecommitmentIndex hash hashes plus rem].
  destruct (Z.eqb_spec n 0) as [E0|_]; [lia|].
  rewrite (Z.rem_small (t + 1) n) by lia.
  assert (Eri : Num (Z.rem (r + 1 + 1) n)
                = Num (if 2 * (t + 1) <? n then 2 * (t + 1)
                       else 2 * (t + 1) - n)).
  { f_equal. subst r.
    destruct (Z.ltb_spec (2 * t) n), (Z.ltb_spec (2 * (t + 1)) n); try lia.
    - rewrite Z.rem_small by lia. lia.
    - replace (2 * t + 1 + 1) with n by lia. rewrite Z.rem_same by lia. lia.
    - rewrite Z.rem_small by lia. lia. }
  rewrite Eri.
  split; [reflexivity|]. split; [reflexivity|]. split.
  { cbn [num_eqb]. subst r.
    destruct (Z.ltb_spec (2 * t) n), (Z.ltb_spec (2 * (t + 1)) n);
      try lia; cbn [andb].
    - destruct (Z.eqb_spec (2 * t + 1 + 1) n); [lia|reflexivity].
    - destruct (Z.eqb_spec (2 * t + 1 + 1) n); [reflexivity|lia].
    - reflexivity. }
  split.
  { destruct (num_eqb rian (Num r)) eqn:Eq.
    - cbn [andb] in Erec.
      assert (He1 : 1 <= e).
      { destruct (Z.eq_dec e 0) as [E0|]; [|lia].
        rewrite E0 in Erec. discriminate Erec. }
      exists (e - 1). rewrite ushr32_pow2 by lia. split; [lia|].
      split; [reflexivity|].
      assert (2 ^ (e - 1) <= 2 ^ e) by (apply Z.pow_le_mono_r; lia). lia.
    - exists e. split; [lia|]. split; [reflexivity|lia]. }
  split.
  { destruct Hrm as [[Hane ->]|(Hlt & H2 & ->)].
    - cbn [num_eqb]. rewrite Z.eqb_refl.
      assert (He1 : 1 <= e).
      { destruct (Z.eq_dec e 0) as [E0|]; [|lia].
        rewrite E0 in Hane. change (2 ^ 0) with 1 in Hane. lia. }
      rewrite ushr32_pow2 by lia.
      assert (E2 : 2 ^ e = 2 * 2 ^ (e - 1)).
      { rewrite <- Z.pow_succ_r by lia. f_equal. lia. }
      destruct (Z.eq_dec (n - t) 2) as [Elast|Hmore].
      + left. split; [lia|]. f_equal.
        destruct (Z.ltb_spec (2 * (t + 1)) n); lia.
      + right. split; [lia|]. split; [lia|]. f_equal. lia.
    - cbn [num_eqb].
      destruct (Z.eqb_spec (n - 2 * 2 ^ e) r) as [E|_].
      { exfalso. subst r. destruct (Z.ltb_spec (2 * t) n); lia. }
      destruct (Z.eq_dec (t + 1) (n - 2 ^ e)) as [Eend|Hin].
      + left. split; [lia|]. f_equal.
        destruct (Z.ltb_spec (2 * (t + 1)) n); lia.
      + right. split; [lia|]. split; [lia|reflexivity]. }
  split; [reflexivity|]. split; [reflexivity|].
  intros j Hj. unfold set. cbn [key_eqb].
  destruct (Z.eqb_spec j t) as [->|Hne]; [symmetry; exact En|].
  apply Hs. lia.
Qed.

Lemma truthy_repeat_true m i :
  0 <= i < Z.of_nat m -> truthy (repeat true m) i = true.
Proof.
  intros Hi. unfold truthy, get.
  destruct (Z.ltb_spec i 0); [lia|].
  destruct (nth_error (repeat true m) (Z.to_nat i)) as [b|] eqn:E.
  - apply nth_error_In, repeat_spec in E. exact E.
  - apply nth_error_None in E. rewrite repeat_length in E. lia.
Qed.

Lemma truthy_repeat_false m i : truthy (repeat false m) i = false.
Proof.
  unfold truthy, get.
  destruct (i <? 0); [reflexivity|].
  destruct (nth_error (repeat false m) (Z.to_nat i)) as [b|] eqn:E;
    [|reflexivity].
  apply nth_error_In, repeat_spec in E. exact E.
Qed.

(** The rounds of the loop, from round [t] on. *)
Lemma full_loop decommitments m k : forall t st,
  full_inv tree n t st -> 0 <= t -> t + Z.of_nat k <= n - 1 ->
  t + Z.of_nat k <= Z.of_nat m ->
  exists st',
    loopBooleans hashFunction leafs decommitments
      (repeat true m) (repeat false m) k t st = Ok st'
    /\ full_inv tree n (t + Z.of_nat k) st'.
Proof.
  induction k as [|k IH]; intros t st Inv Ht Hk Hm.
  - exists st. split; [reflexivity|].
    replace (t + Z.of_nat 0) with t by lia. exact Inv.
  - cbn [loopBooleans].
    rewrite truthy_repeat_false, truthy_repeat_true by lia.
    destruct (full_step decommitments t st Inv ltac:(lia))
      as (st1 & E1 & Inv1).
    rewrite E1. cbn [bind].
    destruct (IH (t + 1) st1 Inv1 ltac:(lia) ltac:(lia) ltac:(lia))
      as (st2 & E2 & Inv2).
    exists st2. split; [exact E2|].
    replace (t + Z.of_nat (S k)) with (t + 1 + Z.of_nat k) by lia.
    exact Inv2.
Qed.

Lemma full_init :
  exists st, init leafs n = Ok st /\ full_inv tree n 0 st.
Proof.
  pose proof (wf_n keccak256 tree depth Hwf) as Hn.
  pose proof (wf_depth keccak256 tree depth Hwf) as Hd.
  pose proof length_leafs as Hll.
  assert (Hb : bitCount32 n = 1).
  { rewrite bitCount32_popcount.
    assert (2 ^ depth < 2 ^ 32) by (apply Z.pow_lt_mono_r; lia).
    rewrite Z.mod_small by lia.
    apply popcount_pow2. cbn. lia. }
  unfold init. rewrite Hll, Hb. unfold new_array.
  destruct (Z.ltb_spec n 0); [lia|].
  destruct (Z.leb_spec (2 ^ 32) n); [lia|].
  cbn [orb bind].
  eexists. split; [reflexivity|].
  unfold full_inv.
  cbn [readIndex writeIndex useLeafs appendNodeIndex readIndexOfAppendNode
       appendDecommitmentIndex hash hashes].
  destruct (Z.ltb_spec (2 * 0) n); [|lia].
  repeat split; try reflexivity.
  - exists depth. repeat split; lia.
  - left. split; [lia|reflexivity].
  - intros j Hj. lia.
Qed.

(** X20: on all the elements of a well-formed balanced tree, given with
    the last element first, with every flag set, no position skipped and
    no decommitment, [getRootBooleans] returns the root of the tree. *)
Theorem getRootBooleans_all_elements decommitments :
  exists root,
    get tree 1 = Some root
    /\ getRootBooleans hashFunction leafs n
         (repeat true (Z.to_nat (n - 1))) (repeat false (Z.to_nat (n - 1)))
         decommitments = Ok root.
Proof.
  pose proof (wf_n keccak256 tree depth Hwf) as Hn.
  pose proof length_leafs as Hll.
  destruct (get_some keccak256 tree depth Hwf 1 ltac:(lia)) as [root Eroot].
  exists root. split; [exact Eroot|].
  destruct full_init as (st0 & E0 & Inv0).
  destruct (full_loop decommitments (Z.to_nat (n - 1)) (Z.to_nat (n - 1))
              0 st0 Inv0 ltac:(lia) ltac:(lia) ltac:(lia))
    as (st1 & E1 & Inv1).
  unfold getRootBooleans, traverseBooleans.
  rewrite E0. cbn [bind]. rewrite repeat_length, E1. cbn [bind].
  replace (0 + Z.of_nat (Z.to_nat (n - 1))) with (n - 1) in Inv1 by lia.
  destruct Inv1 as (Hr & Hw & Hu & _ & _ & Hc & _ & Hs).
  unfold finish, crossCheck, rootOf, rootIndex.
  rewrite Hc, Hu, Hw, Hll. cbn [Z.eqb Pos.eqb bind num_eqb].
  destruct (Z.ltb_spec (2 * (n - 1)) n).
  - assert (En : n = 1) by lia.
    rewrite get_leafs by lia.
    replace (2 * n - 1 - 0) with 1 by lia. rewrite Eroot. reflexivity.
  - destruct (Z.eqb_spec (n - 1) 0) as [E|_]; [lia|].
    cbn [plus]. rewrite Hs by lia.
    replace (n - 1 - (n - 1 + -1)) with 1 by lia.
    rewrite Eroot. reflexivity.
Qed.

End AllLeaves.

Lemma getRootBooleans_all_elements_witness :
  wellFormed Sample.digest Sample.tree 2 = true
  /\ exists root,
       get Sample.tree 1 = Some root
       /\ getRootBooleans (hashNode Sample.digest)
            (leaves_down Sample.tree (2 ^ 2)) (2 ^ 2)
            (repeat true (Z.to_nat (2 ^ 2 - 1)))
            (repeat false (Z.to_nat (2 ^ 2 - 1))) [] = Ok root.
Proof.
  assert (H1 : wellFormed Sample.digest Sample.tree 2 = true)
    by (vm_compute; reflexivity).
  split; [exact H1|].
  exact (getRootBooleans_all_elements Sample.digest Sample.tree 2 H1 []).
Defined.

(** With nothing recorded for the append proof, a round of
    [getNewRootBooleans] is a round of [getRootBooleans] on each side. *)
Section Pairing.
Variable hashFunction : val -> val -> outcome Buffer.
Variable leafs updateLeafs decommitments : list Buffer.
Hypothesis Hlen : List.length updateLeafs = List.length leafs.

Lemma combine_newBooleans_sides flag ns s1 s2 :
  num_eqb (readIndexOfAppendNode (base ns)) (readIndex (base ns))
  && CombinedProof.odd (appendNodeIndex (base ns)) = false ->
  combine_step hashFunction leafs decommitments flag (base ns) = Ok s1 ->
  combine_step hashFunction updateLeafs decommitments flag (updated ns)
  = Ok s2 ->
  combine_newBooleans hashFunction leafs updateLeafs decommitments flag ns
  = Ok {| base := s1; newHashes := hashes s2 |}
  /\ updated {| base := s1; newHashes := hashes s2 |} = s2.
Proof.
  destruct ns as [[ri wi di ul ani rian adi ad h hs] nh].
  unfold combine_newBooleans, combine_step, pair_new, updated, readNew, read.
  cbn [base newHashes readIndex writeIndex decommitmentIndex useLeafs
       appendNodeIndex readIndexOfAppendNode appendDecommitmentIndex
       appendDecommitments hash hashes].
  rewrite Hlen.
  intros ->. cbn [bind].
  match goal with
  | |- bind ?a _ = _ -> bind ?b _ = _ -> _ =>
      destruct a as [v1| |]; cbn [bind]; [|discriminate..];
      destruct b as [v2| |]; cbn [bind]; [|discriminate..]
  end.
  intros [= <-] [= <-]. split; reflexivity.
Qed.

End Pairing.

(** The append pass for one element appended to a balanced tree: one
    round a level, the element carried up to the root level. *)
Section AppendOne.
Variable keccak256 : Buffer -> Buffer.
Variable depth : Z.
Variable x u : Buffer.
Variable slots : array Buffer.
Hypothesis Hdepth : 0 <= depth <= 30.
Hypothesis Hslot : slots (Num 0) = Some u.

Lemma append_levels j : forall fuel nh,
  Z.of_nat j <= depth -> (j < fuel)%nat ->
  readAppend [x] (2 ^ Z.of_nat j >=? 2 ^ depth) nh 0 = Some x ->
  exists f,
    appendLoop (hashNode keccak256) [x] (2 ^ depth) ushr32 slots fuel
      {| a_newHashes := nh; a_cursor := 0;
         a_upperBound := 2 ^ Z.of_nat j; a_writeIndex := 0;
         a_readIndex := 0; a_offset := 2 ^ Z.of_nat j;
         a_index := 2 ^ Z.of_nat j |} = Ok f
    /\ f (Num 0) = Some (keccak256 (u ++ x)).
Proof.
  induction j as [|j IH]; intros fuel nh Hj Hfuel Hread.
  - destruct fuel as [|fuel]; [lia|].
    change (2 ^ Z.of_nat 0) with 1 in *.
    cbn [appendLoop a_upperBound a_writeIndex a_index a_offset a_cursor
         a_readIndex a_newHashes].
    change (1 >? 0) with true. change (0 =? 0) with true.
    change (CombinedProof.odd 1) with true. cbn [andb].
    rewrite Hslot, Hread. cbn [hashNode bind a_index a_upperBound a_newHashes
                               a_writeIndex a_readIndex a_offset a_cursor].
    change (1 + 1 >=? 1) with true. change (1 + 1 =? 1) with false.
    change (ushr32 1 1) with 0.
    exists (set nh (Num 0) (Some (keccak256 (u ++ x)))).
    split; [destruct fuel; reflexivity|reflexivity].
  - destruct fuel as [|fuel]; [lia|].
    assert (Hpos : 0 < 2 ^ Z.of_nat (S j)) by (apply Z.pow_pos_nonneg; lia).
    assert (Hodd : CombinedProof.odd (2 ^ Z.of_nat (S j)) = false)
      by (apply odd_pow2; lia).
    assert (Hhalf : ushr32 (2 ^ Z.of_nat (S j)) 1 = 2 ^ Z.of_nat j).
    { rewrite ushr32_pow2 by lia. f_equal. lia. }
    cbn [appendLoop a_upperBound a_writeIndex a_index a_offset a_cursor
         a_readIndex a_newHashes].
    destruct (Z.gtb_spec (2 ^ Z.of_nat (S j)) 0) as [_|]; [|lia].
    rewrite Hodd, andb_false_r, Z.ltb_irrefl.
    cbn [bind a_upperBound a_writeIndex a_index a_offset a_cursor
         a_readIndex a_newHashes].
    destruct (Z.geb_spec (2 ^ Z.of_nat (S j)) (2 ^ Z.of_nat (S j)));
      [|lia].
    rewrite Z.eqb_refl, Hhalf, Hread.
    apply IH; [lia|lia|].
    assert (2 ^ Z.of_nat j < 2 ^ depth) by (apply Z.pow_lt_mono_r; lia).
    unfold readAppend.
    destruct (Z.geb_spec (2 ^ Z.of_nat j) (2 ^ depth)); [lia|].
    reflexivity.
Qed.

End AppendOne.

Section UpdateAll.
Variable keccak256 : Buffer -> Buffer.
Variable tree tree' : list Buffer.
Variable depth : Z.
Variable x : Buffer.
Hypothesis Hwf : wellFormed keccak256 tree depth = true.
Hypothesis Hwf' : wellFormed keccak256 tree' depth = true.

Local Abbreviation n := (2 ^ depth).
Local Abbreviation leafs := (leaves_down tree (2 ^ depth)).
Local Abbreviation updateLeafs := (leaves_down tree' (2 ^ depth)).
Local Abbreviation hashFunction := (hashNode keccak256).

Lemma same_length : List.length updateLeafs = List.length leafs.
Proof.
  pose proof (length_leafs keccak256 tree depth Hwf).
  pose proof (length_leafs keccak256 tree' depth Hwf'). lia.
Qed.

Lemma new_loop decommitments m k : forall t ns,
  full_inv tree n t (base ns) -> full_inv tree' n t (updated ns) ->
  0 <= t -> t + Z.of_nat k <= n - 1 -> t + Z.of_nat k <= Z.of_nat m ->
  exists ns',
    loopNewBooleans hashFunction leafs updateLeafs decommitments
      (repeat true m) (repeat false m) k t ns = Ok ns'
    /\ full_inv tree n (t + Z.of_nat k) (base ns')
    /\ full_inv tree' n (t + Z.of_nat k) (updated ns').
Proof.
  induction k as [|k IH]; intros t ns Inv Inv' Ht Hk Hm.
  - exists ns. split; [reflexivity|].
    replace (t + Z.of_nat 0) with t by lia. split; assumption.
  - cbn [loopNewBooleans].
    rewrite truthy_repeat_false, truthy_repeat_true by lia.
    destruct (full_step keccak256 tree depth Hwf decommitments t _ Inv
                ltac:(lia)) as (s1 & E1 & Inv1).
    destruct (full_step keccak256 tree' depth Hwf' decommitments t _ Inv'
                ltac:(lia)) as (s2 & E2 & Inv2).
    pose proof (full_record keccak256 tree depth Hwf t _ Inv ltac:(lia))
      as Hrec.
    destruct (combine_newBooleans_sides hashFunction leafs updateLeafs
                decommitments same_length true ns s1 s2 Hrec E1 E2)
      as [E U].
    rewrite E. cbn [bind].
    destruct (IH (t + 1) {| base := s1; newHashes := hashes s2 |})
      as (ns2 & E3 & I3 & I3'); try lia.
    + exact Inv1.
    + rewrite U. exact Inv2.
    + exists ns2. split; [exact E3|].
      replace (t + Z.of_nat (S k)) with (t + 1 + Z.of_nat k) by lia.
      split; assumption.
Qed.

Lemma new_init :
  exists ns,
    initNew leafs [x] n = Ok ns
    /\ full_inv tree n 0 (base ns) /\ full_inv tree' n 0 (updated ns).
Proof.
  pose proof (wf_n keccak256 tree depth Hwf) as Hn.
  pose proof (wf_depth keccak256 tree depth Hwf) as Hd.
  pose proof (length_leafs keccak256 tree depth Hwf) as Hll.
  assert (Hb : bitCount32 n = 1).
  { rewrite bitCount32_popcount.
    assert (2 ^ depth < 2 ^ 32) by (apply Z.pow_lt_mono_r; lia).
    rewrite Z.mod_small by lia.
    apply popcount_pow2. cbn. lia. }
  unfold initNew. rewrite Hll, Hb. unfold new_array.
  destruct (Z.ltb_spec n 0); [lia|].
  destruct (Z.leb_spec (2 ^ 32) n); [lia|].
  change (ushr32 (Z.of_nat (List.length [x])) 1 + 1) with 1.
  destruct (Z.ltb_spec (Z.max n 1) 0); [lia|].
  destruct (Z.leb_spec (2 ^ 32) (Z.max n 1)); [lia|].
  cbn [orb bind].
  eexists. split; [reflexivity|].
  unfold full_inv, updated.
  cbn [base newHashes readIndex writeIndex useLeafs appendNodeIndex
       readIndexOfAppendNode appendDecommitmentIndex hash hashes].
  destruct (Z.ltb_spec (2 * 0) n); [|lia].
  split; repeat split; try reflexivity;
    try (exists depth; repeat split; lia);
    try (left; split; [lia|reflexivity]);
    intros j Hj; lia.
Qed.

(** X21: all the elements of a well-formed balanced tree replaced and
    one element appended: with every flag set and no position skipped,
    [getNewRootBooleans] returns the root of the tree and, as the new
    root, the hash of the root of the replaced tree and the appended
    element. *)
Theorem getNewRootBooleans_replace_all_append_one decommitments :
  exists root root',
    get tree 1 = Some root /\ get tree' 1 = Some root'
    /\ getNewRootBooleans hashFunction leafs updateLeafs [x] n
         (repeat true (Z.to_nat (n - 1))) (repeat false (Z.to_nat (n - 1)))
         decommitments
       = Ok {| root := root; newRoot := Some (keccak256 (root' ++ x)) |}.
Proof.
  pose proof (wf_n keccak256 tree depth Hwf) as Hn.
  pose proof (wf_depth keccak256 tree depth Hwf) as Hd.
  pose proof (length_leafs keccak256 tree depth Hwf) as Hll.
  destruct (get_some keccak256 tree depth Hwf 1 ltac:(lia)) as [root Eroot].
  destruct (get_some keccak256 tree' depth Hwf' 1 ltac:(lia))
    as [root' Eroot'].
  exists root, root'. split; [exact Eroot|]. split; [exact Eroot'|].
  destruct new_init as (ns0 & E0 & Inv0 & Inv0').
  destruct (new_loop decommitments (Z.to_nat (n - 1)) (Z.to_nat (n - 1))
              0 ns0 Inv0 Inv0' ltac:(lia) ltac:(lia) ltac:(lia))
    as (ns1 & E1 & Inv1 & Inv1').
  unfold getNewRootBooleans, traverseNewBooleans.
  rewrite E0. cbn [bind]. rewrite repeat_length, E1. cbn [bind].
  replace (0 + Z.of_nat (Z.to_nat (n - 1))) with (n - 1) in Inv1, Inv1'
    by lia.
  destruct Inv1 as (Hr & Hw & Hu & _ & _ & Hc & _ & Hs).
  destruct Inv1' as (_ & _ & _ & _ & _ & _ & _ & Hs').
  cbn [updated hashes] in Hs'.
  assert (Eold : (if useLeafs (base ns1) then get leafs 0
                  else hashes (base ns1) (rootIndex leafs (base ns1)))
                 = Some root
                 /\ (if useLeafs (base ns1) then get updateLeafs 0
                     else newHashes ns1 (rootIndex leafs (base ns1)))
                    = Some root').
  { unfold rootIndex. rewrite Hu, Hw, Hll. cbn [num_eqb].
    destruct (Z.ltb_spec (2 * (n - 1)) n).
    - assert (En : n = 1) by lia.
      rewrite (get_leafs keccak256 tree depth Hwf) by lia.
      rewrite (get_leafs keccak256 tree' depth Hwf') by lia.
      replace (2 * n - 1 - 0) with 1 by lia. split; assumption.
    - destruct (Z.eqb_spec (n - 1) 0) as [E|_]; [lia|].
      cbn [plus]. rewrite Hs, Hs' by lia.
      replace (n - 1 - (n - 1 + -1)) with 1 by lia. split; assumption. }
  destruct Eold as [Eold Enew].
  unfold checkNew, crossCheck. rewrite Eold, Enew, Hc.
  cbn [Z.eqb Pos.eqb bind oldRoot buffer_from].
  assert (Hb : bitCount32 n = 1).
  { rewrite bitCount32_popcount.
    assert (2 ^ depth < 2 ^ 32) by (apply Z.pow_lt_mono_r; lia).
    rewrite Z.mod_small by lia.
    apply popcount_pow2. cbn. lia. }
  unfold appendPass. rewrite Hb.
  cbn [newAppendDecommitments stack].
  replace (n + Z.of_nat (List.length [x]) - 1) with n
    by (cbn [List.length]; lia).
  change (1 - 1) with 0.
  destruct (append_levels keccak256 depth x root'
              (set (appendDecommitments (base ns1)) (Num 0) (Some root'))
              Hd eq_refl (Z.to_nat depth) (appendFuel [x]) (newHashes ns1))
    as (f & Ef & Hf).
  - lia.
  - unfold appendFuel. cbn [List.length]. lia.
  - rewrite Z2Nat.id by lia. unfold readAppend.
    destruct (Z.geb_spec n n); [reflexivity|lia].
  - rewrite Z2Nat.id in Ef by lia. rewrite Ef. cbn [bind].
    rewrite Hf. reflexivity.
Qed.

End UpdateAll.

Lemma getNewRootBooleans_replace_all_append_one_witness :
  wellFormed Sample.digest Sample.tree 2 = true
  /\ wellFormed Sample.digest Replaced.tree 2 = true
  /\ exists root root',
       get Sample.tree 1 = Some root /\ get Replaced.tree 1 = Some root'
       /\ getNewRootBooleans (hashNode Sample.digest)
            (leaves_down Sample.tree (2 ^ 2))
            (leaves_down Replaced.tree (2 ^ 2)) [[30]] (2 ^ 2)
            (repeat true (Z.to_nat (2 ^ 2 - 1)))
            (repeat false (Z.to_nat (2 ^ 2 - 1))) []
          = Ok {| root := root;
                  newRoot := Some (Sample.digest (root' ++ [30])) |}.
Proof.
  assert (H1 : wellFormed Sample.digest Sample.tree 2 = true)
    by (vm_compute; reflexivity).
  assert (H2 : wellFormed Sample.digest Replaced.tree 2 = true)
    by (vm_compute; reflexivity).
  split; [exact H1|]. split; [exact H2|].
  exact (getNewRootBooleans_replace_all_append_one Sample.digest Sample.tree
           Replaced.tree 2 [30] H1 H2 []).
Defined.

End FullProof.

(* ===================================================================== *)
(** * The two encodings of an update *)
(* ===================================================================== *)

Module UpdateEncodings.

Import Utils CombinedProof Spec Aux BitFacts BitCount Combined Termination.

Section NewEncodings.
Variable hashFunction : val -> val -> outcome Buffer.
Variable leafs updateLeafs appendLeafs decommitments : list Buffer.
Variable elementCount : Z.

(** The packed variant reads the two append hashes later; the round is
    the same. *)
Lemma combine_new_agree flag ns :
  combine_newBits hashFunction leafs updateLeafs decommitments flag ns
  = combine_newBooleans hashFunction leafs updateLeafs decommitments flag ns.
Proof.
  unfold combine_newBits, combine_newBooleans.
  destruct (num_eqb (readIndexOfAppendNode (base ns)) (readIndex (base ns)));
    [|reflexivity].
  destruct (CombinedProof.odd (appendNodeIndex (base ns))); reflexivity.
Qed.

(** [>>=] and [>>>=] halve [upperBound] alike below [2^31]. *)
Lemma appendLoop_halves slots fuel : forall s,
  a_upperBound s < 2 ^ 31 ->
  appendLoop hashFunction appendLeafs elementCount shr32 slots fuel s
  = appendLoop hashFunction appendLeafs elementCount ushr32 slots fuel s.
Proof.
  induction fuel as [|fuel IH]; intros s Hs.
  - reflexivity.
  - destruct s as [nh cur U w r O I]. cbn [appendLoop].
    cbn [a_newHashes a_cursor a_upperBound a_writeIndex a_readIndex
         a_offset a_index] in *.
    destruct (Z.gtb_spec U 0) as [HU|HU]; [|reflexivity].
    assert (Hh : shr32 U 1 = ushr32 U 1).
    { rewrite shr32_half, ushr32_half by lia. reflexivity. }
    assert (Hb : ushr32 U 1 < 2 ^ 31).
    { rewrite ushr32_half by lia. Z.div_mod_to_equations. lia. }
    assert (Hstep : forall s1, a_upperBound s1 = U ->
              appendLoop hashFunction appendLeafs elementCount shr32 slots
                fuel
                (if a_index s1 >=? a_upperBound s1 then
                   {| a_newHashes :=
                        if a_index s1 =? a_upperBound s1
                        then set (a_newHashes s1) (Num (a_writeIndex s1))
                               (readAppend appendLeafs
                                  (O >=? elementCount)
                                  (a_newHashes s1) (a_readIndex s1))
                        else a_newHashes s1;
                      a_cursor := a_cursor s1;
                      a_upperBound := shr32 (a_upperBound s1) 1;
                      a_writeIndex := 0;
                      a_readIndex := 0;
                      a_offset := ushr32 (a_offset s1) 1;
                      a_index := ushr32 (a_offset s1) 1 |}
                 else s1)
              = appendLoop hashFunction appendLeafs elementCount ushr32 slots
                  fuel
                  (if a_index s1 >=? a_upperBound s1 then
                     {| a_newHashes :=
                          if a_index s1 =? a_upperBound s1
                          then set (a_newHashes s1) (Num (a_writeIndex s1))
                                 (readAppend appendLeafs
                                    (O >=? elementCount)
                                    (a_newHashes s1) (a_readIndex s1))
                          else a_newHashes s1;
                        a_cursor := a_cursor s1;
                        a_upperBound := ushr32 (a_upperBound s1) 1;
                        a_writeIndex := 0;
                        a_readIndex := 0;
                        a_offset := ushr32 (a_offset s1) 1;
                        a_index := ushr32 (a_offset s1) 1 |}
                   else s1)).
    { intros s1 E1. rewrite E1, Hh.
      apply IH. destruct (a_index s1 >=? U);
        cbn [a_upperBound]; [exact Hb|lia]. }
    destruct ((w =? 0) && CombinedProof.odd I).
    + destruct (hashFunction _ _) as [h|e|]; cbn [bind]; try reflexivity.
      apply Hstep. reflexivity.
    + destruct (I <? U).
      * destruct (hashFunction _ _) as [h|e|]; cbn [bind]; try reflexivity.
        apply Hstep. reflexivity.
      * cbn [bind]. apply Hstep. reflexivity.
Qed.

Variable flags skips : list bool.
Variable flagWord skipWord : Buffer.
Hypothesis Hflags : packs flags flagWord = true.
Hypothesis Hskips : packs skips skipWord = true.
Hypothesis Hlen : List.length skips = List.length flags.
Hypothesis Hend : no_early_end flags skips = true.

Lemma loopNew_encodings k : forall i ns fuel,
  0 <= i -> i + Z.of_nat k = Z.of_nat (List.length flags) -> (k < fuel)%nat ->
  loopNewBits hashFunction leafs updateLeafs decommitments
    (Some flagWord) (Some skipWord) fuel (2 ^ i) ns
  = loopNewBooleans hashFunction leafs updateLeafs decommitments
      flags skips k i ns.
Proof.
  destruct (packs_spec _ _ Hflags) as (Hn & Hfb & Hfe).
  destruct (packs_spec _ _ Hskips) as (_ & Hsb & Hse).
  rewrite Hlen in Hsb, Hse.
  pose proof (packs_length _ _ Hflags) as Lf.
  pose proof (packs_length _ _ Hskips) as Ls.
  induction k as [|k IH]; intros i ns fuel Hi Hk Hf;
    (destruct fuel as [|fuel]; [lia|]);
    cbn [loopNewBits loopNewBooleans];
    rewrite !bit_set_word by assumption; cbn [bind];
    rewrite !land_pow2 by lia.
  - replace i with (Z.of_nat (List.length flags)) by lia.
    rewrite Hfe, Hse. reflexivity.
  - rewrite Hfb, Hsb by lia.
    pose proof (all_below_spec _ _ _ Hend i ltac:(lia)) as Hno.
    cbv beta in Hno.
    rewrite leftShift_pow2 by lia.
    destruct (truthy skips i).
    + destruct (truthy flags i); [discriminate|]. cbn [bind].
      apply IH; lia.
    + rewrite combine_new_agree.
      destruct (combine_newBooleans hashFunction leafs updateLeafs
                  decommitments (truthy flags i) ns); cbn [bind];
        try reflexivity.
      apply IH; lia.
Qed.

(** X22: for boolean arrays [flags] and [skips] of equal length [n], no
    position of which has both the skip and the flag set, and 32-byte
    words whose bits [0 .. n-1] agree with the arrays and whose bit [n]
    is set in both, [getNewRootBits] gives what [getNewRootBooleans]
    gives, the two roots or the failure, as long as [elementCount +
    appendLeafs.length - 1] is below [2^31]. *)
Theorem new_encodings_agree :
  elementCount + Z.of_nat (List.length appendLeafs) - 1 < 2 ^ 31 ->
  getNewRootBits hashFunction leafs updateLeafs appendLeafs elementCount
    (flagWord :: skipWord :: decommitments)
  = getNewRootBooleans hashFunction leafs updateLeafs appendLeafs
      elementCount flags skips decommitments.
Proof.
  intros Hsmall.
  assert (E : traverseNewBits hashFunction leafs updateLeafs appendLeafs
                elementCount (flagWord :: skipWord :: decommitments)
              = traverseNewBooleans hashFunction leafs updateLeafs
                  appendLeafs elementCount flags skips decommitments).
  { unfold traverseNewBits, traverseNewBooleans.
    destruct (packs_spec _ _ Hflags) as (Hn & _).
    assert (Hf : (List.length flags < 257)%nat) by lia.
    revert Hf. generalize 257%nat. intros fuel Hf.
    destruct (initNew leafs appendLeafs elementCount); cbn [bind];
      try reflexivity.
    change (get (flagWord :: skipWord :: decommitments) 0)
      with (Some flagWord).
    change (get (flagWord :: skipWord :: decommitments) 1)
      with (Some skipWord).
    change (skipn 2 (flagWord :: skipWord :: decommitments))
      with decommitments.
    change 1 with (2 ^ 0) at 1.
    rewrite (loopNew_encodings (List.length flags)) by lia. reflexivity. }
  unfold getNewRootBits, getNewRootBooleans. rewrite E.
  destruct (traverseNewBooleans hashFunction leafs updateLeafs appendLeafs
              elementCount flags skips decommitments) as [c| |];
    cbn [bind]; try reflexivity.
  unfold appendPass. rewrite appendLoop_halves by exact Hsmall.
  reflexivity.
Qed.

End NewEncodings.

Lemma new_encodings_agree_witness :
  packs [true; true; true] (Sample.word32 15) = true
  /\ packs [false; false; false] (Sample.word32 8) = true
  /\ List.length [false; false; false] = List.length [true; true; true]
  /\ no_early_end [true; true; true] [false; false; false] = true
  /\ 4 + Z.of_nat (List.length [[30]]) - 1 < 2 ^ 31
  /\ getNewRootBits Sample.hashFunction [[13]; [12]; [11]; [10]]
       [[23]; [22]; [21]; [20]] [[30]] 4
       [Sample.word32 15; Sample.word32 8]
     = getNewRootBooleans Sample.hashFunction [[13]; [12]; [11]; [10]]
         [[23]; [22]; [21]; [20]] [[30]] 4
         [true; true; true] [false; false; false] [].
Proof.
  assert (H1 : packs [true; true; true] (Sample.word32 15) = true)
    by (vm_compute; reflexivity).
  assert (H2 : packs [false; false; false] (Sample.word32 8) = true)
    by (vm_compute; reflexivity).
  assert (H3 : List.length [false; false; false]
               = List.length [true; true; true]) by reflexivity.
  assert (H4 : no_early_end [true; true; true] [false; false; false] = true)
    by (vm_compute; reflexivity).
  assert (H5 : 4 + Z.of_nat (List.length [[30]]) - 1 < 2 ^ 31)
    by reflexivity.
  repeat (split; [assumption|]).
  exact (new_encodings_agree Sample.hashFunction [[13]; [12]; [11]; [10]]
           [[23]; [22]; [21]; [20]] [[30]] [] 4
           [true; true; true] [false; false; false]
           (Sample.word32 15) (Sample.word32 8) H1 H2 H3 H4 H5).
Defined.

End UpdateEncodings.
